(** * Storage Inspector: the reconciliation layer of [popup.js]

    A shallow embedding of the [StorageInspector] class of [src/popup.js]:
    the cookie write request built by [setCookie], the JSON minification of
    [saveItem], the key-value and cookie adapters with their in-memory
    mirror [this.data], the bulk import of [confirmImport] and the persisted
    UI state of [saveState] / [restoreState].

    JavaScript strings are sequences of UTF-16 code units, objects used as
    dictionaries are association lists kept in the property order of an
    ordinary object, and the asynchronous methods are state transformers
    over the inspector and the browser it talks to. *)

From Stdlib Require Import ZArith NArith List String Ascii Lia Bool.
From Stdlib Require DecimalFacts DecimalPos DecimalN.
From stdpp Require Import base tactics option list numbers.
Import ListNotations.

Local Open Scope N_scope.

(** ** JavaScript strings *)

(** A code unit of a JavaScript string. *)
Abbreviation code_unit := N.

(** A JavaScript string: its UTF-16 code units. *)
Abbreviation jsstring := (list N).

(** The JavaScript string of an ASCII literal. *)
Definition str (s : string) : jsstring :=
  map N_of_ascii (list_ascii_of_string s).

(** Single code units are written as one-character literals in [cu_scope]. *)
Definition cu_of_bytes (l : list Byte.byte) : option N :=
  match l with
  | [b] => Some (Byte.to_N b)
  | _ => None
  end.

Definition cu_to_bytes (n : N) : option (list Byte.byte) :=
  match Byte.of_N n with
  | Some b => Some [b]
  | None => None
  end.

Declare Scope cu_scope.
Delimit Scope cu_scope with cu.
String Notation N cu_of_bytes cu_to_bytes : cu_scope.

(** [s.startsWith('.')] *)
Definition startsWith_dot (s : jsstring) : bool :=
  match s with
  | c :: _ => N.eqb c "."%cu
  | [] => false
  end.

(** [s.substring(1)] *)
Definition substring1 (s : jsstring) : jsstring := tl s.

(** Truthiness of a string-or-undefined value: [undefined] and the empty
    string are falsy. *)
Definition truthy_string (x : option jsstring) : bool :=
  match x with
  | Some (_ :: _) => true
  | _ => false
  end.

(** [x || d] on a string-or-undefined value. *)
Definition or_string (x : option jsstring) (d : jsstring) : jsstring :=
  match x with
  | Some (c :: s) => c :: s
  | _ => d
  end.

(** [x || false] on a boolean-or-undefined value. *)
Definition or_false (x : option bool) : bool :=
  match x with
  | Some b => b
  | None => false
  end.

(** ** JavaScript numbers

    A finite number is a double, written as the decimal [m * 10^e] that
    [Number::toString] prints for it: the shortest decimal that the double
    is the nearest to, with no trailing zero in [m] ([Finite 0 0] for
    zero); [NegZero] is the negative zero.  A literal too large for a
    double is [Infinite], one too small is a zero. *)
Inductive number :=
| Finite (m : Z) (e : Z)
| NegZero
| Infinite (neg : bool)
| NaN.

(** Truthiness of a number: zero and [NaN] are falsy. *)
Definition truthy_number (x : number) : bool :=
  match x with
  | Finite m _ => negb (Z.eqb m 0)
  | NegZero => false
  | Infinite _ => true
  | NaN => false
  end.

(** ** Cookies *)

(** A cookie as the inspector handles it: an element of
    [this.data.cookies], an entry of an import file, or the [cookieData]
    object of [saveItem].  A field that may be missing is an [option]. *)
Module Cookie.
Record t := mk {
  name : jsstring;
  value : jsstring;
  domain : option jsstring;
  path : option jsstring;
  secure : option bool;
  httpOnly : option bool;
  sameSite : option jsstring;
  expirationDate : option number
}.
End Cookie.

(** The object [setCookie] hands to [chrome.cookies.set].  [domain] and
    [expirationDate] are properties that it adds only in some cases. *)
Module Details.
Record t := mk {
  url : jsstring;
  name : jsstring;
  value : jsstring;
  path : jsstring;
  secure : bool;
  httpOnly : bool;
  sameSite : jsstring;
  domain : option jsstring;
  expirationDate : option number
}.
End Details.

(** [this.currentUrl], the parts that are read. *)
Record Url := {
  origin : jsstring;
  hostname : jsstring;
  protocol : jsstring
}.

(** Lines 375-377: a domain without one leading dot. *)
Definition strip_dot (domain : jsstring) : jsstring :=
  if startsWith_dot domain then substring1 domain else domain.

(** The domain handling of [setCookie] (lines 371-382): nothing for a falsy
    [data.domain]; otherwise one leading dot is removed and the result is
    kept unless it is the current hostname. *)
Definition cookie_domain (currentUrl : Url) (data_domain : option jsstring)
  : option jsstring :=
  if truthy_string data_domain then
    let domain := strip_dot (default [] data_domain) in
    if decide (domain <> hostname currentUrl) then Some domain else None
  else None.

(** The [cookie] object of [setCookie] (lines 361-383). *)
Definition setCookie_details (currentUrl : Url) (data : Cookie.t) : Details.t :=
  {| Details.url := origin currentUrl;
     Details.name := Cookie.name data;
     Details.value := Cookie.value data;
     Details.path := or_string (Cookie.path data) (str "/");
     Details.secure := or_false (Cookie.secure data);
     Details.httpOnly := or_false (Cookie.httpOnly data);
     Details.sameSite := or_string (Cookie.sameSite data) (str "lax");
     Details.domain := cookie_domain currentUrl (Cookie.domain data);
     Details.expirationDate :=
       match Cookie.expirationDate data with
       | Some x => if truthy_number x then Some x else None
       | None => None
       end |}.

(** ** Objects used as dictionaries

    An ordinary object lists its own string keys with the array indices
    first, in ascending order, and then the other keys in the order they
    were created.  An object is the list of its properties in that order.
    These are its own properties; what it inherits from
    [Object.prototype] is told by [Object_prototype_names]. *)
Abbreviation jsobject V := (list (jsstring * V)).

Definition is_digit (c : N) : bool := (48 <=? c) && (c <=? 57).
Arguments is_digit : simpl never.

(** The value of a run of decimal digits, most significant first. *)
Fixpoint digits_value (acc : N) (s : jsstring) : N :=
  match s with
  | [] => acc
  | c :: r => digits_value (acc * 10 + (c - 48)) r
  end.

(** The array index a key denotes, if any: a canonical decimal numeral
    below [2^32 - 1]. *)
Definition array_index (k : jsstring) : option N :=
  match k with
  | [] => None
  | c :: r =>
      if forallb is_digit k && (negb (c =? "0"%cu) || bool_decide (r = [])) then
        let n := digits_value 0 k in
        if n <? 4294967295 then Some n else None
      else None
  end.

(** [key_before k k']: in an object that has both, [k] is listed before
    [k'] whatever the order of creation. *)
Definition key_before (k k' : jsstring) : bool :=
  match array_index k, array_index k' with
  | Some i, Some j => i <? j
  | Some _, None => true
  | None, _ => false
  end.

(** The own property [k] of [o]. *)
Fixpoint obj_get {V} (k : jsstring) (o : jsobject V) : option V :=
  match o with
  | [] => None
  | (k', v) :: o' => if decide (k = k') then Some v else obj_get k o'
  end.

(** [k] becomes an own property of [o] with the value [v], or stays one
    at its place ([CreateDataProperty], and an assignment that no accessor
    takes). *)
Fixpoint obj_set {V} (k : jsstring) (v : V) (o : jsobject V) : jsobject V :=
  match o with
  | [] => [(k, v)]
  | (k', v') :: o' =>
      if decide (k = k') then (k, v) :: o'
      else if key_before k k' then (k, v) :: (k', v') :: o'
      else (k', v') :: obj_set k v o'
  end.

(** The names that an ordinary object inherits from [Object.prototype];
    [__proto__] is an accessor, the others are methods. *)
Definition Object_prototype_names : list jsstring :=
  map str ["constructor"; "__defineGetter__"; "__defineSetter__"; "hasOwnProperty";
           "__lookupGetter__"; "__lookupSetter__"; "isPrototypeOf";
           "propertyIsEnumerable"; "toString"; "valueOf"; "__proto__";
           "toLocaleString"]%string.

(** [o[k] = v] for a string [v], on an object whose prototype is
    [Object.prototype]: a name that is not an own property and is
    [__proto__] goes to the accessor of the prototype, whose setter
    ignores a value that is not an object, so that nothing is stored;
    every other name becomes or stays an own property. *)
Definition obj_assign (k v : jsstring) (o : jsobject jsstring) : jsobject jsstring :=
  match obj_get k o with
  | Some _ => obj_set k v o
  | None => if decide (k = str "__proto__") then o else obj_set k v o
  end.

(** What [o[k]] reads on such an object: an own property, or what the
    object inherits under that name, or [undefined]. *)
Inductive property :=
| Own (v : jsstring)
| Inherited (name : jsstring)
| Undefined.

Definition obj_lookup (k : jsstring) (o : jsobject jsstring) : property :=
  match obj_get k o with
  | Some v => Own v
  | None =>
      if bool_decide (k ∈ Object_prototype_names) then Inherited k else Undefined
  end.

(** [delete o[k]] *)
Definition obj_delete {V} (k : jsstring) (o : jsobject V) : jsobject V :=
  filter (fun p => k <> fst p) o.

(** [Object.keys(o)] *)
Definition Object_keys {V} (o : jsobject V) : list jsstring := map fst o.

(** [Object.entries(o)] *)
Definition Object_entries {V} (o : jsobject V) : list (jsstring * V) := o.

(** ** The inspector and the browser *)

(** [this.data], the mirror of the three stores. *)
Record Data := {
  localStorage : jsobject jsstring;
  sessionStorage : jsobject jsstring;
  cookies : list Cookie.t
}.

(** The fields of [this] that the modelled methods read or write. *)
Record Inspector := {
  currentTab : jsstring;
  currentUrl : Url;
  data : Data;
  editingItem : option jsstring;
  searchQuery : jsstring
}.

(** The two key-value stores of a page. *)
Inductive kind := KLocal | KSession.

#[export] Instance kind_eq_dec : EqDecision kind.
Proof. solve_decision. Defined.

(** [window[storageType]] is a store for two names only. *)
Definition kind_of (type : jsstring) : option kind :=
  if decide (type = str "localStorage") then Some KLocal
  else if decide (type = str "sessionStorage") then Some KSession
  else None.

(** How a call of a [chrome] API settles: it ran to completion; its promise
    was fulfilled without a result, the work in the page not having been
    done; or its promise was rejected. *)
Inductive outcome := Fulfilled | NoResult | Rejected.

(** The object [saveState] stores under [inspectorState], the properties
    that [restoreState] reads back; each may be missing or empty. *)
Module SavedState.
Record t := mk {
  currentTab : option jsstring;
  searchQuery : option jsstring;
  theme : option jsstring;
  lastSaved : option Z
}.
End SavedState.

(** The calls of the [chrome] API that the adapters make. *)
Inductive call :=
| ExecLoad (type : jsstring)
| ExecSetItem (type key value : jsstring)
| ExecRemoveItem (type key : jsstring)
| CookiesGetAll (url : jsstring)
| CookiesSet (details : Details.t)
| CookiesRemove (url name : jsstring)
| StorageGet
| StorageSet (state : SavedState.t).

(** The cookie store of the browser, by its interface: what
    [chrome.cookies.getAll], [set] and [remove] do to it is the browser's
    business. *)
Class CookieStore (J : Type) := {
  jar_getAll : jsstring -> J -> list Cookie.t;
  jar_set : Details.t -> J -> J;
  jar_remove : jsstring -> jsstring -> J -> J
}.

(** A toast: its message and its type. *)
Definition toast := (jsstring * jsstring)%type.

(** The browser side: the storage of the inspected page, the cookie store,
    the extension's own [chrome.storage.local] entry, the [data-theme]
    attribute of the document, the clock, how the coming API calls settle
    (all fulfilled once the list is used up), the calls made so far and the
    toasts shown so far. *)
Record Browser (J : Type) := {
  page_local : jsobject jsstring;
  page_session : jsobject jsstring;
  jar : J;
  inspectorState : option SavedState.t;
  theme : option jsstring;
  now : Z;
  outcomes : list outcome;
  calls : list call;
  toasts : list toast
}.
Arguments page_local {J} _.
Arguments page_session {J} _.
Arguments jar {J} _.
Arguments inspectorState {J} _.
Arguments theme {J} _.
Arguments now {J} _.
Arguments outcomes {J} _.
Arguments calls {J} _.
Arguments toasts {J} _.

(** The state the asynchronous methods run in. *)
Record State (J : Type) := {
  this : Inspector;
  chrome : Browser J
}.
Arguments this {J} _.
Arguments chrome {J} _.

(** ** The page's storage, as the injected functions see it *)

(** [storage.getItem(key)] *)
Definition storage_getItem (key : jsstring) (storage : jsobject jsstring)
  : option jsstring := obj_get key storage.

(** [storage.setItem(k, v)]: an existing key keeps its place. *)
Fixpoint storage_setItem (k v : jsstring) (storage : jsobject jsstring)
  : jsobject jsstring :=
  match storage with
  | [] => [(k, v)]
  | (k', v') :: s' =>
      if decide (k = k') then (k, v) :: s' else (k', v') :: storage_setItem k v s'
  end.

(** [storage.removeItem(k)] *)
Definition storage_removeItem (k : jsstring) (storage : jsobject jsstring)
  : jsobject jsstring := obj_delete k storage.

(** The function [loadWebStorage] injects (lines 280-288): for each index
    [i], [data[storage.key(i)] = storage.getItem(storage.key(i))], an
    assignment to the object [{}]. *)
Definition read_storage (storage : jsobject jsstring) : jsobject jsstring :=
  fold_left
    (fun data key =>
       match storage_getItem key storage with
       | Some v => obj_assign key v data
       | None => data
       end)
    (Object_keys storage) [].

(** ** The mirror, addressed as [this.data[type]] *)

Definition data_get (type : jsstring) (d : Data) : option (jsobject jsstring) :=
  match kind_of type with
  | Some KLocal => Some (localStorage d)
  | Some KSession => Some (sessionStorage d)
  | None => None
  end.

Definition data_set (type : jsstring) (o : jsobject jsstring) (d : Data) : Data :=
  match kind_of type with
  | Some KLocal =>
      {| localStorage := o; sessionStorage := sessionStorage d; cookies := cookies d |}
  | Some KSession =>
      {| localStorage := localStorage d; sessionStorage := o; cookies := cookies d |}
  | None => d
  end.

Definition data_set_cookies (cs : list Cookie.t) (d : Data) : Data :=
  {| localStorage := localStorage d; sessionStorage := sessionStorage d; cookies := cs |}.

Definition set_data (f : Data -> Data) (i : Inspector) : Inspector :=
  {| currentTab := currentTab i; currentUrl := currentUrl i; data := f (data i);
     editingItem := editingItem i; searchQuery := searchQuery i |}.

Definition set_editingItem (e : option jsstring) (i : Inspector) : Inspector :=
  {| currentTab := currentTab i; currentUrl := currentUrl i; data := data i;
     editingItem := e; searchQuery := searchQuery i |}.

Section Methods.
Context {J : Type} {CS : CookieStore J}.

Definition page_of (k : kind) (b : Browser J) : jsobject jsstring :=
  match k with
  | KLocal => page_local b
  | KSession => page_session b
  end.

Definition set_page (k : kind) (s : jsobject jsstring) (b : Browser J) : Browser J :=
  match k with
  | KLocal =>
      {| page_local := s; page_session := page_session b; jar := jar b;
     inspectorState := inspectorState b; theme := theme b; now := now b;
         outcomes := outcomes b; calls := calls b; toasts := toasts b |}
  | KSession =>
      {| page_local := page_local b; page_session := s; jar := jar b;
     inspectorState := inspectorState b; theme := theme b; now := now b;
         outcomes := outcomes b; calls := calls b; toasts := toasts b |}
  end.

Definition set_jar (j : J) (b : Browser J) : Browser J :=
  {| page_local := page_local b; page_session := page_session b; jar := j;
     inspectorState := inspectorState b; theme := theme b; now := now b;
     outcomes := outcomes b; calls := calls b; toasts := toasts b |}.

Definition add_toast (t : toast) (b : Browser J) : Browser J :=
  {| page_local := page_local b; page_session := page_session b; jar := jar b;
     inspectorState := inspectorState b; theme := theme b; now := now b;
     outcomes := outcomes b; calls := calls b; toasts := toasts b ++ [t] |}.

(** How the next call settles, and the browser once it is made. *)
Definition next_outcome (b : Browser J) : outcome :=
  match outcomes b with
  | [] => Fulfilled
  | o :: _ => o
  end.

Definition made (c : call) (b : Browser J) : Browser J :=
  {| page_local := page_local b; page_session := page_session b; jar := jar b;
     inspectorState := inspectorState b; theme := theme b; now := now b;
     outcomes := tl (outcomes b); calls := calls b ++ [c]; toasts := toasts b |}.

(** *** Asynchronous methods as state transformers *)

Definition M (A : Type) : Type := State J -> A * State J.

Definition ret {A} (a : A) : M A := fun st => (a, st).

Definition bind {A B} (m : M A) (f : A -> M B) : M B :=
  fun st => let (a, st') := m st in f a st'.

Definition get : M (State J) := fun st => (st, st).

Definition modify_this (f : Inspector -> Inspector) : M unit :=
  fun st => (tt, {| this := f (this st); chrome := chrome st |}).

Definition modify_chrome (f : Browser J -> Browser J) : M unit :=
  fun st => (tt, {| this := this st; chrome := f (chrome st) |}).

End Methods.
Arguments M J A : clear implicits.

Declare Scope js_scope.
Delimit Scope js_scope with js.
Notation "'await' x <- y ; z" := (bind y (fun x => z))
  (at level 20, x name, y at level 100, z at level 200, only parsing) : js_scope.
Notation "y ;; z" := (bind y (fun _ => z))
  (at level 100, z at level 200, only parsing, right associativity) : js_scope.
Local Open Scope js_scope.

(** ** The [chrome] API *)

(** What an awaited call gives back: [Threw] when the promise was rejected,
    otherwise the result, which may be missing. *)
Inductive settled (A : Type) :=
| Threw
| Result (r : option A).
Arguments Threw {A}.
Arguments Result {A} _.

Section Adapters.
Context {J : Type} {CS : CookieStore J}.
Local Abbreviation M := (M J).

(** A call of the API: it is recorded, and it settles as the browser has
    it. *)
Definition chrome_call (c : call) : M outcome :=
  fun st : State J =>
    (next_outcome (chrome st), {| this := this st; chrome := made c (chrome st) |}).

(** [chrome.scripting.executeScript] with the reading function of
    [loadWebStorage]; [results[0]?.result] is what comes back. *)
Definition executeScript_load (type : jsstring) : M (settled (jsobject jsstring)) :=
  await o <- chrome_call (ExecLoad type);
  await st <- get;
  ret match o with
      | Rejected => Threw
      | NoResult => Result None
      | Fulfilled =>
          match kind_of type with
          | Some k => Result (Some (read_storage (page_of k (chrome st))))
          | None => Result None
          end
      end.

(** [chrome.scripting.executeScript] with [window[type].setItem(k, v)]. *)
Definition executeScript_setItem (type key value : jsstring) : M (settled unit) :=
  await o <- chrome_call (ExecSetItem type key value);
  match o with
  | Rejected => ret Threw
  | NoResult => ret (Result None)
  | Fulfilled =>
      match kind_of type with
      | Some k =>
          modify_chrome (fun b => set_page k (storage_setItem key value (page_of k b)) b) ;;
          ret (Result None)
      | None => ret (Result None)
      end
  end.

(** [chrome.scripting.executeScript] with [window[type].removeItem(k)]. *)
Definition executeScript_removeItem (type key : jsstring) : M (settled unit) :=
  await o <- chrome_call (ExecRemoveItem type key);
  match o with
  | Rejected => ret Threw
  | NoResult => ret (Result None)
  | Fulfilled =>
      match kind_of type with
      | Some k =>
          modify_chrome (fun b => set_page k (storage_removeItem key (page_of k b)) b) ;;
          ret (Result None)
      | None => ret (Result None)
      end
  end.

(** [chrome.cookies.getAll({ url })] *)
Definition chrome_cookies_getAll (url : jsstring) : M (settled (list Cookie.t)) :=
  await o <- chrome_call (CookiesGetAll url);
  await st <- get;
  ret match o with
      | Rejected => Threw
      | NoResult => Result None
      | Fulfilled => Result (Some (jar_getAll url (jar (chrome st))))
      end.

(** [chrome.cookies.set(cookie)] *)
Definition chrome_cookies_set (cookie : Details.t) : M (settled unit) :=
  await o <- chrome_call (CookiesSet cookie);
  match o with
  | Rejected => ret Threw
  | NoResult => ret (Result None)
  | Fulfilled =>
      modify_chrome (fun b => set_jar (jar_set cookie (jar b)) b) ;; ret (Result None)
  end.

(** [chrome.cookies.remove({ url, name })] *)
Definition chrome_cookies_remove (url name : jsstring) : M (settled unit) :=
  await o <- chrome_call (CookiesRemove url name);
  match o with
  | Rejected => ret Threw
  | NoResult => ret (Result None)
  | Fulfilled =>
      modify_chrome (fun b => set_jar (jar_remove url name (jar b)) b) ;; ret (Result None)
  end.

(** ** The methods of [StorageInspector] *)

(** [updateCount] and [renderCurrentTab] write to the document only;
    [renderCurrentTab] runs to its end where the tab names a collection
    of the mirror. *)
Definition updateCount (type : jsstring) : M unit := ret tt.

Definition renderCurrentTab : M unit := ret tt.

Definition showToast (message type : jsstring) : M unit :=
  modify_chrome (add_toast (message, type)).

Definition closeModal : M unit := modify_this (set_editingItem None).

(** A [for ... of] loop over [l] that carries a local variable. *)
Fixpoint for_of {A S} (l : list A) (body : A -> S -> M S) (s : S) : M S :=
  match l with
  | [] => ret s
  | x :: l' => await s' <- body x s; for_of l' body s'
  end.

(** [loadWebStorage] after its [await] (lines 292-298). *)
Definition loadWebStorage_resume (type : jsstring)
    (results : settled (jsobject jsstring)) : M unit :=
  modify_this (set_data (data_set type
    match results with
    | Result (Some r) => r
    | Result None => []
    | Threw => []
    end)) ;;
  updateCount type.

Definition loadWebStorage (type : jsstring) : M unit :=
  await results <- executeScript_load type;
  loadWebStorage_resume type results.

(** [loadCookies] after its [await] (lines 304-310). *)
Definition loadCookies_resume (cookies : settled (list Cookie.t)) : M unit :=
  modify_this (set_data (data_set_cookies
    match cookies with
    | Result (Some cs) => cs
    | Result None => []
    | Threw => []
    end)) ;;
  updateCount (str "cookies").

Definition loadCookies_start : M (settled (list Cookie.t)) :=
  await st <- get;
  chrome_cookies_getAll (origin (currentUrl (this st))).

Definition loadCookies : M unit :=
  await cookies <- loadCookies_start;
  loadCookies_resume cookies.

(** The three loads that [loadAllData] starts. *)
Inductive load := LoadLocal | LoadSession | LoadCookies.

(** [loadAllData] with the order in which the three promises settle:
    [Promise.all] starts the three loads, each up to its [await], and the
    rest of each runs when its call settles. *)
Definition loadAllData_in (order : list load) : M unit :=
  await r1 <- executeScript_load (str "localStorage");
  await r2 <- executeScript_load (str "sessionStorage");
  await r3 <- loadCookies_start;
  for_of order
    (fun l _ =>
       match l with
       | LoadLocal => loadWebStorage_resume (str "localStorage") r1
       | LoadSession => loadWebStorage_resume (str "sessionStorage") r2
       | LoadCookies => loadCookies_resume r3
       end) tt ;;
  renderCurrentTab.

Definition loadAllData : M unit :=
  loadAllData_in [LoadLocal; LoadSession; LoadCookies].

(** Lines 325-340. *)
Definition setWebStorageItem (type key value : jsstring) : M bool :=
  await r <- executeScript_setItem type key value;
  match r with
  | Threw => ret false
  | Result _ =>
      await st <- get;
      match data_get type (data (this st)) with
      | Some o =>
          modify_this (set_data (data_set type (obj_assign key value o))) ;;
          updateCount type ;;
          ret true
      | None => ret false
      end
  end.

(** Lines 342-357. *)
Definition removeWebStorageItem (type key : jsstring) : M bool :=
  await r <- executeScript_removeItem type key;
  match r with
  | Threw => ret false
  | Result _ =>
      await st <- get;
      match data_get type (data (this st)) with
      | Some o =>
          modify_this (set_data (data_set type (obj_delete key o))) ;;
          updateCount type ;;
          ret true
      | None => ret false
      end
  end.

(** Lines 359-392. *)
Definition setCookie (data : Cookie.t) : M bool :=
  await st <- get;
  let cookie := setCookie_details (currentUrl (this st)) data in
  await r <- chrome_cookies_set cookie;
  match r with
  | Threw => ret false
  | Result _ => loadCookies ;; ret true
  end.

(** Lines 394-406. *)
Definition removeCookie (name : jsstring) : M bool :=
  await st <- get;
  await r <- chrome_cookies_remove (origin (currentUrl (this st))) name;
  match r with
  | Threw => ret false
  | Result _ => loadCookies ;; ret true
  end.

End Adapters.

(** ** JSON

    [JSON.parse] and [JSON.stringify] as ECMAScript defines them, on the
    values that [JSON.parse] produces. *)

#[local] Unset Elimination Schemes.
Inductive json :=
| JNull
| JBool (b : bool)
| JNumber (x : number)
| JString (s : jsstring)
| JArray (l : list json)
| JObject (o : list (jsstring * json)).
#[local] Set Elimination Schemes.

(** A JSON text written with ['] for the double quote. *)
Definition js (s : string) : jsstring :=
  map (fun c => if c =? "'"%cu then 34 else c) (str s).

(** [typeof v === 'object' && v !== null] *)
Definition is_object (v : json) : bool :=
  match v with
  | JArray _ | JObject _ => true
  | _ => false
  end.

(** *** Decimal numerals *)

Fixpoint uint_units (d : Decimal.uint) : jsstring :=
  match d with
  | Decimal.Nil => []
  | Decimal.D0 d => "0"%cu :: uint_units d
  | Decimal.D1 d => "1"%cu :: uint_units d
  | Decimal.D2 d => "2"%cu :: uint_units d
  | Decimal.D3 d => "3"%cu :: uint_units d
  | Decimal.D4 d => "4"%cu :: uint_units d
  | Decimal.D5 d => "5"%cu :: uint_units d
  | Decimal.D6 d => "6"%cu :: uint_units d
  | Decimal.D7 d => "7"%cu :: uint_units d
  | Decimal.D8 d => "8"%cu :: uint_units d
  | Decimal.D9 d => "9"%cu :: uint_units d
  end.

(** The decimal numeral of a natural number. *)
Definition decimal (n : N) : jsstring := uint_units (N.to_uint n).

(** A digit string without its trailing zeros. *)
Fixpoint strip_trailing_zeros (ds : jsstring) : jsstring :=
  match ds with
  | [] => []
  | c :: r =>
      match strip_trailing_zeros r with
      | [] => if c =? "0"%cu then [] else [c]
      | r' => c :: r'
      end
  end.

(** *** Numbers *)

(** The least magnitude that rounds to an infinite double. *)
Definition double_limit : Z := 2 ^ 1024 - 2 ^ 970.

(** [m * 10^e] is too large for a double. *)
Definition overflows (m : N) (e : Z) : bool :=
  if (0 <=? e)%Z then (double_limit <=? Z.of_N m * 10 ^ e)%Z
  else (double_limit * 10 ^ (- e) <=? Z.of_N m)%Z.

(** [m * 10^e] is too small for a double: at most [2^-1075], half the
    least positive double, it rounds to zero. *)
Definition underflows (m : N) (e : Z) : bool :=
  if (0 <=? e)%Z then false
  else (Z.of_N m * 2 ^ 1075 <=? 10 ^ (- e))%Z.

(** *** Doubles

    A finite number is a double: [JSON.parse] takes the double nearest to
    the value of a literal, and [Number::toString] writes the shortest
    decimal that this double is the nearest to.  The decimal [m * 10^e]
    of a [Finite m e] is that shortest decimal. *)

(** [num / den] rounded to the nearest integer, and to the even one of
    the two when they are as near. *)
Definition round_half_even (num den : Z) : Z :=
  let q := (num / den)%Z in
  let r := (num mod den)%Z in
  if (2 * r <? den)%Z then q
  else if (den <? 2 * r)%Z then (q + 1)%Z
  else if Z.even q then q else (q + 1)%Z.

(** [m * b^e] as a fraction, numerator and denominator. *)
Definition fraction (b m e : Z) : Z * Z :=
  if (0 <=? e)%Z then (m * b ^ e, 1)%Z else (m, b ^ (- e))%Z.

(** The fraction [f] divided by [b^e]. *)
Definition scale_down (b : Z) (f : Z * Z) (e : Z) : Z * Z :=
  if (0 <=? e)%Z then (fst f, snd f * b ^ e)%Z else (fst f * b ^ (- e), snd f)%Z.

(** [f < g] and [f <= g] on fractions with positive denominators. *)
Definition fraction_ltb (f g : Z * Z) : bool := (fst f * snd g <? fst g * snd f)%Z.
Definition fraction_leb (f g : Z * Z) : bool := (fst f * snd g <=? fst g * snd f)%Z.

(** The integer [l] with [2^l <= f < 2^(l+1)], for a positive fraction. *)
Definition floor_log2 (f : Z * Z) : Z :=
  let l := (Z.log2 (fst f) - Z.log2 (snd f))%Z in
  if fraction_leb (fraction 2 1 l) f then l else (l - 1)%Z.

(** The integer [l] with [10^l <= f < 10^(l+1)], for a positive fraction:
    from the number of digits of the integer part of [f], or of [1 / f]
    when [f] is below one. *)
Definition floor_log10 (f : Z * Z) : Z :=
  if fraction_leb (1, 1)%Z f then
    (Z.of_nat (length (decimal (Z.to_N (fst f / snd f)))) - 1)%Z
  else
    let j := (Z.of_nat (length (decimal (Z.to_N (snd f / fst f)))) - 1)%Z in
    if (snd f =? fst f * 10 ^ j)%Z then (- j)%Z else (- j - 1)%Z.

(** The double nearest to a positive fraction, as its significand [M]
    and exponent [E], the double being [M * 2^E]: [M] has 53 bits, or
    fewer with the least exponent, [-1074]. *)
Definition nearest_double (f : Z * Z) : Z * Z :=
  let E := Z.max (floor_log2 f - 52) (-1074) in
  let g := scale_down 2 f E in
  let M := round_half_even (fst g) (snd g) in
  if (M =? 2 ^ 53)%Z then (2 ^ 52, E + 1)%Z else (M, E).

(** The magnitude of the Number value of a decimal: zero, infinite, or a
    double. *)
Inductive double :=
| DZero
| DInfinite
| DFinite (M E : Z).

Definition to_double (m : N) (e : Z) : double :=
  if (m =? 0) || underflows m e then DZero
  else if overflows m e then DInfinite
  else
    let d := nearest_double (fraction 10 (Z.of_N m) e) in
    DFinite (fst d) (snd d).

(** The decimal [s * 10^q] with the trailing zeros of [s] moved to the
    exponent. *)
Definition normalize (s : N) (q : Z) : N * Z :=
  let ds := decimal s in
  let sig := strip_trailing_zeros ds in
  (digits_value 0 sig, (q + Z.of_nat (length ds - length sig))%Z).

(** The two decimals of [k] digits next to the double [M * 2^E], the
    nearer first, and the even one first when they are as near. *)
Definition shortest_candidates (M E : Z) (k : Z) : list (N * Z) :=
  let f := fraction 2 M E in
  let q := (floor_log10 f + 1 - k)%Z in
  let g := scale_down 10 f q in
  let lo := (fst g / snd g)%Z in
  let near := round_half_even (fst g) (snd g) in
  map (fun s => normalize (Z.to_N s) q)
    (if (near =? lo)%Z then [lo; (lo + 1)%Z] else [(lo + 1)%Z; lo]).

Definition rounds_to (M E : Z) (c : N * Z) : bool :=
  match to_double (fst c) (snd c) with
  | DFinite M' E' => (M' =? M)%Z && (E' =? E)%Z
  | _ => false
  end.

(** The decimal that [Number::toString] writes for the double
    [M * 2^E]: of those that the double is the nearest to, one with the
    fewest digits, and of these the nearest to it.  Seventeen digits are
    enough for every double. *)
Definition shortest (M E : Z) : option (N * Z) :=
  find (rounds_to M E)
    (flat_map (fun k => shortest_candidates M E (Z.of_nat k)) (seq 1 17)).

(** The decimal written for the double nearest to [m * 10^e], which is
    neither zero nor infinite; [shortest] has one for every double, and
    the decimal would be left as it is if it had none. *)
Definition round_decimal (m : N) (e : Z) : N * Z :=
  match to_double m e with
  | DFinite M E => default (m, e) (shortest M E)
  | _ => (m, e)
  end.

(** The number a numeric literal denotes: its digits [ds] (integer and
    fraction digits together) times [10^e], negated if [neg], rounded to a
    double. *)
Definition make_number (neg : bool) (ds : jsstring) (e : Z) : number :=
  let sig := strip_trailing_zeros ds in
  let m := digits_value 0 sig in
  let e' := (e + Z.of_nat (length ds - length sig))%Z in
  if (m =? 0) || underflows m e' then (if neg then NegZero else Finite 0 0)
  else if overflows m e' then Infinite neg
  else
    let d := round_decimal m e' in
    Finite (if neg then - Z.of_N (fst d) else Z.of_N (fst d)) (snd d).

(** A finite number, which [JSON.stringify] writes with [Number::toString];
    it writes [null] for the others. *)
Definition is_finite (x : number) : bool :=
  match x with
  | Finite _ _ | NegZero => true
  | Infinite _ | NaN => false
  end.

(** [Number::toString] in radix 10: with [k] digits and [n = e + k], the
    digits followed by zeros, the digits with a point inside, a zero and a
    point before them, or the exponent form. *)
Definition Number_toString (x : number) : jsstring :=
  match x with
  | NaN => str "NaN"
  | Infinite neg => (if neg then str "-" else []) ++ str "Infinity"
  | NegZero => str "0"
  | Finite m e =>
      if (m =? 0)%Z then str "0"
      else
        let digits := decimal (Z.abs_N m) in
        let k := Z.of_nat (length digits) in
        let n := (e + k)%Z in
        (if (m <? 0)%Z then str "-" else []) ++
        (if (k <=? n)%Z && (n <=? 21)%Z then
           digits ++ repeat "0"%cu (Z.to_nat (n - k))
         else if (0 <? n)%Z && (n <=? 21)%Z then
           firstn (Z.to_nat n) digits ++ "."%cu :: skipn (Z.to_nat n) digits
         else if (-6 <? n)%Z && (n <=? 0)%Z then
           str "0." ++ repeat "0"%cu (Z.to_nat (- n)) ++ digits
         else
           let exponent :=
             "e"%cu :: (if (n - 1 <? 0)%Z then "-"%cu else "+"%cu)
                    :: decimal (Z.abs_N (n - 1)) in
           match digits with
           | [] => []
           | [d] => d :: exponent
           | d :: ds => d :: "."%cu :: ds ++ exponent
           end)
  end.

(** *** Serialization *)

(** Four lower-case hexadecimal digits. *)
Definition hex_digit (n : N) : N := if n <? 10 then 48 + n else 87 + n.

Definition hex4 (c : N) : jsstring :=
  [hex_digit (c / 4096 mod 16); hex_digit (c / 256 mod 16);
   hex_digit (c / 16 mod 16); hex_digit (c mod 16)].

Definition is_high_surrogate (c : N) : bool := (55296 <=? c) && (c <=? 56319).
Definition is_low_surrogate (c : N) : bool := (56320 <=? c) && (c <=? 57343).

(** The escape of one code unit that is not half of a surrogate pair. *)
Definition quote_unit (c : N) : jsstring :=
  if c =? 8 then str "\b"
  else if c =? 9 then str "\t"
  else if c =? 10 then str "\n"
  else if c =? 12 then str "\f"
  else if c =? 13 then str "\r"
  else if c =? 34 then [92; 34]
  else if c =? 92 then [92; 92]
  else if (c <? 32) || is_high_surrogate c || is_low_surrogate c
  then 92 :: "u"%cu :: hex4 c
  else [c].

(** The body of [QuoteJSONString]: a surrogate pair is copied, any other
    code unit goes through [quote_unit]. *)
Fixpoint quote_body (s : jsstring) : jsstring :=
  match s with
  | [] => []
  | c :: r =>
      match r with
      | c' :: r' =>
          if is_high_surrogate c && is_low_surrogate c'
          then c :: c' :: quote_body r'
          else quote_unit c ++ quote_body r
      | [] => quote_unit c
      end
  end.

Definition QuoteJSONString (s : jsstring) : jsstring :=
  34 :: quote_body s ++ [34].

Fixpoint join (sep : jsstring) (l : list jsstring) : jsstring :=
  match l with
  | [] => []
  | [x] => x
  | x :: l' => x ++ sep ++ join sep l'
  end.

(** [JSON.stringify(v)], without indentation. *)
Fixpoint JSON_stringify (v : json) : jsstring :=
  match v with
  | JNull => str "null"
  | JBool true => str "true"
  | JBool false => str "false"
  | JNumber x => if is_finite x then Number_toString x else str "null"
  | JString s => QuoteJSONString s
  | JArray l => "["%cu :: join (str ",") (map JSON_stringify l) ++ str "]"
  | JObject o =>
      "{"%cu ::
      join (str ",")
        (map (fun p => QuoteJSONString (fst p) ++ ":"%cu :: JSON_stringify (snd p)) o)
      ++ str "}"
  end.

(** *** Parsing *)

(** JSON white space: tab, line feed, carriage return, space. *)
Definition is_ws (c : N) : bool :=
  (c =? 9) || (c =? 10) || (c =? 13) || (c =? 32).

Fixpoint skip_ws (s : jsstring) : jsstring :=
  match s with
  | c :: r => if is_ws c then skip_ws r else s
  | [] => []
  end.

(** The longest run of digits at the head of [s], and the rest. *)
Fixpoint span_digits (s : jsstring) : jsstring * jsstring :=
  match s with
  | c :: r =>
      if is_digit c then let (ds, r') := span_digits r in (c :: ds, r')
      else ([], s)
  | [] => ([], [])
  end.

(** [s] without the prefix [p], if it starts with it. *)
Fixpoint strip_prefix (p s : jsstring) : option jsstring :=
  match p, s with
  | [], _ => Some s
  | a :: p', b :: s' => if a =? b then strip_prefix p' s' else None
  | _ :: _, [] => None
  end.

Definition hex_value (c : N) : option N :=
  if is_digit c then Some (c - 48)
  else if (97 <=? c) && (c <=? 102) then Some (c - 87)
  else if (65 <=? c) && (c <=? 70) then Some (c - 55)
  else None.

(** The code unit of a single-character escape. *)
Definition escape_unit (c : N) : option N :=
  if c =? 34 then Some 34
  else if c =? 92 then Some 92
  else if c =? "/"%cu then Some "/"%cu
  else if c =? "b"%cu then Some 8
  else if c =? "f"%cu then Some 12
  else if c =? "n"%cu then Some 10
  else if c =? "r"%cu then Some 13
  else if c =? "t"%cu then Some 9
  else None.

(** The characters of a string literal after its opening quote, up to and
    including the closing quote. *)
Fixpoint parse_chars (s : jsstring) : option (jsstring * jsstring) :=
  match s with
  | [] => None
  | c :: r =>
      if c =? 34 then Some ([], r)
      else if c =? 92 then
        match r with
        | [] => None
        | e :: r1 =>
            if e =? "u"%cu then
              match r1 with
              | h1 :: h2 :: h3 :: h4 :: r2 =>
                  a ← hex_value h1; b ← hex_value h2;
                  c ← hex_value h3; d ← hex_value h4;
                  '(cs, rest) ← parse_chars r2;
                  Some (a * 4096 + b * 256 + c * 16 + d :: cs, rest)
              | _ => None
              end
            else
              u ← escape_unit e;
              '(cs, rest) ← parse_chars r1;
              Some (u :: cs, rest)
        end
      else if c <? 32 then None
      else '(cs, rest) ← parse_chars r; Some (c :: cs, rest)
  end.

(** The integer part of a number: a single [0], or a digit other than [0]
    and the digits after it. *)
Definition parse_int (s : jsstring) : option (jsstring * jsstring) :=
  match s with
  | c :: r =>
      if c =? "0"%cu then Some ([c], r)
      else if is_digit c then Some (span_digits s)
      else None
  | [] => None
  end.

(** An optional fraction: a point and at least one digit. *)
Definition parse_frac (s : jsstring) : option (jsstring * jsstring) :=
  match s with
  | c :: r =>
      if c =? "."%cu then
        match span_digits r with
        | ([], _) => None
        | (ds, r') => Some (ds, r')
        end
      else Some ([], s)
  | [] => Some ([], s)
  end.

(** An optional exponent: [e] or [E], an optional sign, at least one
    digit. *)
Definition parse_exp (s : jsstring) : option (Z * jsstring) :=
  match s with
  | c :: r =>
      if (c =? "e"%cu) || (c =? "E"%cu) then
        let (neg, r1) :=
          match r with
          | sg :: r' =>
              if sg =? "-"%cu then (true, r')
              else if sg =? "+"%cu then (false, r')
              else (false, r)
          | [] => (false, r)
          end in
        match span_digits r1 with
        | ([], _) => None
        | (ds, r2) =>
            let x := Z.of_N (digits_value 0 ds) in
            Some (if neg then (- x)%Z else x, r2)
        end
      else Some (0%Z, s)
  | [] => Some (0%Z, s)
  end.

Definition parse_number (s : jsstring) : option (number * jsstring) :=
  let (neg, s1) :=
    match s with
    | c :: r => if c =? "-"%cu then (true, r) else (false, s)
    | [] => (false, s)
    end in
  '(int, s2) ← parse_int s1;
  '(frac, s3) ← parse_frac s2;
  '(ex, s4) ← parse_exp s3;
  Some (make_number neg (int ++ frac) (ex - Z.of_nat (length frac)), s4).

(** The object built from the members of an object literal, in the order
    of the text: a repeated key keeps its place and takes the later
    value. *)
Definition object_of_members (ms : list (jsstring * json)) : list (jsstring * json) :=
  fold_left (fun o p => obj_set (fst p) (snd p) o) ms [].

(** A value at the head of [s], which does not start with white space;
    the elements of an array after its bracket; the members of an object
    after its brace.  [fuel] bounds the depth of the calls. *)
Fixpoint parse_value (fuel : nat) (s : jsstring) {struct fuel}
  : option (json * jsstring) :=
  match fuel with
  | O => None
  | S fuel =>
      match s with
      | [] => None
      | c :: r =>
          if c =? "{"%cu then
            match skip_ws r with
            | c' :: r' =>
                if c' =? "}"%cu then Some (JObject [], r')
                else
                  '(ms, rest) ← parse_members fuel (c' :: r');
                  Some (JObject (object_of_members ms), rest)
            | [] => None
            end
          else if c =? "["%cu then
            match skip_ws r with
            | c' :: r' =>
                if c' =? "]"%cu then Some (JArray [], r')
                else
                  '(vs, rest) ← parse_elements fuel (c' :: r');
                  Some (JArray vs, rest)
            | [] => None
            end
          else if c =? 34 then
            '(cs, rest) ← parse_chars r; Some (JString cs, rest)
          else if c =? "t"%cu then
            rest ← strip_prefix (str "rue") r; Some (JBool true, rest)
          else if c =? "f"%cu then
            rest ← strip_prefix (str "alse") r; Some (JBool false, rest)
          else if c =? "n"%cu then
            rest ← strip_prefix (str "ull") r; Some (JNull, rest)
          else
            '(x, rest) ← parse_number s; Some (JNumber x, rest)
      end
  end
with parse_elements (fuel : nat) (s : jsstring) {struct fuel}
  : option (list json * jsstring) :=
  match fuel with
  | O => None
  | S fuel =>
      '(v, r) ← parse_value fuel s;
      match skip_ws r with
      | c :: r' =>
          if c =? ","%cu then
            '(vs, rest) ← parse_elements fuel (skip_ws r');
            Some (v :: vs, rest)
          else if c =? "]"%cu then Some ([v], r')
          else None
      | [] => None
      end
  end
with parse_members (fuel : nat) (s : jsstring) {struct fuel}
  : option (list (jsstring * json) * jsstring) :=
  match fuel with
  | O => None
  | S fuel =>
      match s with
      | c :: r =>
          if c =? 34 then
            '(k, r1) ← parse_chars r;
            match skip_ws r1 with
            | c1 :: r2 =>
                if c1 =? ":"%cu then
                  '(v, r3) ← parse_value fuel (skip_ws r2);
                  match skip_ws r3 with
                  | c3 :: r4 =>
                      if c3 =? ","%cu then
                        '(ms, rest) ← parse_members fuel (skip_ws r4);
                        Some ((k, v) :: ms, rest)
                      else if c3 =? "}"%cu then Some ([(k, v)], r4)
                      else None
                  | [] => None
                  end
                else None
            | [] => None
            end
          else None
      | [] => None
      end
  end.

(** [JSON.parse(text)]; [None] for the [SyntaxError].  The fuel is more
    than any text needs ([JSON_parse_complete] below). *)
Definition JSON_parse (text : jsstring) : option json :=
  '(v, rest) ← parse_value (S (2 * length text)) (skip_ws text);
  if bool_decide (skip_ws rest = []) then Some v else None.

(** Lines 1078-1086, on a string. *)
Definition isJson (s : jsstring) : bool :=
  match JSON_parse s with
  | Some result => is_object result
  | None => false
  end.

(** *** Serialization with indentation *)

(** [JSON.stringify(v, null, gap)] for a [gap] of spaces, at the current
    [indent] ([SerializeJSONProperty] with [state.gap] and
    [state.indent]): the elements of an array and the members of an
    object that has any go on lines of their own, one [gap] deeper, and a
    space follows the colon of a member.  With the empty [gap] it is
    [JSON_stringify]. *)
Fixpoint JSON_stringify_gap (gap : jsstring) (v : json) (indent : jsstring) {struct v}
  : jsstring :=
  match v with
  | JArray l =>
      let stepback := indent in
      let indent := indent ++ gap in
      let partial := map (fun x => JSON_stringify_gap gap x indent) l in
      match partial, gap with
      | [], _ => str "[]"
      | _, [] => "["%cu :: join (str ",") partial ++ str "]"
      | _, _ =>
          "["%cu :: 10 :: indent ++ join (","%cu :: 10 :: indent) partial
          ++ 10 :: stepback ++ str "]"
      end
  | JObject o =>
      let stepback := indent in
      let indent := indent ++ gap in
      let partial :=
        map (fun p =>
               QuoteJSONString (fst p) ++ ":"%cu ::
               match gap with [] => [] | _ => str " " end ++
               JSON_stringify_gap gap (snd p) indent) o in
      match partial, gap with
      | [], _ => str "{}"
      | _, [] => "{"%cu :: join (str ",") partial ++ str "}"
      | _, _ =>
          "{"%cu :: 10 :: indent ++ join (","%cu :: 10 :: indent) partial
          ++ 10 :: stepback ++ str "}"
      end
  | _ => JSON_stringify v
  end.

(** [JSON.stringify(v, null, 2)] *)
Definition JSON_stringify_2 (v : json) : jsstring :=
  JSON_stringify_gap (str "  ") v [].

(** ** Editing, import and persisted UI state *)

(** White space and line terminators, which [trim] removes. *)
Definition is_trim_space (c : N) : bool :=
  ((9 <=? c) && (c <=? 13)) || (c =? 32) || (c =? 160) || (c =? 5760)
  || ((8192 <=? c) && (c <=? 8202)) || (c =? 8232) || (c =? 8233)
  || (c =? 8239) || (c =? 8287) || (c =? 12288) || (c =? 65279).

Fixpoint trim_start (s : jsstring) : jsstring :=
  match s with
  | c :: r => if is_trim_space c then trim_start r else s
  | [] => []
  end.

(** [s.trim()] *)
Definition trim (s : jsstring) : jsstring :=
  rev (trim_start (rev (trim_start s))).

(** The fields of the edit form that [saveItem] reads. *)
Record EditForm := {
  itemKey : jsstring;
  itemValue : jsstring;
  cookieDomain : jsstring;
  cookiePath : jsstring;
  cookieExpires : jsstring;
  cookieSecure : bool;
  cookieHttpOnly : bool;
  cookieSameSite : jsstring
}.

(** The value [saveItem] passes on (lines 816-821): valid JSON that is an
    object or an array is parsed and serialized again; anything else is
    kept. *)
Definition minify (value : jsstring) : jsstring :=
  if isJson value then
    match JSON_parse value with
    | Some v => JSON_stringify v
    | None => value
    end
  else value.

(** The entries of an import file, after [JSON.parse], for a file of the
    documented format: [None] for a field that is missing. *)
Module ImportData.
Record t := mk {
  localStorage : option (jsobject jsstring);
  sessionStorage : option (jsobject jsstring);
  cookies : option (list Cookie.t)
}.
End ImportData.

Section Application.
Context {J : Type} {CS : CookieStore J}.
Local Abbreviation M := (M J).

(** [new Date(s).getTime() / 1000], the date arithmetic of the platform. *)
Variable epoch_seconds : jsstring -> number.

(** The [cookieData] object of [saveItem] (lines 826-839). *)
Definition cookieData_of (form : EditForm) (key value : jsstring) : Cookie.t :=
  {| Cookie.name := key;
     Cookie.value := value;
     Cookie.domain :=
       if truthy_string (Some (cookieDomain form)) then Some (cookieDomain form)
       else None;
     Cookie.path := Some (or_string (Some (cookiePath form)) (str "/"));
     Cookie.secure := Some (cookieSecure form);
     Cookie.httpOnly := Some (cookieHttpOnly form);
     Cookie.sameSite := Some (cookieSameSite form);
     Cookie.expirationDate :=
       if truthy_string (Some (cookieExpires form))
       then Some (epoch_seconds (cookieExpires form))
       else None |}.

(** Lines 804-853. *)
Definition saveItem (form : EditForm) : M unit :=
  let key := trim (itemKey form) in
  let value := itemValue form in
  if bool_decide (key = []) then
    showToast (str "Key is required") (str "error")
  else
    let value := minify value in
    await st <- get;
    await success <-
      (if bool_decide (currentTab (this st) = str "cookies") then
         setCookie (cookieData_of form key value)
       else setWebStorageItem (currentTab (this st)) key value);
    if success : bool then
      closeModal ;;
      renderCurrentTab ;;
      await st' <- get;
      showToast
        (if truthy_string (editingItem (this st')) then str "Updated" else str "Added")
        (str "success")
    else showToast (str "Failed to save") (str "error").

(** One of the two key-value blocks of [confirmImport] (lines 1005-1015
    for [localStorage], 1018-1028 for [sessionStorage]). *)
Definition import_webStorage (type : jsstring)
    (field : option (jsobject jsstring)) (merge : bool) (count : nat) : M nat :=
  match field with
  | None => ret count
  | Some entries =>
      (if merge then ret tt
       else
         await st <- get;
         for_of (Object_keys (default [] (data_get type (data (this st)))))
           (fun key _ => removeWebStorageItem type key ;; ret tt) tt) ;;
      for_of (Object_entries entries)
        (fun kv count => setWebStorageItem type (fst kv) (snd kv) ;; ret (S count))
        count
  end.

(** The cookie block of [confirmImport] (lines 1031-1041). *)
Definition import_cookies (field : option (list Cookie.t)) (merge : bool)
    (count : nat) : M nat :=
  match field with
  | None => ret count
  | Some entries =>
      (if merge then ret tt
       else
         await st <- get;
         for_of (cookies (data (this st)))
           (fun cookie _ => removeCookie (Cookie.name cookie) ;; ret tt) tt) ;;
      for_of entries (fun cookie count => setCookie cookie ;; ret (S count)) count
  end.

(** [confirmImport] from line 1002 on, with the parsed [importData] and
    the [mergeImport] checkbox. *)
Definition confirmImport (importData : ImportData.t) (merge : bool) : M unit :=
  let count := O in
  await count <-
    import_webStorage (str "localStorage") (ImportData.localStorage importData)
      merge count;
  await count <-
    import_webStorage (str "sessionStorage") (ImportData.sessionStorage importData)
      merge count;
  await count <- import_cookies (ImportData.cookies importData) merge count;
  closeModal ;;
  loadAllData ;;
  showToast (str "Imported " ++ decimal (N.of_nat count) ++ str " items")
    (str "success").

(** [chrome.storage.local.get('inspectorState')]: the stored object, if the
    call gives a result. *)
Definition chrome_storage_get : M (settled SavedState.t) :=
  await o <- chrome_call StorageGet;
  await st <- get;
  ret match o with
      | Rejected => Threw
      | NoResult => Result None
      | Fulfilled => Result (inspectorState (chrome st))
      end.

(** [chrome.storage.local.set({ inspectorState: state })] *)
Definition chrome_storage_set (state : SavedState.t) : M (settled unit) :=
  await o <- chrome_call (StorageSet state);
  match o with
  | Rejected => ret Threw
  | NoResult => ret (Result None)
  | Fulfilled =>
      modify_chrome (fun b =>
        {| page_local := page_local b; page_session := page_session b; jar := jar b;
           inspectorState := Some state; theme := theme b; now := now b;
           outcomes := outcomes b; calls := calls b; toasts := toasts b |}) ;;
      ret (Result None)
  end.

(** Lines 64-78. *)
Definition saveState : M unit :=
  await st <- get;
  let state :=
    {| SavedState.currentTab := Some (currentTab (this st));
       SavedState.searchQuery := Some (searchQuery (this st));
       SavedState.theme := theme (chrome st);
       SavedState.lastSaved := Some (now (chrome st)) |} in
  chrome_storage_set state ;; ret tt.

(** Truthiness of a number-or-undefined timestamp. *)
Definition truthy_time (t : option Z) : bool :=
  match t with
  | Some n => negb (n =? 0)%Z
  | None => false
  end.

(** The test of lines 85-88: there is a state with a truthy [lastSaved]
    later than one hour before [now]. *)
Definition fresh (now : Z) (state : SavedState.t) : bool :=
  truthy_time (SavedState.lastSaved state)
  && (now - 60 * 60 * 1000 <? default 0%Z (SavedState.lastSaved state))%Z.

(** Lines 89-102: what a fresh state sets. *)
Definition apply_state (state : SavedState.t) (st : State J) : State J :=
  {| this :=
       {| currentTab := or_string (SavedState.currentTab state) (str "localStorage");
          currentUrl := currentUrl (this st);
          data := data (this st);
          editingItem := editingItem (this st);
          searchQuery := or_string (SavedState.searchQuery state) [] |};
     chrome :=
       let b := chrome st in
       {| page_local := page_local b; page_session := page_session b; jar := jar b;
          inspectorState := inspectorState b;
          theme :=
            if truthy_string (SavedState.theme state) then SavedState.theme state
            else theme b;
          now := now b;
          outcomes := outcomes b; calls := calls b; toasts := toasts b |} |}.

(** Lines 80-113. *)
Definition restoreState : M unit :=
  await result <- chrome_storage_get;
  match result with
  | Result (Some state) =>
      await st <- get;
      if fresh (now (chrome st)) state then fun st => (tt, apply_state state st)
      else ret tt
  | Result None => ret tt
  | Threw => ret tt
  end.

End Application.

(** ** Sample data *)

(** A cookie store for the examples: it keeps the writes, one cookie per
    name, and lists them with every attribute present. *)
#[export] Instance sample_store : CookieStore (list Details.t) := {|
  jar_getAll _ j :=
    map (fun d =>
      {| Cookie.name := Details.name d; Cookie.value := Details.value d;
         Cookie.domain := Details.domain d; Cookie.path := Some (Details.path d);
         Cookie.secure := Some (Details.secure d);
         Cookie.httpOnly := Some (Details.httpOnly d);
         Cookie.sameSite := Some (Details.sameSite d);
         Cookie.expirationDate := Details.expirationDate d |}) j;
  jar_set d j := filter (fun d' => Details.name d' <> Details.name d) j ++ [d];
  jar_remove _ name j := filter (fun d' => Details.name d' <> name) j
|}.

Definition example_url : Url :=
  {| origin := str "https://example.com"; hostname := str "example.com";
     protocol := str "https:" |}.

(** A cookie with nothing but a name, a value and a domain. *)
Definition bare_cookie (name value : jsstring) (domain : option jsstring) : Cookie.t :=
  {| Cookie.name := name; Cookie.value := value; Cookie.domain := domain;
     Cookie.path := None; Cookie.secure := None; Cookie.httpOnly := None;
     Cookie.sameSite := None; Cookie.expirationDate := None |}.

(** An inspector on [example.com] with the given mirror, in a browser
    whose page has the given stores and whose coming calls settle as
    [os]. *)
Definition sample_state (tab : jsstring) (mirror_local page : jsobject jsstring)
    (os : list outcome) : State (list Details.t) :=
  {| this :=
       {| currentTab := tab; currentUrl := example_url;
          data := {| localStorage := mirror_local; sessionStorage := []; cookies := [] |};
          editingItem := None; searchQuery := [] |};
     chrome :=
       {| page_local := page; page_session := []; jar := [];
          inspectorState := None; theme := Some (str "dark"); now := 1700000000000;
          outcomes := os; calls := []; toasts := [] |} |}.

(** The three observable parts of the UI state. *)
Definition ui_state {J} (st : State J) : jsstring * jsstring * option jsstring :=
  (currentTab (this st), searchQuery (this st), theme (chrome st)).

(** An import file with one [localStorage] entry, [b] set to [2]. *)
Definition import_b2 : ImportData.t :=
  {| ImportData.localStorage := Some [(str "b", str "2")];
     ImportData.sessionStorage := None;
     ImportData.cookies := None |}.

(** A page whose [localStorage] is [{a: 1}], mirrored, with the coming
    calls settling as [os]. *)
Definition page_a1 (os : list outcome) : State (list Details.t) :=
  sample_state (str "localStorage") [(str "a", str "1")] [(str "a", str "1")] os.

(** An edit form for a cookie [sid] with no SameSite choice. *)
Definition lax_form : EditForm :=
  {| itemKey := str " sid "; itemValue := str "abc"; cookieDomain := str "example.com";
     cookiePath := str "/"; cookieExpires := []; cookieSecure := true;
     cookieHttpOnly := false; cookieSameSite := [] |}.

(** A UI state saved ten minutes before the sample clock. *)
Definition saved_ten_minutes_ago : SavedState.t :=
  {| SavedState.currentTab := Some (str "cookies");
     SavedState.searchQuery := Some (str "token");
     SavedState.theme := Some (str "light");
     SavedState.lastSaved := Some (1700000000000 - 10 * 60 * 1000)%Z |}.

(** The popup at startup, with [saved] in the extension's storage. *)
Definition startup_with (saved : SavedState.t) : State (list Details.t) :=
  {| this := this (sample_state (str "localStorage") [] [] []);
     chrome :=
       {| page_local := []; page_session := []; jar := [];
          inspectorState := Some saved; theme := Some (str "dark");
          now := 1700000000000; outcomes := []; calls := []; toasts := [] |} |}.


(** The state and the value a method ends with. *)
Definition exec {J A} (m : M J A) (st : State J) : State J := snd (m st).
Definition eval {J A} (m : M J A) (st : State J) : A := fst (m st).

(** The page after [f] has run on the store named [type], if there is
    one. *)
Definition page_update {J} (type : jsstring)
    (f : jsobject jsstring -> jsobject jsstring) (b : Browser J) : Browser J :=
  match kind_of type with
  | Some k => set_page k (f (page_of k b)) b
  | None => b
  end.

(** The calls that write to a store. *)
Definition is_mutation (c : call) : bool :=
  match c with
  | ExecSetItem _ _ _ | ExecRemoveItem _ _ | CookiesSet _ | CookiesRemove _ _ => true
  | _ => false
  end.

Definition mutations (cs : list call) : list call := List.filter is_mutation cs.

(** Every coming call is fulfilled. *)
Definition all_fulfilled {J} (b : Browser J) : Prop :=
  Forall (fun o => o = Fulfilled) (outcomes b).

(** How the [n]-th coming call settles. *)
Definition nth_outcome {J} (n : nat) (b : Browser J) : outcome :=
  nth n (outcomes b) Fulfilled.

(** A load fails when its call is rejected or comes back without a
    result. *)
Definition load_failed (o : outcome) : bool :=
  match o with
  | Fulfilled => false
  | _ => true
  end.

(** The browser after a call [c] whose work in the browser is [f]: the
    work is done only if the call is fulfilled. *)
Definition after_call {J} (c : call) (f : Browser J -> Browser J) (b : Browser J)
  : Browser J :=
  match next_outcome b with
  | Fulfilled => f (made c b)
  | _ => made c b
  end.

(** The browser after a cookie write [c] and the reload that follows it
    unless it is rejected. *)
Definition after_cookie_call {J} (c : call) (f : Browser J -> Browser J)
    (url : jsstring) (b : Browser J) : Browser J :=
  match next_outcome b with
  | Rejected => made c b
  | _ => made (CookiesGetAll url) (after_call c f b)
  end.

(** The last value a list of entries gives a key. *)
Definition last_entry (k : jsstring) (entries : jsobject jsstring) : option jsstring :=
  obj_get k (rev entries).

(** The number of entries an import file has, over its three fields. *)
Definition attempted (importData : ImportData.t) : nat :=
  length (default [] (ImportData.localStorage importData))
  + length (default [] (ImportData.sessionStorage importData))
  + length (default [] (ImportData.cookies importData)).

(** The browser after the removals of a replacing import of the store
    [type], and after its writes. *)
Definition after_removals {J} (type : jsstring) (keys : list jsstring) (b : Browser J)
  : Browser J :=
  fold_left
    (fun b key =>
       after_call (ExecRemoveItem type key) (page_update type (storage_removeItem key)) b)
    keys b.

Definition after_writes {J} (type : jsstring) (entries : jsobject jsstring)
    (b : Browser J) : Browser J :=
  fold_left
    (fun b kv =>
       after_call (ExecSetItem type (fst kv) (snd kv))
         (page_update type (storage_setItem (fst kv) (snd kv))) b)
    entries b.

(** The writing calls that the import of one key-value field makes, given
    the mirror of that store when it starts. *)
Definition webStorage_calls (type : jsstring) (field : option (jsobject jsstring))
    (merge : bool) (mirror : jsobject jsstring) : list call :=
  match field with
  | None => []
  | Some entries =>
      (if merge then [] else map (ExecRemoveItem type) (Object_keys mirror))
      ++ map (fun kv => ExecSetItem type (fst kv) (snd kv)) entries
  end.

(** The writing calls that the import of the cookie field makes. *)
Definition cookie_calls (currentUrl : Url) (field : option (list Cookie.t))
    (merge : bool) (mirror : list Cookie.t) : list call :=
  match field with
  | None => []
  | Some entries =>
      (if merge then []
       else map (fun c => CookiesRemove (origin currentUrl) (Cookie.name c)) mirror)
      ++ map (fun c => CookiesSet (setCookie_details currentUrl c)) entries
  end.

(** The browser after the cookie removals of a replacing import, and
    after its cookie writes. *)
Definition after_cookie_removals {J} `{CookieStore J} (currentUrl : Url)
    (mirror : list Cookie.t) (b : Browser J) : Browser J :=
  fold_left
    (fun b c =>
       after_cookie_call (CookiesRemove (origin currentUrl) (Cookie.name c))
         (fun b => set_jar (jar_remove (origin currentUrl) (Cookie.name c) (jar b)) b)
         (origin currentUrl) b)
    mirror b.

Definition after_cookie_writes {J} `{CookieStore J} (currentUrl : Url)
    (entries : list Cookie.t) (b : Browser J) : Browser J :=
  fold_left
    (fun b c =>
       after_cookie_call (CookiesSet (setCookie_details currentUrl c))
         (fun b => set_jar (jar_set (setCookie_details currentUrl c) (jar b)) b)
         (origin currentUrl) b)
    entries b.

(** The browser after each block of [confirmImport], given the mirror the
    block starts from, and after all three. *)
Definition after_webStorage {J} (type : jsstring) (field : option (jsobject jsstring))
    (merge : bool) (mirror : jsobject jsstring) (b : Browser J) : Browser J :=
  match field with
  | None => b
  | Some entries =>
      after_writes type entries
        (if merge then b else after_removals type (Object_keys mirror) b)
  end.

Definition after_cookies {J} `{CookieStore J} (currentUrl : Url)
    (field : option (list Cookie.t)) (merge : bool) (mirror : list Cookie.t)
    (b : Browser J) : Browser J :=
  match field with
  | None => b
  | Some entries =>
      after_cookie_writes currentUrl entries
        (if merge then b else after_cookie_removals currentUrl mirror b)
  end.

Definition after_import {J} `{CookieStore J} (i : Inspector)
    (importData : ImportData.t) (merge : bool) (b : Browser J) : Browser J :=
  after_cookies (currentUrl i) (ImportData.cookies importData) merge (cookies (data i))
    (after_webStorage (str "sessionStorage") (ImportData.sessionStorage importData)
       merge (sessionStorage (data i))
       (after_webStorage (str "localStorage") (ImportData.localStorage importData)
          merge (localStorage (data i)) b)).

(** The toast that ends an import. *)
Definition imported_toast (count : nat) : toast :=
  (str "Imported " ++ decimal (N.of_nat count) ++ str " items", str "success").

(** What a key-value write or removal leaves alone in the inspector. *)
Definition same_but_mirror (type : jsstring) (i i' : Inspector) : Prop :=
  currentTab i' = currentTab i
  /\ currentUrl i' = currentUrl i
  /\ editingItem i' = editingItem i
  /\ cookies (data i') = cookies (data i)
  /\ (forall type', kind_of type' <> kind_of type ->
      data_get type' (data i') = data_get type' (data i)).

(** What a cookie write or removal leaves alone in the inspector. *)
Definition same_but_cookies (i i' : Inspector) : Prop :=
  currentTab i' = currentTab i
  /\ currentUrl i' = currentUrl i
  /\ editingItem i' = editingItem i
  /\ localStorage (data i') = localStorage (data i)
  /\ sessionStorage (data i') = sessionStorage (data i).

(** ** Notions used to state the properties of the JSON functions *)

(** The numeral of a string of digits. *)
Fixpoint units_uint (s : jsstring) : Decimal.uint :=
  match s with
  | [] => Decimal.Nil
  | c :: r =>
      match c - 48 with
      | 0 => Decimal.D0 (units_uint r)
      | 1 => Decimal.D1 (units_uint r)
      | 2 => Decimal.D2 (units_uint r)
      | 3 => Decimal.D3 (units_uint r)
      | 4 => Decimal.D4 (units_uint r)
      | 5 => Decimal.D5 (units_uint r)
      | 6 => Decimal.D6 (units_uint r)
      | 7 => Decimal.D7 (units_uint r)
      | 8 => Decimal.D8 (units_uint r)
      | _ => Decimal.D9 (units_uint r)
      end
  end.

(** A digit string without its leading zeros. *)
Fixpoint strip_leading_zeros (ds : jsstring) : jsstring :=
  match ds with
  | c :: r => if c =? "0"%cu then strip_leading_zeros r else ds
  | [] => []
  end.

(** A number as [JSON.parse] makes them: a zero, a double in its
    canonical form, the decimal that is written for it, or an infinity. *)
Inductive canonical : number -> Prop :=
| canonical_zero : canonical (Finite 0 0)
| canonical_negzero : canonical NegZero
| canonical_finite (m e : Z) :
    m <> 0%Z ->
    strip_trailing_zeros (decimal (Z.abs_N m)) = decimal (Z.abs_N m) ->
    underflows (Z.abs_N m) e = false ->
    overflows (Z.abs_N m) e = false ->
    round_decimal (Z.abs_N m) e = (Z.abs_N m, e) ->
    canonical (Finite m e)
| canonical_infinite (neg : bool) : canonical (Infinite neg).

(** Keys in the order an object lists them: no key twice, and no key
    after one it has to come before. *)
Fixpoint ordered (keys : list jsstring) : Prop :=
  match keys with
  | [] => True
  | k :: keys' =>
      Forall (fun k' => k <> k' /\ key_before k' k = false) keys' /\ ordered keys'
  end.

(** A value as [JSON.parse] makes them. *)
#[local] Unset Elimination Schemes.
Inductive wf : json -> Prop :=
| wf_null : wf JNull
| wf_bool (b : bool) : wf (JBool b)
| wf_number (x : number) : canonical x -> wf (JNumber x)
| wf_string (s : jsstring) : wf (JString s)
| wf_array (l : list json) : Forall wf l -> wf (JArray l)
| wf_object (o : list (jsstring * json)) :
    ordered (map fst o) -> Forall (fun p => wf (snd p)) o -> wf (JObject o).
#[local] Set Elimination Schemes.

(** What [JSON.stringify] keeps of a value: a number that is not finite is
    written [null], and the negative zero [0]. *)
Fixpoint serialized (v : json) : json :=
  match v with
  | JNumber (Finite m e) => JNumber (Finite m e)
  | JNumber NegZero => JNumber (Finite 0 0)
  | JNumber _ => JNull
  | JArray l => JArray (map serialized l)
  | JObject o => JObject (map (fun p => (fst p, serialized (snd p))) o)
  | _ => v
  end.

(** [JSON.stringify] loses nothing of the value: every number in it is
    finite, and none is the negative zero. *)
Fixpoint lossless (v : json) : bool :=
  match v with
  | JNumber (Finite _ _) => true
  | JNumber _ => false
  | JArray l => forallb lossless l
  | JObject o => forallb (fun p => lossless (snd p)) o
  | _ => true
  end.

(** What may follow a value in a JSON text: the end, or a comma or a
    closing bracket or brace. *)
Definition terminated (rest : jsstring) : Prop :=
  match rest with
  | [] => True
  | c :: _ => c = ","%cu \/ c = "]"%cu \/ c = "}"%cu
  end.

(** The string does not start with a digit. *)
Definition no_digit_head (rest : jsstring) : Prop :=
  match rest with
  | [] => True
  | c :: _ => is_digit c = false
  end.

(** The string does not go on a numeral: it does not start with a digit,
    a point or an exponent mark. *)
Definition number_end (rest : jsstring) : Prop :=
  no_digit_head rest
  /\ match rest with c :: _ => c <> "."%cu | [] => True end
  /\ match rest with c :: _ => c <> "e"%cu /\ c <> "E"%cu | [] => True end.

(** What may follow a value in a JSON text with white space: the end, a
    comma, a closing bracket or brace, or white space. *)
Definition value_end (rest : jsstring) : Prop :=
  match rest with
  | [] => True
  | c :: _ => c = ","%cu \/ c = "]"%cu \/ c = "}"%cu \/ is_ws c = true
  end.

(** The text of one member of an object. *)
Definition member_text (p : jsstring * json) : jsstring :=
  QuoteJSONString (fst p) ++ ":"%cu :: JSON_stringify (snd p).

(** The code units of a JSON text that are outside its string literals;
    [inside] tells whether the text starts within one. *)
Fixpoint outside_strings (inside : bool) (s : jsstring) : jsstring :=
  match s with
  | [] => []
  | c :: r =>
      if inside then
        if c =? 92 then
          match r with
          | _ :: r' => outside_strings true r'
          | [] => []
          end
        else outside_strings (negb (c =? 34)) r
      else if c =? 34 then outside_strings true r
      else c :: outside_strings false r
  end.

(** A text with no white space outside its string literals. *)
Definition compact (text : jsstring) : Prop :=
  Forall (fun c => is_ws c = false) (outside_strings false text).

(** A code unit that is neither a quote nor white space. *)
Definition is_plain (c : N) : bool := negb (c =? 34) && negb (is_ws c).

(** Induction on a value with the hypothesis for every element of an array
    and every member of an object. *)
Section JsonInduction.
Variable P : json -> Prop.
Hypothesis Hnull : P JNull.
Hypothesis Hbool : forall b, P (JBool b).
Hypothesis Hnumber : forall x, P (JNumber x).
Hypothesis Hstring : forall s, P (JString s).
Hypothesis Harray : forall l, Forall P l -> P (JArray l).
Hypothesis Hobject : forall o, Forall (fun p => P (snd p)) o -> P (JObject o).

Fixpoint json_nested_ind (v : json) : P v :=
  match v with
  | JNull => Hnull
  | JBool b => Hbool b
  | JNumber x => Hnumber x
  | JString s => Hstring s
  | JArray l =>
      Harray l
        ((fix elements (l : list json) : Forall P l :=
            match l with
            | [] => Forall_nil P
            | x :: l' => Forall_cons P x l' (json_nested_ind x) (elements l')
            end) l)
  | JObject o =>
      Hobject o
        ((fix members (o : list (jsstring * json)) : Forall (fun p => P (snd p)) o :=
            match o with
            | [] => Forall_nil _
            | p :: o' =>
                Forall_cons (fun p => P (snd p)) p o' (json_nested_ind (snd p)) (members o')
            end) o)
  end.
End JsonInduction.

(** How a serialized value starts: not with white space, and not with a
    closing bracket or brace. *)
Definition value_head (c : N) : Prop :=
  is_ws c = false /\ c <> "]"%cu /\ c <> "}"%cu.

(** The serialization of [v] is read back as what it keeps of [v], with
    any fuel above twice its length, before any text that may follow a
    value. *)
Definition reads_back (v : json) : Prop :=
  forall (fuel : nat) (rest : jsstring),
    (2 * length (JSON_stringify v) <= fuel)%nat -> terminated rest ->
    parse_value fuel (JSON_stringify v ++ rest) = Some (serialized v, rest).

(** The serialization of [v] with the indentation [gap] is read back as
    what it keeps of [v], with some fuel, at any indentation and before
    any text that may follow a value. *)
Definition reads_back_gap (gap : jsstring) (v : json) : Prop :=
  forall indent rest : jsstring,
    forallb is_ws indent = true -> value_end rest ->
    exists fuel : nat,
      parse_value fuel (JSON_stringify_gap gap v indent ++ rest) = Some (serialized v, rest).

(** ** The rest of the editing dialog, the tabs and the theme *)

(** The text [openEditModal] puts in the value field for a stored value
    (line 795), which is also what [renderStorageItem] displays (line
    446): a value that is JSON is written over several lines. *)
Definition editor_text (value : jsstring) : jsstring :=
  if isJson value then
    match JSON_parse value with
    | Some v => JSON_stringify_2 v
    | None => value
    end
  else value.


Definition set_searchQuery (q : jsstring) (i : Inspector) : Inspector :=
  {| currentTab := currentTab i; currentUrl := currentUrl i; data := data i;
     editingItem := editingItem i; searchQuery := q |}.

Definition set_theme {J} (t : jsstring) (b : Browser J) : Browser J :=
  {| page_local := page_local b; page_session := page_session b; jar := jar b;
     inspectorState := inspectorState b; theme := Some t; now := now b;
     outcomes := outcomes b; calls := calls b; toasts := toasts b |}.

(** *** The controls of the dialog

    The controls are declared in [popup.html], which is not among the
    sources: what the [value] of each control is, once a string has been
    assigned to it, is a parameter of the dialog. *)
Record Controls := {
  key_control : jsstring -> jsstring;
  value_control : jsstring -> jsstring;
  domain_control : jsstring -> jsstring;
  path_control : jsstring -> jsstring;
  expires_control : jsstring -> jsstring;
  sameSite_control : jsstring -> jsstring
}.

(** The [value] of a one-line text [input] after an assignment: HTML
    strips the line feeds and the carriage returns. *)
Definition text_input_value (s : jsstring) : jsstring :=
  List.filter (fun c => negb ((c =? 10) || (c =? 13))) s.

(** The [value] of a [textarea] after an assignment: HTML gives it with
    each carriage return, and the line feed after it if there is one, as
    one line feed. *)
Fixpoint textarea_value (s : jsstring) : jsstring :=
  match s with
  | [] => []
  | c :: r =>
      if c =? 13 then
        10 :: match r with
              | c' :: r' => if c' =? 10 then textarea_value r' else textarea_value r
              | [] => []
              end
      else c :: textarea_value r
  end.

(** A text without carriage return. *)
Definition no_cr (s : jsstring) : Prop := Forall (fun c => c <> 13) s.

(** The [value] of a [select] after an assignment: the string if one of
    the options has it, and the empty string, no option being selected,
    if none has. *)
Definition select_value (options : list jsstring) (s : jsstring) : jsstring :=
  if bool_decide (s ∈ options) then s else [].

Section Dialog.
Context {J : Type} {CS : CookieStore J}.
Local Abbreviation M := (M J).

(** Lines 729-756.  The fields of the form are handed in and back.  The
    cookie fields are set on the cookie tab only.  A field is taken to
    hold the string it is given: these strings have no line break, and a
    [select] without the choice [lax] would hold the empty string, which
    [setCookie] takes for [lax] as well. *)
Definition openAddModal (form : EditForm) : M EditForm :=
  await st <- get;
  let form :=
    if bool_decide (currentTab (this st) = str "cookies") then
      {| itemKey := []; itemValue := [];
         cookieDomain := hostname (currentUrl (this st));
         cookiePath := str "/";
         cookieExpires := [];
         cookieSecure := bool_decide (protocol (currentUrl (this st)) = str "https:");
         cookieHttpOnly := false;
         cookieSameSite := str "lax" |}
    else
      {| itemKey := []; itemValue := [];
         cookieDomain := cookieDomain form; cookiePath := cookiePath form;
         cookieExpires := cookieExpires form; cookieSecure := cookieSecure form;
         cookieHttpOnly := cookieHttpOnly form;
         cookieSameSite := cookieSameSite form |} in
  modify_this (set_editingItem None) ;;
  ret form.

(** [new Date(x * 1000).toISOString().slice(0, 16)], the date arithmetic
    of the platform. *)
Variable expires_text : number -> jsstring.

(** The string of what an object inherits from [Object.prototype] under
    a name, a method or the prototype itself; the platform writes it. *)
Variable inherited_text : jsstring -> jsstring.

(** The string of what [o[k]] reads. *)
Definition property_text (p : property) : jsstring :=
  match p with
  | Own v => v
  | Inherited name => inherited_text name
  | Undefined => str "undefined"
  end.

(** The value [copyValue] writes to the clipboard (lines 871-878): the
    value of the first cookie of that name, or what the mirror has under
    the key, its own or inherited, and the empty string when it has
    nothing or the empty string.  [None] when the tab is none of the
    three collections: the method throws, or reads a property of what
    [this.data] inherits, which is not modelled. *)
Definition copyValue_text (i : Inspector) (key : jsstring) : option jsstring :=
  if bool_decide (currentTab i = str "cookies") then
    Some match find (fun c => bool_decide (Cookie.name c = key)) (cookies (data i)) with
         | Some c => Cookie.value c
         | None => []
         end
  else
    match data_get (currentTab i) (data i) with
    | Some m =>
        Some match obj_lookup key m with
             | Own v => v
             | Inherited name => inherited_text name
             | Undefined => []
             end
    | None => None
    end.

Variable controls : Controls.

(** A form whose fields were assigned the strings of [form], as the
    controls have them. *)
Definition held (form : EditForm) : EditForm :=
  {| itemKey := key_control controls (itemKey form);
     itemValue := value_control controls (itemValue form);
     cookieDomain := domain_control controls (cookieDomain form);
     cookiePath := path_control controls (cookiePath form);
     cookieExpires := expires_control controls (cookieExpires form);
     cookieSecure := cookieSecure form;
     cookieHttpOnly := cookieHttpOnly form;
     cookieSameSite := sameSite_control controls (cookieSameSite form) |}.

(** What [openEditModal] assigns to the fields for a cookie (lines
    772-791). *)
Definition cookie_fields (key : jsstring) (cookie : Cookie.t) : EditForm :=
  {| itemKey := key;
     itemValue := Cookie.value cookie;
     cookieDomain := strip_dot (or_string (Cookie.domain cookie) []);
     cookiePath := or_string (Cookie.path cookie) (str "/");
     cookieExpires :=
       match Cookie.expirationDate cookie with
       | Some x => if truthy_number x then expires_text x else []
       | None => []
       end;
     cookieSecure := or_false (Cookie.secure cookie);
     cookieHttpOnly := or_false (Cookie.httpOnly cookie);
     cookieSameSite := or_string (Cookie.sameSite cookie) (str "lax") |}.

Definition cookie_form (key : jsstring) (cookie : Cookie.t) : EditForm :=
  held (cookie_fields key cookie).

(** Lines 758-802.  The result is the form, each field as its control
    has it, and whether the dialog was opened: it is not when
    [this.data[this.currentTab]] is not there and line 794 throws, the
    key field being set by then.  The value field is given what the mirror
    has under the key: a value of its own, which is written over several
    lines if it is JSON, or the string of what it inherits, or
    [undefined]. *)
Definition openEditModal (form : EditForm) (key : jsstring) : M (EditForm * bool) :=
  await st <- get;
  let form :=
    {| itemKey := key_control controls key; itemValue := itemValue form;
       cookieDomain := cookieDomain form; cookiePath := cookiePath form;
       cookieExpires := cookieExpires form; cookieSecure := cookieSecure form;
       cookieHttpOnly := cookieHttpOnly form;
       cookieSameSite := cookieSameSite form |} in
  if bool_decide (currentTab (this st) = str "cookies") then
    let form :=
      match find (fun c => bool_decide (Cookie.name c = key)) (cookies (data (this st))) with
      | Some cookie => cookie_form key cookie
      | None => form
      end in
    modify_this (set_editingItem (Some key)) ;;
    ret (form, true)
  else
    match data_get (currentTab (this st)) (data (this st)) with
    | Some m =>
        let form :=
          {| itemKey := key_control controls key;
             itemValue :=
               value_control controls
                 match obj_lookup key m with
                 | Own value => editor_text value
                 | p => property_text p
                 end;
             cookieDomain := cookieDomain form; cookiePath := cookiePath form;
             cookieExpires := cookieExpires form; cookieSecure := cookieSecure form;
             cookieHttpOnly := cookieHttpOnly form;
             cookieSameSite := cookieSameSite form |} in
        modify_this (set_editingItem (Some key)) ;;
        ret (form, true)
    | None => ret (form, false)
    end.

(** Lines 855-868, with the answer to the [confirm] dialog. *)
Definition deleteItem (confirmed : bool) (key : jsstring) : M unit :=
  if negb confirmed then ret tt
  else
    await st <- get;
    await success <-
      (if bool_decide (currentTab (this st) = str "cookies") then removeCookie key
       else removeWebStorageItem (currentTab (this st)) key);
    if success : bool then
      renderCurrentTab ;;
      showToast (str "Deleted") (str "success")
    else showToast (str "Failed to delete") (str "error").

(** Whether [renderCurrentTab] runs to its end (lines 416-424): outside
    the cookie tab it takes [Object.entries(this.data[this.currentTab])],
    which throws when [this.data] has nothing under that name, neither of
    its own nor inherited. *)
Definition renders (i : Inspector) : bool :=
  bool_decide
    (currentTab i ∈ [str "localStorage"; str "sessionStorage"; str "cookies"]
                    ++ Object_prototype_names).


(** The [input] listener of the search field (lines 591-596), with the
    text of the field. *)
Definition searchInput_input (value : jsstring) : M unit :=
  modify_this (set_searchQuery value) ;;
  await st <- get;
  if renders (this st) then renderCurrentTab ;; saveState else ret tt.

(** The [click] listener of the clear button (lines 598-604). *)
Definition clearSearch_click : M unit :=
  modify_this (set_searchQuery []) ;;
  await st <- get;
  if renders (this st) then renderCurrentTab ;; saveState else ret tt.

(** Lines 127-130, with the [si-theme] item of the popup's own
    [localStorage]. *)
Definition loadTheme (si_theme : option jsstring) : M unit :=
  modify_chrome (set_theme (or_string si_theme (str "dark"))).

(** Lines 132-138; the result is what it stores under [si-theme]. *)
Definition toggleTheme : M jsstring :=
  await st <- get;
  let current := theme (chrome st) in
  let next :=
    if bool_decide (current = Some (str "dark")) then str "light" else str "dark" in
  modify_chrome (set_theme next) ;;
  saveState ;;
  ret next.

End Dialog.

(** ** Browser tabs, escaping and export *)

(** [s.startsWith(p)] *)
Definition startsWith (p s : jsstring) : bool :=
  match strip_prefix p s with
  | Some _ => true
  | None => false
  end.

(** Lines 225-228, for a string or [undefined] and a length. *)
Definition truncate (s : option jsstring) (len : nat) : jsstring :=
  match s with
  | Some (c :: r) =>
      if (len <? length (c :: r))%nat then firstn len (c :: r) ++ str "..."
      else c :: r
  | _ => []
  end.

(** A tab as [chrome.tabs.query] gives it, the properties that are
    read. *)
Record Tab := {
  tab_id : Z;
  tab_url : option jsstring;
  tab_title : option jsstring
}.

(** The filter of [loadBrowserTabs] (lines 183-189). *)
Definition listed (tab : Tab) : bool :=
  truthy_string (tab_url tab)
  && negb (startsWith (str "chrome://") (default [] (tab_url tab)))
  && negb (startsWith (str "chrome-extension://") (default [] (tab_url tab)))
  && negb (startsWith (str "edge://") (default [] (tab_url tab)))
  && negb (startsWith (str "about:") (default [] (tab_url tab))).

(** [this.browserTabs] after [loadBrowserTabs], from the tabs of the
    browser. *)
Definition browserTabs_of (tabs : list Tab) : list Tab := List.filter listed tabs.

(** The test of [getCurrentTab] on a tab (lines 237 and 241-245). *)
Definition inspectable (tab : Tab) : bool :=
  truthy_string (tab_url tab)
  && negb (startsWith (str "chrome://") (default [] (tab_url tab)))
  && negb (startsWith (str "chrome-extension://") (default [] (tab_url tab))).

(** The tab [getCurrentTab] takes (lines 236-258), from the answers to
    its queries, the active tabs of the window and all the tabs; or the
    message of the error it throws. *)
Definition getCurrentTab_choice (isFullscreen : bool) (active all : list Tab)
  : Tab + jsstring :=
  let fallback :=
    if isFullscreen then
      match find inspectable all with
      | Some validTab => inl validTab
      | None => inr (str "No valid tabs")
      end
    else inr (str "No active tab") in
  match active with
  | tab :: _ => if inspectable tab then inl tab else fallback
  | [] => fallback
  end.

(** The escape of a code unit in the text of an element, as [innerHTML]
    writes it. *)
Definition esc_unit (c : N) : jsstring :=
  if c =? "&"%cu then str "&amp;"
  else if c =? 160 then str "&nbsp;"
  else if c =? "<"%cu then str "&lt;"
  else if c =? ">"%cu then str "&gt;"
  else [c].

(** Lines 1088-1093, on a string: the [innerHTML] of an element whose
    [textContent] is the string. *)
Definition esc (s : jsstring) : jsstring := flat_map esc_unit s.

(** Reading back the four character references that [esc] writes. *)
Fixpoint unesc (s : jsstring) : jsstring :=
  match s with
  | [] => []
  | c :: r =>
      match r with
      | c1 :: c2 :: c3 :: r3 =>
          if (c =? "&"%cu) && (c1 =? "l"%cu) && (c2 =? "t"%cu) && (c3 =? ";"%cu)
          then "<"%cu :: unesc r3
          else if (c =? "&"%cu) && (c1 =? "g"%cu) && (c2 =? "t"%cu) && (c3 =? ";"%cu)
          then ">"%cu :: unesc r3
          else
            match r3 with
            | c4 :: r4 =>
                if (c =? "&"%cu) && (c1 =? "a"%cu) && (c2 =? "m"%cu) && (c3 =? "p"%cu)
                   && (c4 =? ";"%cu)
                then "&"%cu :: unesc r4
                else
                  match r4 with
                  | c5 :: r5 =>
                      if (c =? "&"%cu) && (c1 =? "n"%cu) && (c2 =? "b"%cu)
                         && (c3 =? "s"%cu) && (c4 =? "p"%cu) && (c5 =? ";"%cu)
                      then 160 :: unesc r5
                      else c :: unesc r
                  | [] => c :: unesc r
                  end
            | [] => c :: unesc r
            end
      | _ => c :: unesc r
      end
  end.

(** The cookie [getExportData] writes for a mirrored cookie (lines
    926-941). *)
Definition export_cookie (c : Cookie.t) : Cookie.t :=
  {| Cookie.name := Cookie.name c;
     Cookie.value := Cookie.value c;
     Cookie.domain :=
       if truthy_string (Cookie.domain c)
       then Some (strip_dot (default [] (Cookie.domain c)))
       else None;
     Cookie.path := Cookie.path c;
     Cookie.secure := Cookie.secure c;
     Cookie.httpOnly := Cookie.httpOnly c;
     Cookie.sameSite := Cookie.sameSite c;
     Cookie.expirationDate := Cookie.expirationDate c |}.

(** The object [getExportData] returns; a collection whose box is not
    checked is missing. *)
Module ExportData.
Record t := mk {
  exportedAt : jsstring;
  domain : jsstring;
  localStorage : option (jsobject jsstring);
  sessionStorage : option (jsobject jsstring);
  cookies : option (list Cookie.t)
}.
End ExportData.

(** Lines 910-945, with the time stamp [new Date().toISOString()] and the
    three check boxes. *)
Definition getExportData (exportedAt : jsstring)
    (exportLocalStorage exportSessionStorage exportCookies : bool) (i : Inspector)
  : ExportData.t :=
  {| ExportData.exportedAt := exportedAt;
     ExportData.domain := hostname (currentUrl i);
     ExportData.localStorage :=
       if exportLocalStorage then Some (localStorage (data i)) else None;
     ExportData.sessionStorage :=
       if exportSessionStorage then Some (sessionStorage (data i)) else None;
     ExportData.cookies :=
       if exportCookies then Some (map export_cookie (cookies (data i))) else None |}.

(** ** The text of an export and of an import *)

(** A property of the exported object that is there unless its value is
    [undefined], which [JSON.stringify] leaves out. *)
Definition member {A} (name : string) (f : A -> json) (x : option A)
  : list (jsstring * json) :=
  match x with
  | Some a => [(str name, f a)]
  | None => []
  end.

(** An exported cookie as [JSON.stringify] sees it: the properties of the
    object literal of lines 927-935 in their order, then [domain]. *)
Definition json_of_cookie (c : Cookie.t) : json :=
  JObject
    ([(str "name", JString (Cookie.name c)); (str "value", JString (Cookie.value c))]
     ++ member "path" JString (Cookie.path c)
     ++ member "secure" JBool (Cookie.secure c)
     ++ member "httpOnly" JBool (Cookie.httpOnly c)
     ++ member "sameSite" JString (Cookie.sameSite c)
     ++ member "expirationDate" JNumber (Cookie.expirationDate c)
     ++ member "domain" JString (Cookie.domain c)).

(** A mirrored store as [JSON.stringify] sees it. *)
Definition json_of_entries (o : jsobject jsstring) : json :=
  JObject (map (fun p => (fst p, JString (snd p))) o).

(** The object of [getExportData] as [JSON.stringify] sees it. *)
Definition json_of_export (e : ExportData.t) : json :=
  JObject
    ([(str "exportedAt", JString (ExportData.exportedAt e));
      (str "domain", JString (ExportData.domain e))]
     ++ member "localStorage" json_of_entries (ExportData.localStorage e)
     ++ member "sessionStorage" json_of_entries (ExportData.sessionStorage e)
     ++ member "cookies" (fun cs => JArray (map json_of_cookie cs)) (ExportData.cookies e)).

(** The text of an export, [JSON.stringify(data, null, 2)] (lines 907, 949
    and 958). *)
Definition export_text (e : ExportData.t) : jsstring :=
  JSON_stringify_2 (json_of_export e).

(** [v[name]] for a parsed value other than [null] and a name that is no
    property of arrays and strings: the own property of an object, and
    [undefined] for anything else. *)
Definition json_get (name : jsstring) (v : json) : option json :=
  match v with
  | JObject o => obj_get name o
  | _ => None
  end.

(** Truthiness of a parsed value. *)
Definition json_truthy (v : json) : bool :=
  match v with
  | JNull => false
  | JBool b => b
  | JNumber x => truthy_number x
  | JString s => truthy_string (Some s)
  | JArray _ | JObject _ => true
  end.

(** Reading a parsed file as the typed import data.  The result is
    [None] for a value that the typed model does not cover: a property of
    another type than the documented format has.  A property that may be
    missing is read as missing when it is [null], which the code treats as
    it treats [undefined]. *)
Definition read_string (v : option json) : option (option jsstring) :=
  match v with
  | None | Some JNull => Some None
  | Some (JString s) => Some (Some s)
  | Some _ => None
  end.

Definition read_bool (v : option json) : option (option bool) :=
  match v with
  | None | Some JNull => Some None
  | Some (JBool b) => Some (Some b)
  | Some _ => None
  end.

Definition read_number (v : option json) : option (option number) :=
  match v with
  | None | Some JNull => Some None
  | Some (JNumber x) => Some (Some x)
  | Some _ => None
  end.

Definition read_required (v : option json) : option jsstring :=
  match v with
  | Some (JString s) => Some s
  | _ => None
  end.

Definition cookie_of_json (v : json) : option Cookie.t :=
  match v with
  | JObject o =>
      name ← read_required (obj_get (str "name") o);
      value ← read_required (obj_get (str "value") o);
      domain ← read_string (obj_get (str "domain") o);
      path ← read_string (obj_get (str "path") o);
      secure ← read_bool (obj_get (str "secure") o);
      httpOnly ← read_bool (obj_get (str "httpOnly") o);
      sameSite ← read_string (obj_get (str "sameSite") o);
      expirationDate ← read_number (obj_get (str "expirationDate") o);
      Some {| Cookie.name := name; Cookie.value := value; Cookie.domain := domain;
              Cookie.path := path; Cookie.secure := secure;
              Cookie.httpOnly := httpOnly; Cookie.sameSite := sameSite;
              Cookie.expirationDate := expirationDate |}
  | _ => None
  end.

Fixpoint read_cookies (l : list json) : option (list Cookie.t) :=
  match l with
  | [] => Some []
  | v :: l' => c ← cookie_of_json v; cs ← read_cookies l'; Some (c :: cs)
  end.

(** [Object.entries] of an object whose values are strings. *)
Fixpoint read_entries (o : list (jsstring * json)) : option (jsobject jsstring) :=
  match o with
  | [] => Some []
  | (k, JString s) :: o' => es ← read_entries o'; Some ((k, s) :: es)
  | _ => None
  end.

(** [importData.localStorage] or [sessionStorage], tested at lines 1005
    and 1018: an object is imported, a value that is missing or falsy is
    not. *)
Definition read_storage_field (v : option json) : option (option (jsobject jsstring)) :=
  match v with
  | None => Some None
  | Some (JObject o) => es ← read_entries o; Some (Some es)
  | Some x => if json_truthy x then None else Some None
  end.

(** [importData.cookies], tested at line 1031: an array is imported,
    nothing else is. *)
Definition read_cookies_field (v : option json) : option (option (list Cookie.t)) :=
  match v with
  | Some (JArray l) => cs ← read_cookies l; Some (Some cs)
  | _ => Some None
  end.

(** The import data of a parsed file; [None] also for [null], on which
    line 1005 throws. *)
Definition importData_of (v : json) : option ImportData.t :=
  match v with
  | JNull => None
  | _ =>
      l ← read_storage_field (json_get (str "localStorage") v);
      s ← read_storage_field (json_get (str "sessionStorage") v);
      c ← read_cookies_field (json_get (str "cookies") v);
      Some {| ImportData.localStorage := l; ImportData.sessionStorage := s;
              ImportData.cookies := c |}
  end.

Section ImportText.
Context {J : Type} {CS : CookieStore J}.

(** Lines 985-1046 with the text of the import field and the [mergeImport]
    check box; [None] for a file outside the documented format, which is
    not modelled. *)
Definition confirmImport_text (text : jsstring) (merge : bool) : option (M J unit) :=
  let text := trim text in
  if bool_decide (text = []) then
    Some (showToast (str "No data to import") (str "error"))
  else
    match JSON_parse text with
    | None => Some (showToast (str "Invalid JSON") (str "error"))
    | Some importData =>
        d ← importData_of importData; Some (confirmImport d merge)
    end.

End ImportText.

(** A number that [JSON.stringify] writes and [JSON.parse] reads back as
    it is. *)
Definition plain_number (x : number) : Prop :=
  canonical x /\ exists m e, x = Finite m e.

(** What an export holds is what an import of its text takes. *)
Definition import_of_export (e : ExportData.t) : ImportData.t :=
  {| ImportData.localStorage := ExportData.localStorage e;
     ImportData.sessionStorage := ExportData.sessionStorage e;
     ImportData.cookies := ExportData.cookies e |}.

(** ** More sample data *)

(** The form once the user has typed a key and a value. *)
Definition typed (key value : jsstring) (form : EditForm) : EditForm :=
  {| itemKey := key; itemValue := value;
     cookieDomain := cookieDomain form; cookiePath := cookiePath form;
     cookieExpires := cookieExpires form; cookieSecure := cookieSecure form;
     cookieHttpOnly := cookieHttpOnly form; cookieSameSite := cookieSameSite form |}.

(** An empty form. *)
Definition blank_form : EditForm :=
  {| itemKey := []; itemValue := []; cookieDomain := []; cookiePath := [];
     cookieExpires := []; cookieSecure := false; cookieHttpOnly := false;
     cookieSameSite := [] |}.

(** The mirror of a key-value store. *)
Definition mirror_of (k : kind) (d : Data) : jsobject jsstring :=
  match k with
  | KLocal => localStorage d
  | KSession => sessionStorage d
  end.

(** A tab on a blank page. *)
Definition about_blank : Tab :=
  {| tab_id := 7; tab_url := Some (str "about:blank"); tab_title := None |}.

(** The browser when the popup is opened again [dt] milliseconds later: a
    new document, whose theme is [th], and the coming calls settling as
    [os]. *)
Definition reopened {J} (dt : Z) (os : list outcome) (th : option jsstring)
    (b : Browser J) : Browser J :=
  {| page_local := page_local b; page_session := page_session b; jar := jar b;
     inspectorState := inspectorState b; theme := th; now := (now b + dt)%Z;
     outcomes := os; calls := calls b; toasts := toasts b |}.

(** A page whose [localStorage] holds a JSON value under [cfg], mirrored,
    shown on the [localStorage] tab. *)
Definition page_cfg : State (list Details.t) :=
  sample_state (str "localStorage") [(str "cfg", js "{'b':[1,2]}")]
    [(str "cfg", js "{'b':[1,2]}")] [].

(** An inspector on [example.com] whose mirror has one [localStorage]
    entry and one cookie, which expires and is set for the domain. *)
Definition inspector_sid : Inspector :=
  {| currentTab := str "cookies"; currentUrl := example_url;
     data :=
       {| localStorage := [(str "a", str "1")]; sessionStorage := [];
          cookies :=
            [{| Cookie.name := str "sid"; Cookie.value := str "x y";
                Cookie.domain := Some (str ".example.com");
                Cookie.path := Some (str "/"); Cookie.secure := Some true;
                Cookie.httpOnly := Some false; Cookie.sameSite := Some (str "lax");
                Cookie.expirationDate := Some (Finite 17 8) |}] |};
     editingItem := None; searchQuery := [] |}.

(** That inspector, in a browser whose page has the entry. *)
Definition state_sid : State (list Details.t) :=
  {| this := inspector_sid; chrome := chrome (page_a1 []) |}.

(** *** The platform of the examples

    Chrome, with the clock of the popup in the UTC time zone. *)

(** The string of what an object inherits from [Object.prototype] under
    a name. *)
Definition chrome_inherited_text (name : jsstring) : jsstring :=
  if decide (name = str "__proto__") then str "[object Object]"
  else
    str "function "
    ++ (if decide (name = str "constructor") then str "Object" else name)
    ++ str "() { [native code] }".

(** The year, the month and the day of a day counted from 1970-01-01. *)
Definition civil_from_days (days : Z) : Z * Z * Z :=
  let z := (days + 719468)%Z in
  let era := (z / 146097)%Z in
  let doe := (z - era * 146097)%Z in
  let yoe := ((doe - doe / 1460 + doe / 36524 - doe / 146096) / 365)%Z in
  let doy := (doe - (365 * yoe + yoe / 4 - yoe / 100))%Z in
  let mp := ((5 * doy + 2) / 153)%Z in
  let d := (doy - (153 * mp + 2) / 5 + 1)%Z in
  let m := (if mp <? 10 then mp + 3 else mp - 9)%Z in
  ((yoe + era * 400 + (if m <=? 2 then 1 else 0))%Z, m, d).

(** The day, counted from 1970-01-01, of a year, a month and a day. *)
Definition days_from_civil (y m d : Z) : Z :=
  let y := (if m <=? 2 then y - 1 else y)%Z in
  let era := (y / 400)%Z in
  let yoe := (y - era * 400)%Z in
  let doy := ((153 * (if 2 <? m then m - 3 else m + 9) + 2) / 5 + d - 1)%Z in
  let doe := (yoe * 365 + yoe / 4 - yoe / 100 + doy)%Z in
  (era * 146097 + doe - 719468)%Z.

(** A number below [10^n] in [n] digits. *)
Definition padded (n : nat) (x : Z) : jsstring :=
  let ds := decimal (Z.to_N x) in
  repeat "0"%cu (n - length ds) ++ ds.

(** [new Date(x * 1000).toISOString().slice(0, 16)] for a time within the
    years 0 to 9999; the empty string stands for the others, which the
    examples do not use. *)
Definition utc_expires_text (x : number) : jsstring :=
  match x with
  | Finite m e =>
      let ms :=
        (if 0 <=? e + 3 then m * 10 ^ (e + 3) else Z.quot m (10 ^ (- (e + 3))))%Z in
      let minutes := (ms / 60000)%Z in
      let '(y, mo, d) := civil_from_days (minutes / 1440) in
      if ((0 <=? y) && (y <=? 9999))%Z then
        padded 4 y ++ str "-" ++ padded 2 mo ++ str "-" ++ padded 2 d ++ str "T"
        ++ padded 2 (minutes mod 1440 / 60) ++ str ":" ++ padded 2 (minutes mod 60)
      else []
  | _ => []
  end.

(** A whole number as a number. *)
Definition number_of_Z (z : Z) : number :=
  if (z =? 0)%Z then Finite 0 0
  else
    let d := normalize (Z.abs_N z) 0 in
    Finite (if (z <? 0)%Z then - Z.of_N (fst d) else Z.of_N (fst d)) (snd d).

(** The minute, counted from 1970-01-01T00:00, that a text of the form
    [YYYY-MM-DDTHH:mm] names. *)
Definition local_minute (s : jsstring) : option Z :=
  match s with
  | [y1; y2; y3; y4; a; m1; m2; b; d1; d2; t; h1; h2; c; n1; n2] =>
      let y := Z.of_N (digits_value 0 [y1; y2; y3; y4]) in
      let mo := Z.of_N (digits_value 0 [m1; m2]) in
      let d := Z.of_N (digits_value 0 [d1; d2]) in
      let h := Z.of_N (digits_value 0 [h1; h2]) in
      let n := Z.of_N (digits_value 0 [n1; n2]) in
      let days := days_from_civil y mo d in
      if forallb is_digit [y1; y2; y3; y4; m1; m2; d1; d2; h1; h2; n1; n2]
         && (a =? "-"%cu) && (b =? "-"%cu) && (t =? "T"%cu) && (c =? ":"%cu)
         && bool_decide (civil_from_days days = (y, mo, d))
         && (h <? 24)%Z && (n <? 60)%Z
      then Some (days * 1440 + h * 60 + n)%Z
      else None
  | _ => None
  end.

(** [new Date(s).getTime() / 1000] for the text of a date field,
    [YYYY-MM-DDTHH:mm], read in the UTC time zone; [NaN] stands for any
    other text. *)
Definition utc_epoch_seconds (s : jsstring) : number :=
  match local_minute s with
  | Some minute => number_of_Z (minute * 60)
  | None => NaN
  end.

(** The [value] of a [datetime-local] input after an assignment: the text
    if it is a date and a time to the minute, of a year from 1 on, and
    the empty string if it is not; the longer forms, with seconds, are
    not assigned by the dialog. *)
Definition datetime_local_value (s : jsstring) : jsstring :=
  match local_minute s with
  | Some minute => if (days_from_civil 1 1 1 * 1440 <=? minute)%Z then s else []
  | None => []
  end.

(** A dialog whose key, domain and path are one-line inputs, whose value
    is a [textarea], whose expiry is a [datetime-local] input and whose
    [select] has the three choices of a cookie. *)
Definition plain_controls : Controls :=
  {| key_control := text_input_value;
     value_control := textarea_value;
     domain_control := text_input_value;
     path_control := text_input_value;
     expires_control := datetime_local_value;
     sameSite_control :=
       select_value [str "no_restriction"; str "lax"; str "strict"] |}.

(** * Properties *)

(** ** Objects and page storage *)

Lemma obj_get_set {V} (k k' : jsstring) (v : V) (o : jsobject V) :
  obj_get k' (obj_set k v o) = if decide (k' = k) then Some v else obj_get k' o.
Proof.
  induction o as [|[k0 v0] o IH]; simpl.
  - repeat case_decide; congruence.
  - destruct (decide (k = k0)) as [->|Hne]; simpl.
    + repeat case_decide; congruence.
    + destruct (key_before k k0); simpl.
      * repeat case_decide; congruence.
      * rewrite IH. repeat case_decide; congruence.
Qed.

Lemma obj_get_delete {V} (k k' : jsstring) (o : jsobject V) :
  obj_get k' (obj_delete k o) = if decide (k' = k) then None else obj_get k' o.
Proof.
  unfold obj_delete. induction o as [|[k0 v0] o IH].
  - simpl. case_decide; reflexivity.
  - rewrite filter_cons. cbn [fst]. destruct (decide (k <> k0)) as [Hne|Heq].
    + cbn [obj_get]. rewrite IH. repeat case_decide; congruence.
    + apply dec_stable in Heq. subst k0. rewrite IH. cbn [obj_get].
      repeat case_decide; congruence.
Qed.

Lemma obj_get_None_keys {V} (k : jsstring) (o : jsobject V) :
  obj_get k o = None <-> k ∉ Object_keys o.
Proof.
  induction o as [|[k0 v0] o IH]; simpl.
  - split; [intros _; apply not_elem_of_nil | done].
  - rewrite not_elem_of_cons. case_decide; subst.
    + split; [done|]. intros [Hn _]. done.
    + rewrite IH. tauto.
Qed.

Lemma storage_getItem_setItem (k k' v : jsstring) (s : jsobject jsstring) :
  storage_getItem k' (storage_setItem k v s) =
    if decide (k' = k) then Some v else storage_getItem k' s.
Proof.
  unfold storage_getItem. induction s as [|[k0 v0] s IH]; simpl.
  - repeat case_decide; congruence.
  - destruct (decide (k = k0)) as [->|Hne]; simpl.
    + repeat case_decide; congruence.
    + rewrite IH. repeat case_decide; congruence.
Qed.

Lemma storage_getItem_removeItem (k k' : jsstring) (s : jsobject jsstring) :
  storage_getItem k' (storage_removeItem k s) =
    if decide (k' = k) then None else storage_getItem k' s.
Proof. apply obj_get_delete. Qed.

(** An assignment stores the value under the name, except under a
    [__proto__] that is not an own property. *)
Lemma obj_get_assign (k k' v : jsstring) (o : jsobject jsstring) :
  obj_get k' (obj_assign k v o) =
    if decide (k' = k) then
      match obj_get k o with
      | Some _ => Some v
      | None => if decide (k = str "__proto__") then None else Some v
      end
    else obj_get k' o.
Proof.
  unfold obj_assign. destruct (obj_get k o) eqn:E.
  - apply obj_get_set.
  - destruct (decide (k = str "__proto__")) as [->|Hne].
    + case_decide; [by subst|done].
    + apply obj_get_set.
Qed.

(** On an object without an own [__proto__]. *)
Lemma obj_get_assign_plain (k k' v : jsstring) (o : jsobject jsstring) :
  obj_get (str "__proto__") o = None ->
  obj_get k' (obj_assign k v o) =
    if decide (k' = k) then
      if decide (k = str "__proto__") then None else Some v
    else obj_get k' o.
Proof.
  intros Hp. rewrite obj_get_assign. case_decide; [|done]. subst k'.
  destruct (decide (k = str "__proto__")) as [->|Hne]; [by rewrite Hp|].
  by destruct (obj_get k o).
Qed.

Lemma obj_assign_proto (v : jsstring) (o : jsobject jsstring) :
  obj_get (str "__proto__") o = None -> obj_assign (str "__proto__") v o = o.
Proof. intros Hp. unfold obj_assign. rewrite Hp. by rewrite decide_True. Qed.

Lemma obj_assign_other (k v : jsstring) (o : jsobject jsstring) :
  k <> str "__proto__" -> obj_assign k v o = obj_set k v o.
Proof.
  intros Hk. unfold obj_assign. destruct (obj_get k o); [done|].
  by rewrite decide_False.
Qed.

(** What the injected reading function returns has the entries of the
    store, but for the key [__proto__], which it never has. *)
Lemma read_storage_get (k : jsstring) (s : jsobject jsstring) :
  obj_get k (read_storage s) =
    if decide (k = str "__proto__") then None else storage_getItem k s.
Proof.
  unfold read_storage, storage_getItem.
  assert (Hgen : forall (keys : list jsstring) (acc : jsobject jsstring),
    (forall key, key ∈ keys -> obj_get key s <> None) ->
    obj_get (str "__proto__") acc = None ->
    obj_get k
      (fold_left (fun data key =>
         match obj_get key s with
         | Some v => obj_assign key v data
         | None => data
         end) keys acc) =
    if decide (k = str "__proto__") then None
    else if bool_decide (k ∈ keys) then obj_get k s else obj_get k acc).
  { induction keys as [|k0 keys IH]; intros acc Hkeys Hacc; simpl.
    - case_decide; [by subst|done].
    - assert (Hacc' : obj_get (str "__proto__")
                        match obj_get k0 s with
                        | Some v => obj_assign k0 v acc
                        | None => acc
                        end = None).
      { destruct (obj_get k0 s); [|done].
        rewrite obj_get_assign_plain by done. repeat case_decide; congruence. }
      rewrite IH by (try done; intros; apply Hkeys, elem_of_cons; auto).
      destruct (decide (k = str "__proto__")) as [Hp|Hp]; [done|].
      destruct (decide (k = k0)) as [->|Hne].
      + rewrite (bool_decide_eq_true_2 (k0 ∈ k0 :: keys)) by (apply elem_of_cons; auto).
        case_bool_decide; [done|].
        destruct (obj_get k0 s) eqn:E.
        * rewrite obj_get_assign_plain by done. rewrite decide_True by done.
          by rewrite decide_False.
        * exfalso. apply (Hkeys k0); [apply elem_of_cons; auto | done].
      + destruct (decide (k ∈ keys)) as [Hin|Hnin].
        * rewrite !bool_decide_eq_true_2 by (rewrite ?elem_of_cons; auto). done.
        * rewrite !bool_decide_eq_false_2 by (rewrite ?not_elem_of_cons; done).
          destruct (obj_get k0 s); [|done].
          rewrite obj_get_assign_plain by done. by rewrite decide_False. }
  rewrite Hgen; [|by intros key Hin Hnone; apply obj_get_None_keys in Hnone|done].
  case_decide; [done|].
  case_bool_decide as Hin; [done|].
  symmetry. apply obj_get_None_keys. exact Hin.
Qed.

Lemma obj_get_app {V} (k : jsstring) (o1 o2 : jsobject V) :
  obj_get k (o1 ++ o2) =
    match obj_get k o1 with
    | Some v => Some v
    | None => obj_get k o2
    end.
Proof.
  induction o1 as [|[k0 v0] o1 IH]; simpl; [done|].
  destruct (decide (k = k0)); done.
Qed.

(** Writing the entries in order leaves each key with its last value. *)
Lemma storage_getItem_writes (k : jsstring) (entries s : jsobject jsstring) :
  storage_getItem k
    (fold_left (fun s kv => storage_setItem (fst kv) (snd kv) s) entries s) =
    match last_entry k entries with
    | Some v => Some v
    | None => storage_getItem k s
    end.
Proof.
  unfold last_entry. revert s.
  induction entries as [|[k0 v0] entries IH]; intros s; simpl; [done|].
  rewrite IH, obj_get_app, storage_getItem_setItem. simpl.
  destruct (obj_get k (rev entries)); [done|].
  destruct (decide (k = k0)); done.
Qed.

Lemma storage_getItem_removals (k : jsstring) (keys : list jsstring)
    (s : jsobject jsstring) :
  storage_getItem k (fold_left (fun s key => storage_removeItem key s) keys s) =
    if bool_decide (k ∈ keys) then None else storage_getItem k s.
Proof.
  revert s. induction keys as [|k0 keys IH]; intros s; simpl; [done|].
  rewrite IH, storage_getItem_removeItem.
  destruct (decide (k = k0)) as [->|Hne].
  - rewrite (bool_decide_eq_true_2 (k0 ∈ k0 :: keys)) by (apply elem_of_cons; auto).
    by case_bool_decide.
  - destruct (decide (k ∈ keys)).
    + rewrite !bool_decide_eq_true_2 by (rewrite ?elem_of_cons; auto). done.
    + rewrite !bool_decide_eq_false_2 by (rewrite ?not_elem_of_cons; done). done.
Qed.

(** ** The cookie write request *)

Lemma cookie_domain_falsy (currentUrl : Url) (d : option jsstring) :
  truthy_string d = false -> cookie_domain currentUrl d = None.
Proof. unfold cookie_domain. intros ->. reflexivity. Qed.

Lemma cookie_domain_truthy (currentUrl : Url) (d : jsstring) :
  d <> [] ->
  cookie_domain currentUrl (Some d) =
    if decide (strip_dot d = hostname currentUrl) then None else Some (strip_dot d).
Proof.
  intros Hd. unfold cookie_domain. destruct d as [|c d]; [done|]. simpl.
  repeat case_decide; congruence.
Qed.

(** C2, as stated, fails: an empty domain string is supplied and differs
    from the hostname [example.com], yet the write has no domain. *)
Lemma setCookie_domain_empty_string_omitted :
  ~ (forall (currentUrl : Url) (data : Cookie.t) (d : jsstring),
       Cookie.domain data = Some d ->
       (strip_dot d = hostname currentUrl ->
        Details.domain (setCookie_details currentUrl data) = None)
       /\ (strip_dot d <> hostname currentUrl ->
           Details.domain (setCookie_details currentUrl data) = Some (strip_dot d))).
Proof.
  intros H.
  destruct (H example_url (bare_cookie (str "sid") (str "1") (Some [])) [] eq_refl)
    as [_ H2].
  specialize (H2 ltac:(discriminate)). discriminate H2.
Qed.

(** C2, amended: for a supplied non-empty domain, the write omits the
    domain attribute when the domain without one leading dot is the current
    hostname, and carries the domain without that dot otherwise; a missing
    or empty domain is omitted. *)
Theorem setCookie_domain (currentUrl : Url) (data : Cookie.t) :
  (forall d : jsstring,
     Cookie.domain data = Some d -> d <> [] ->
     (strip_dot d = hostname currentUrl ->
      Details.domain (setCookie_details currentUrl data) = None)
     /\ (strip_dot d <> hostname currentUrl ->
         Details.domain (setCookie_details currentUrl data) = Some (strip_dot d)))
  /\ (Cookie.domain data = None \/ Cookie.domain data = Some [] ->
      Details.domain (setCookie_details currentUrl data) = None).
Proof.
  split.
  - intros d Hd Hne. simpl. rewrite Hd, cookie_domain_truthy by done.
    split; intros; case_decide; congruence.
  - intros [H | H]; simpl; rewrite H; reflexivity.
Qed.

Lemma setCookie_domain_witness :
  Details.domain
    (setCookie_details example_url
       (bare_cookie (str "sid") (str "1") (Some (str ".example.com")))) = None
  /\ Details.domain
       (setCookie_details example_url
          (bare_cookie (str "sid") (str "1") (Some (str ".shop.example.com"))))
     = Some (str "shop.example.com").
Proof.
  split.
  - apply (proj1 (setCookie_domain example_url
      (bare_cookie (str "sid") (str "1") (Some (str ".example.com"))))
      (str ".example.com") eq_refl ltac:(discriminate)).
    reflexivity.
  - apply (proj1 (setCookie_domain example_url
      (bare_cookie (str "sid") (str "1") (Some (str ".shop.example.com"))))
      (str ".shop.example.com") eq_refl ltac:(discriminate)).
    discriminate.
Defined.

(** What [saveItem] asks of the cookie store on the cookies tab: one
    [chrome.cookies.set] with the request built from the form, and the
    reload that follows unless the call was rejected. *)
Lemma saveItem_cookie_calls {J} `{CookieStore J} (epoch_seconds : jsstring -> number)
    (form : EditForm) (st : State J) :
  currentTab (this st) = str "cookies" ->
  trim (itemKey form) <> [] ->
  calls (chrome (exec (saveItem epoch_seconds form) st)) =
    calls (chrome st) ++
    CookiesSet
      (setCookie_details (currentUrl (this st))
         (cookieData_of epoch_seconds form (trim (itemKey form)) (minify (itemValue form))))
    :: match next_outcome (chrome st) with
       | Rejected => []
       | _ => [CookiesGetAll (origin (currentUrl (this st)))]
       end.
Proof.
  intros Htab Hkey. unfold exec, saveItem.
  rewrite bool_decide_eq_false_2 by done.
  unfold bind at 1, get. rewrite Htab, bool_decide_eq_true_2 by done.
  destruct st as [i b]. destruct b as [pl ps j ins th nw os cs ts].
  destruct os as [|[] os]; cbn; rewrite <- ?app_assoc; reflexivity.
Qed.

(** C3: the write request takes ["/"] for a missing or empty path, [false]
    for a missing [secure] or [httpOnly], and ["lax"] for a missing (or
    empty) [sameSite], and keeps what is given otherwise; so a cookie saved
    from the edit form with no SameSite choice, HttpOnly unchecked and an
    empty or ["/"] path is written with [sameSite = "lax"],
    [httpOnly = false] and [path = "/"]. *)
Theorem setCookie_defaults {J} `{CookieStore J} (epoch_seconds : jsstring -> number) :
  (forall (currentUrl : Url) (data : Cookie.t),
     let cookie := setCookie_details currentUrl data in
     (Cookie.path data = None \/ Cookie.path data = Some [] ->
      Details.path cookie = str "/")
     /\ (forall p, Cookie.path data = Some p -> p <> [] -> Details.path cookie = p)
     /\ (Cookie.secure data = None -> Details.secure cookie = false)
     /\ (forall b, Cookie.secure data = Some b -> Details.secure cookie = b)
     /\ (Cookie.httpOnly data = None -> Details.httpOnly cookie = false)
     /\ (forall b, Cookie.httpOnly data = Some b -> Details.httpOnly cookie = b)
     /\ (Cookie.sameSite data = None \/ Cookie.sameSite data = Some [] ->
         Details.sameSite cookie = str "lax")
     /\ (forall s, Cookie.sameSite data = Some s -> s <> [] ->
         Details.sameSite cookie = s))
  /\ (forall (form : EditForm) (st : State J),
        currentTab (this st) = str "cookies" ->
        trim (itemKey form) <> [] ->
        cookieSameSite form = [] ->
        cookieHttpOnly form = false ->
        cookiePath form = [] \/ cookiePath form = str "/" ->
        exists cookie rest,
          calls (chrome (exec (saveItem epoch_seconds form) st)) =
            calls (chrome st) ++ CookiesSet cookie :: rest
          /\ Details.sameSite cookie = str "lax"
          /\ Details.httpOnly cookie = false
          /\ Details.path cookie = str "/").
Proof.
  split.
  - intros currentUrl data cookie; subst cookie; simpl.
    repeat split.
    + intros [-> | ->]; reflexivity.
    + intros p -> Hp. destruct p; done.
    + intros ->; reflexivity.
    + intros b ->; reflexivity.
    + intros ->; reflexivity.
    + intros b ->; reflexivity.
    + intros [-> | ->]; reflexivity.
    + intros s -> Hs. destruct s; done.
  - intros form st Htab Hkey Hss Hho Hpath.
    eexists _, _. split; [apply saveItem_cookie_calls; assumption|].
    simpl. rewrite Hss, Hho. repeat split.
    destruct Hpath as [-> | ->]; reflexivity.
Qed.


Lemma setCookie_defaults_witness :
  exists cookie rest,
    calls (chrome (exec (saveItem (fun _ => NaN) lax_form)
                           (sample_state (str "cookies") [] [] []))) =
      [] ++ CookiesSet cookie :: rest
    /\ Details.sameSite cookie = str "lax"
    /\ Details.httpOnly cookie = false
    /\ Details.path cookie = str "/".
Proof.
  apply (proj2 (setCookie_defaults (fun _ => NaN)) lax_form
           (sample_state (str "cookies") [] [] [])).
  - reflexivity.
  - discriminate.
  - reflexivity.
  - reflexivity.
  - right; reflexivity.
Defined.

(** C10: the write request carries [expirationDate] only for a truthy
    number: it has none when the cookie has none, when it is zero (so for
    the epoch itself) and when it is [NaN]; and [saveItem] gives the cookie
    none when the form's date field is empty. *)
Theorem setCookie_expirationDate (epoch_seconds : jsstring -> number) :
  (forall (currentUrl : Url) (data : Cookie.t),
     let cookie := setCookie_details currentUrl data in
     (Cookie.expirationDate data = None -> Details.expirationDate cookie = None)
     /\ (forall x, Cookie.expirationDate data = Some x -> truthy_number x = false ->
         Details.expirationDate cookie = None)
     /\ (forall e, Cookie.expirationDate data = Some (Finite 0 e) ->
         Details.expirationDate cookie = None)
     /\ (forall x, Cookie.expirationDate data = Some x -> truthy_number x = true ->
         Details.expirationDate cookie = Some x))
  /\ (forall (form : EditForm) (currentUrl : Url) (key value : jsstring),
        let cookie :=
          setCookie_details currentUrl (cookieData_of epoch_seconds form key value) in
        (cookieExpires form = [] -> Details.expirationDate cookie = None)
        /\ (cookieExpires form <> [] ->
            Details.expirationDate cookie =
              if truthy_number (epoch_seconds (cookieExpires form))
              then Some (epoch_seconds (cookieExpires form)) else None)).
Proof.
  split.
  - intros currentUrl data cookie; subst cookie; simpl. repeat split.
    + intros ->; reflexivity.
    + intros x -> ->; reflexivity.
    + intros e ->; reflexivity.
    + intros x -> ->; reflexivity.
  - intros form currentUrl key value cookie; subst cookie; simpl. split.
    + intros ->; reflexivity.
    + intros Hne. destruct (cookieExpires form); done.
Qed.

Lemma setCookie_expirationDate_witness :
  Details.expirationDate
    (setCookie_details example_url
       {| Cookie.name := str "sid"; Cookie.value := str "1"; Cookie.domain := None;
          Cookie.path := None; Cookie.secure := None; Cookie.httpOnly := None;
          Cookie.sameSite := None; Cookie.expirationDate := Some (Finite 0 0) |}) = None.
Proof.
  apply (proj1 (proj2 (proj1 (setCookie_expirationDate (fun _ => NaN)) example_url _))
           (Finite 0 0)).
  - reflexivity.
  - reflexivity.
Defined.

(** ** Persisted UI state *)

Section UIState.
Context {J : Type} {CS : CookieStore J}.

(** The state after [restoreState], case by case. *)
Lemma restoreState_exec (st : State J) :
  let st1 := {| this := this st; chrome := made StorageGet (chrome st) |} in
  exec restoreState st =
    match next_outcome (chrome st), inspectorState (chrome st) with
    | Fulfilled, Some state =>
        if fresh (now (chrome st)) state then apply_state state st1 else st1
    | _, _ => st1
    end.
Proof.
  destruct st as [i [pl ps j ins th nw os cs ts]].
  unfold exec, restoreState, chrome_storage_get, chrome_call, bind, get, ret.
  destruct os as [|[] os], ins as [state|]; simpl; try reflexivity;
    destruct (fresh nw state); reflexivity.
Qed.

Lemma fresh_spec (now : Z) (state : SavedState.t) :
  fresh now state = true <->
  exists t, SavedState.lastSaved state = Some t /\ t <> 0%Z
            /\ (now - t < 60 * 60 * 1000)%Z.
Proof.
  unfold fresh, truthy_time. destruct (SavedState.lastSaved state) as [t|]; simpl.
  - rewrite andb_true_iff, negb_true_iff, Z.eqb_neq, Z.ltb_lt. split.
    + intros [? ?]. exists t. repeat split; [done|lia].
    + intros (t' & [= <-] & ? & ?). split; [done|lia].
  - split; [done|]. intros (t & ? & _). done.
Qed.

(** C8: [restoreState] applies the stored state exactly when there is one
    with a (truthy) [lastSaved] less than an hour old, and changes nothing
    of the UI state otherwise: a state saved two hours before is ignored,
    one saved ten minutes before is applied, and its category, search text
    and theme are taken as they are. *)
Theorem restoreState_within_hour (st : State J) :
  next_outcome (chrome st) = Fulfilled ->
  let st' := exec restoreState st in
  let clock := now (chrome st) in
  (forall state t,
     inspectorState (chrome st) = Some state ->
     SavedState.lastSaved state = Some t -> t <> 0%Z ->
     (clock - t < 60 * 60 * 1000)%Z ->
     ui_state st' =
       (or_string (SavedState.currentTab state) (str "localStorage"),
        or_string (SavedState.searchQuery state) [],
        if truthy_string (SavedState.theme state) then SavedState.theme state
        else theme (chrome st)))
  /\ (inspectorState (chrome st) = None -> ui_state st' = ui_state st)
  /\ (forall state,
        inspectorState (chrome st) = Some state ->
        ~ (exists t, SavedState.lastSaved state = Some t /\ t <> 0%Z
                     /\ (clock - t < 60 * 60 * 1000)%Z) ->
        ui_state st' = ui_state st)
  /\ (forall state,
        inspectorState (chrome st) = Some state ->
        SavedState.lastSaved state = Some (clock - 2 * 60 * 60 * 1000)%Z ->
        ui_state st' = ui_state st)
  /\ (forall state tab query th,
        inspectorState (chrome st) = Some state ->
        SavedState.lastSaved state = Some (clock - 10 * 60 * 1000)%Z ->
        (clock - 10 * 60 * 1000 <> 0)%Z ->
        SavedState.currentTab state = Some tab -> tab <> [] ->
        SavedState.searchQuery state = Some query ->
        SavedState.theme state = Some th -> th <> [] ->
        ui_state st' = (tab, query, Some th)).
Proof.
  intros Hok st' clock. subst st' clock. rewrite restoreState_exec, Hok.
  assert (Hold : forall state,
    inspectorState (chrome st) = Some state ->
    fresh (now (chrome st)) state = false ->
    ui_state
      match inspectorState (chrome st) with
      | Some state =>
          if fresh (now (chrome st)) state
          then apply_state state {| this := this st; chrome := made StorageGet (chrome st) |}
          else {| this := this st; chrome := made StorageGet (chrome st) |}
      | None => {| this := this st; chrome := made StorageGet (chrome st) |}
      end = ui_state st).
  { intros state -> ->. reflexivity. }
  assert (Hnew : forall state,
    inspectorState (chrome st) = Some state ->
    fresh (now (chrome st)) state = true ->
    ui_state
      match inspectorState (chrome st) with
      | Some state =>
          if fresh (now (chrome st)) state
          then apply_state state {| this := this st; chrome := made StorageGet (chrome st) |}
          else {| this := this st; chrome := made StorageGet (chrome st) |}
      | None => {| this := this st; chrome := made StorageGet (chrome st) |}
      end =
      (or_string (SavedState.currentTab state) (str "localStorage"),
       or_string (SavedState.searchQuery state) [],
       if truthy_string (SavedState.theme state) then SavedState.theme state
       else theme (chrome st))).
  { intros state -> ->. reflexivity. }
  repeat split.
  - intros state t Hs Ht Hnz Hage. apply (Hnew state); [done|].
    apply fresh_spec. eauto.
  - intros ->. reflexivity.
  - intros state Hs Hno. apply (Hold state); [done|].
    destruct (fresh (now (chrome st)) state) eqn:E; [|done].
    apply fresh_spec in E. contradiction.
  - intros state Hs Ht. apply (Hold state); [done|].
    destruct (fresh (now (chrome st)) state) eqn:E; [|done].
    apply fresh_spec in E. destruct E as (t & Ht' & _ & Hage).
    rewrite Ht in Ht'. injection Ht' as <-. lia.
  - intros state tab query th Hs Ht Hnz Htab Htabne Hq Hth Hthne.
    rewrite (Hnew state Hs).
    + rewrite Htab, Hq, Hth. destruct tab; [done|]. destruct th; [done|].
      destruct query; reflexivity.
    + apply fresh_spec. exists (now (chrome st) - 10 * 60 * 1000)%Z.
      repeat split; [done..|lia].
Qed.

End UIState.



Lemma restoreState_within_hour_witness :
  ui_state (exec restoreState (startup_with saved_ten_minutes_ago)) =
    (str "cookies", str "token", Some (str "light")).
Proof.
  apply (proj2 (proj2 (proj2 (proj2
    (restoreState_within_hour (startup_with saved_ten_minutes_ago) eq_refl))))
    saved_ten_minutes_ago (str "cookies") (str "token") (str "light"));
    first [reflexivity | discriminate].
Defined.

(** ** The key-value adapter *)

Section KeyValue.
Context {J : Type} {CS : CookieStore J}.

Ltac unfold_methods :=
  unfold exec, eval, setWebStorageItem, removeWebStorageItem,
    executeScript_setItem, executeScript_removeItem, executeScript_load,
    loadWebStorage, loadWebStorage_resume, loadCookies, loadCookies_start,
    loadCookies_resume, chrome_cookies_getAll, chrome_cookies_set,
    chrome_cookies_remove, setCookie, removeCookie, updateCount,
    renderCurrentTab, showToast, closeModal, chrome_call, page_update,
    bind, ret, get, modify_this, modify_chrome.

Lemma setWebStorageItem_run (type key value : jsstring) (st : State J) :
  setWebStorageItem type key value st =
    let b := made (ExecSetItem type key value) (chrome st) in
    match next_outcome (chrome st) with
    | Rejected => (false, {| this := this st; chrome := b |})
    | o =>
        let b' :=
          match o with
          | Fulfilled => page_update type (storage_setItem key value) b
          | _ => b
          end in
        match data_get type (data (this st)) with
        | Some m =>
            (true, {| this := set_data (data_set type (obj_assign key value m)) (this st);
                      chrome := b' |})
        | None => (false, {| this := this st; chrome := b' |})
        end
    end.
Proof.
  unfold_methods. destruct st as [i b]; simpl.
  destruct (next_outcome b); simpl; try reflexivity;
    destruct (kind_of type) as [[]|] eqn:Ek; simpl;
    unfold data_get; rewrite ?Ek; reflexivity.
Qed.

Lemma removeWebStorageItem_run (type key : jsstring) (st : State J) :
  removeWebStorageItem type key st =
    let b := made (ExecRemoveItem type key) (chrome st) in
    match next_outcome (chrome st) with
    | Rejected => (false, {| this := this st; chrome := b |})
    | o =>
        let b' :=
          match o with
          | Fulfilled => page_update type (storage_removeItem key) b
          | _ => b
          end in
        match data_get type (data (this st)) with
        | Some m =>
            (true, {| this := set_data (data_set type (obj_delete key m)) (this st);
                      chrome := b' |})
        | None => (false, {| this := this st; chrome := b' |})
        end
    end.
Proof.
  unfold_methods. destruct st as [i b]; simpl.
  destruct (next_outcome b); simpl; try reflexivity;
    destruct (kind_of type) as [[]|] eqn:Ek; simpl;
    unfold data_get; rewrite ?Ek; reflexivity.
Qed.

Lemma data_get_set (type type' : jsstring) (m : jsobject jsstring) (d : Data) :
  data_get type d <> None ->
  data_get type' (data_set type m d) =
    if decide (kind_of type' = kind_of type) then Some m else data_get type' d.
Proof.
  unfold data_get, data_set.
  destruct (kind_of type) as [[]|], (kind_of type') as [[]|]; simpl;
    intros; repeat case_decide; congruence.
Qed.

Lemma cookies_data_set (type : jsstring) (m : jsobject jsstring) (d : Data) :
  cookies (data_set type m d) = cookies d.
Proof. unfold data_set. destruct (kind_of type) as [[]|]; reflexivity. Qed.


End KeyValue.


(** That call: it answers [true], the page has the entry and the mirror
    is as it was. *)
Example mutation_proto_run :
  let st' := exec (setWebStorageItem (str "localStorage") (str "__proto__") (str "x"))
               (page_a1 []) in
  eval (setWebStorageItem (str "localStorage") (str "__proto__") (str "x")) (page_a1 [])
    = true
  /\ page_local (chrome st') = [(str "a", str "1"); (str "__proto__", str "x")]
  /\ localStorage (data (this st')) = [(str "a", str "1")].
Proof. vm_compute. repeat split. Qed.


(** ** Loading the three stores *)

Section Loading.
Context {J : Type} {CS : CookieStore J}.

(** The mirror after [loadAllData], whatever the order in which the three
    calls settle: each collection is decided by its own call. *)
Lemma loadAllData_in_data (order : list load) (st : State J) :
  order ≡ₚ [LoadLocal; LoadSession; LoadCookies] ->
  data (this (exec (loadAllData_in order) st)) =
    let b := chrome st in
    {| localStorage :=
         if load_failed (nth_outcome 0 b) then [] else read_storage (page_local b);
       sessionStorage :=
         if load_failed (nth_outcome 1 b) then [] else read_storage (page_session b);
       cookies :=
         if load_failed (nth_outcome 2 b) then []
         else jar_getAll (origin (currentUrl (this st))) (jar b) |}.
Proof.
  intros Hp. symmetry in Hp. apply permutations_Permutation in Hp.
  remember (permutations [LoadLocal; LoadSession; LoadCookies]) as ps eqn:Eps.
  vm_compute in Eps. subst ps.
  destruct st as [i [pl ps j ins th nw os cs ts]].
  unfold nth_outcome; cbn [chrome outcomes this].
  repeat (apply elem_of_cons in Hp as [-> | Hp]); [..|by apply elem_of_nil in Hp];
    destruct os as [|[] [|[] [|[] os]]]; reflexivity.
Qed.

Lemma loadAllData_in_chrome (order : list load) (st : State J) :
  order ≡ₚ [LoadLocal; LoadSession; LoadCookies] ->
  chrome (exec (loadAllData_in order) st) =
    made (CookiesGetAll (origin (currentUrl (this st))))
      (made (ExecLoad (str "sessionStorage"))
         (made (ExecLoad (str "localStorage")) (chrome st))).
Proof.
  intros Hp. symmetry in Hp. apply permutations_Permutation in Hp.
  remember (permutations [LoadLocal; LoadSession; LoadCookies]) as ps eqn:Eps.
  vm_compute in Eps. subst ps.
  destruct st as [i b].
  repeat (apply elem_of_cons in Hp as [-> | Hp]); [..|by apply elem_of_nil in Hp];
    reflexivity.
Qed.

(** The order in which the three calls settle does not matter. *)
Lemma loadAllData_any_order (order : list load) (st : State J) :
  order ≡ₚ [LoadLocal; LoadSession; LoadCookies] ->
  exec (loadAllData_in order) st = exec loadAllData st.
Proof.
  intros Hp.
  assert (Hthis : forall o, o ≡ₚ [LoadLocal; LoadSession; LoadCookies] ->
    this (exec (loadAllData_in o) st) =
      set_data (fun _ => data (this (exec (loadAllData_in o) st))) (this st)).
  { intros o Ho. symmetry in Ho. apply permutations_Permutation in Ho.
    remember (permutations [LoadLocal; LoadSession; LoadCookies]) as ps eqn:Eps.
    vm_compute in Eps. subst ps.
    destruct st as [i b].
    repeat (apply elem_of_cons in Ho as [-> | Ho]); [..|by apply elem_of_nil in Ho];
      reflexivity. }
  pose proof (Hthis order Hp) as H1.
  pose proof (Hthis _ (reflexivity _)) as H2. fold loadAllData in H2.
  pose proof (loadAllData_in_data order st Hp) as D1.
  pose proof (loadAllData_in_data _ st (reflexivity _)) as D2. fold loadAllData in D2.
  pose proof (loadAllData_in_chrome order st Hp) as C1.
  pose proof (loadAllData_in_chrome _ st (reflexivity _)) as C2. fold loadAllData in C2.
  destruct (exec (loadAllData_in order) st) as [t1 c1],
    (exec loadAllData st) as [t2 c2]; simpl in *.
  rewrite D1 in H1. rewrite D2 in H2. congruence.
Qed.


End Loading.



(** The mirror after that load. *)
Example loadAllData_proto_run :
  data (this (exec loadAllData
                (sample_state (str "localStorage") []
                   [(str "__proto__", str "x"); (str "a", str "1")]
                   [Fulfilled; Fulfilled; Rejected]))) =
    {| localStorage := [(str "a", str "1")]; sessionStorage := []; cookies := [] |}.
Proof. vm_compute. reflexivity. Qed.


(** ** Bulk import *)

Section BulkImport.
Context {J : Type} {CS : CookieStore J}.

Lemma setWebStorageItem_chrome (type key value : jsstring) (st : State J) :
  chrome (exec (setWebStorageItem type key value) st) =
    after_call (ExecSetItem type key value)
      (page_update type (storage_setItem key value)) (chrome st).
Proof.
  unfold exec, after_call. rewrite setWebStorageItem_run. cbv zeta.
  destruct (next_outcome (chrome st)), (data_get type (data (this st))); reflexivity.
Qed.

Lemma removeWebStorageItem_chrome (type key : jsstring) (st : State J) :
  chrome (exec (removeWebStorageItem type key) st) =
    after_call (ExecRemoveItem type key)
      (page_update type (storage_removeItem key)) (chrome st).
Proof.
  unfold exec, after_call. rewrite removeWebStorageItem_run. cbv zeta.
  destruct (next_outcome (chrome st)), (data_get type (data (this st))); reflexivity.
Qed.


Lemma same_but_mirror_refl (type : jsstring) (i : Inspector) :
  same_but_mirror type i i.
Proof. repeat split. Qed.

Lemma same_but_mirror_trans (type : jsstring) (i1 i2 i3 : Inspector) :
  same_but_mirror type i1 i2 -> same_but_mirror type i2 i3 ->
  same_but_mirror type i1 i3.
Proof.
  intros (A1 & A2 & A3 & A4 & A5) (B1 & B2 & B3 & B4 & B5).
  repeat split; try congruence.
  intros type' Hne. rewrite B5, A5; done.
Qed.

Lemma same_but_mirror_set (type : jsstring) (m : jsobject jsstring) (i : Inspector) :
  same_but_mirror type i (set_data (data_set type m) i).
Proof.
  repeat split; simpl.
  - apply cookies_data_set.
  - intros type' Hne. unfold data_get, data_set.
    destruct (kind_of type) as [[]|], (kind_of type') as [[]|]; simpl; congruence.
Qed.

Lemma setWebStorageItem_this (type key value : jsstring) (st : State J) :
  same_but_mirror type (this st) (this (exec (setWebStorageItem type key value) st)).
Proof.
  unfold exec. rewrite setWebStorageItem_run. cbv zeta.
  destruct (next_outcome (chrome st)), (data_get type (data (this st)));
    simpl; first [apply same_but_mirror_set | apply same_but_mirror_refl].
Qed.

Lemma removeWebStorageItem_this (type key : jsstring) (st : State J) :
  same_but_mirror type (this st) (this (exec (removeWebStorageItem type key) st)).
Proof.
  unfold exec. rewrite removeWebStorageItem_run. cbv zeta.
  destruct (next_outcome (chrome st)), (data_get type (data (this st)));
    simpl; first [apply same_but_mirror_set | apply same_but_mirror_refl].
Qed.

(** A loop whose body acts on the browser as [g] and keeps an invariant
    [P] of the inspector acts as the fold of [g]. *)
Lemma for_of_chrome {A S} (P : Inspector -> Prop) (g : A -> Browser J -> Browser J)
    (body : A -> S -> M J S) (l : list A) :
  (forall x s st, P (this st) ->
     P (this (exec (body x s) st))
     /\ chrome (exec (body x s) st) = g x (chrome st)) ->
  forall s st, P (this st) ->
    P (this (exec (for_of l body s) st))
    /\ chrome (exec (for_of l body s) st) = fold_left (fun b x => g x b) l (chrome st).
Proof.
  intros Hbody. induction l as [|x l IH]; intros s st HP.
  - split; [exact HP | reflexivity].
  - simpl. unfold exec, bind in *.
    destruct (Hbody x s st HP) as [HP' Hc].
    destruct (body x s st) as [s' st'] eqn:E. simpl in *.
    destruct (IH s' st' HP') as [HP'' Hc'].
    split; [exact HP''|]. rewrite Hc', Hc. reflexivity.
Qed.

(** The value a counting loop ends with. *)
Lemma for_of_count {A} (body : A -> M J bool) (l : list A) (count : nat) (st : State J) :
  eval (for_of l (fun x count => body x ;; ret (S count)) count) st
  = (count + length l)%nat.
Proof.
  revert count st. induction l as [|x l IH]; intros count st; simpl.
  - unfold eval, ret. simpl. lia.
  - unfold eval, bind, ret in *. destruct (body x st) as [ok st1]. simpl.
    rewrite IH. lia.
Qed.


(** *** The browser side of the adapters *)

Lemma page_update_fields (type : jsstring) (f : jsobject jsstring -> jsobject jsstring)
    (b : Browser J) :
  jar (page_update type f b) = jar b
  /\ outcomes (page_update type f b) = outcomes b
  /\ calls (page_update type f b) = calls b
  /\ toasts (page_update type f b) = toasts b.
Proof. unfold page_update. destruct (kind_of type) as [[]|]; repeat split. Qed.

Lemma page_of_update (k : kind) (type : jsstring)
    (f : jsobject jsstring -> jsobject jsstring) (b : Browser J) :
  page_of k (page_update type f b) =
    if decide (kind_of type = Some k) then f (page_of k b) else page_of k b.
Proof.
  unfold page_update. destruct (kind_of type) as [[]|], k; simpl;
    repeat case_decide; congruence.
Qed.

Lemma all_fulfilled_next (b : Browser J) :
  all_fulfilled b -> next_outcome b = Fulfilled.
Proof.
  unfold all_fulfilled, next_outcome. destruct (outcomes b); [done|].
  intros H. by inversion H.
Qed.

Lemma all_fulfilled_made (c : call) (b : Browser J) :
  all_fulfilled b -> all_fulfilled (made c b).
Proof.
  unfold all_fulfilled. simpl. destruct (outcomes b); [done|].
  intros H. by inversion H.
Qed.

Lemma after_call_calls (c : call) (f : Browser J -> Browser J) (b : Browser J) :
  (forall b, calls (f b) = calls b) ->
  calls (after_call c f b) = calls b ++ [c].
Proof.
  intros Hf. unfold after_call. destruct (next_outcome b); rewrite ?Hf; reflexivity.
Qed.

Lemma after_call_fulfilled (c : call) (f : Browser J -> Browser J) (b : Browser J) :
  (forall b, outcomes (f b) = outcomes b) ->
  all_fulfilled b ->
  after_call c f b = f (made c b) /\ all_fulfilled (after_call c f b).
Proof.
  intros Hf Hb. unfold after_call. rewrite (all_fulfilled_next b Hb).
  split; [reflexivity|]. unfold all_fulfilled. rewrite Hf.
  apply all_fulfilled_made, Hb.
Qed.

Lemma after_removals_calls (type : jsstring) (keys : list jsstring) (b : Browser J) :
  calls (after_removals type keys b) = calls b ++ map (ExecRemoveItem type) keys.
Proof.
  unfold after_removals. revert b.
  induction keys as [|k keys IH]; intros b; simpl.
  - by rewrite app_nil_r.
  - rewrite IH, after_call_calls by (intros; apply page_update_fields).
    by rewrite <- app_assoc.
Qed.

Lemma after_writes_calls (type : jsstring) (entries : jsobject jsstring) (b : Browser J) :
  calls (after_writes type entries b) =
    calls b ++ map (fun kv => ExecSetItem type (fst kv) (snd kv)) entries.
Proof.
  unfold after_writes. revert b.
  induction entries as [|kv entries IH]; intros b; simpl.
  - by rewrite app_nil_r.
  - rewrite IH, after_call_calls by (intros; apply page_update_fields).
    by rewrite <- app_assoc.
Qed.

Lemma after_removals_toasts (type : jsstring) (keys : list jsstring) (b : Browser J) :
  toasts (after_removals type keys b) = toasts b.
Proof.
  unfold after_removals. revert b.
  induction keys as [|k keys IH]; intros b; simpl; [done|].
  rewrite IH. unfold after_call. destruct (next_outcome b); try reflexivity.
  etrans; [apply page_update_fields | reflexivity].
Qed.

Lemma after_writes_toasts (type : jsstring) (entries : jsobject jsstring) (b : Browser J) :
  toasts (after_writes type entries b) = toasts b.
Proof.
  unfold after_writes. revert b.
  induction entries as [|kv entries IH]; intros b; simpl; [done|].
  rewrite IH. unfold after_call. destruct (next_outcome b); try reflexivity.
  etrans; [apply page_update_fields | reflexivity].
Qed.

(** With every call fulfilled, the removals and the writes reach the
    store they name and leave the other one alone. *)
Lemma after_removals_fulfilled (type : jsstring) (keys : list jsstring) (b : Browser J) :
  all_fulfilled b ->
  all_fulfilled (after_removals type keys b)
  /\ forall k, page_of k (after_removals type keys b) =
       if decide (kind_of type = Some k)
       then fold_left (fun s key => storage_removeItem key s) keys (page_of k b)
       else page_of k b.
Proof.
  unfold after_removals. revert b.
  induction keys as [|key keys IH]; intros b Hb; simpl.
  - split; [done|]. intros k. by case_decide.
  - destruct (after_call_fulfilled (ExecRemoveItem type key)
      (page_update type (storage_removeItem key)) b) as [E Hb'];
      [intros; apply page_update_fields | done |].
    destruct (IH _ Hb') as [Hall Hpage]. split; [done|].
    intros k. rewrite Hpage, E, page_of_update.
    case_decide; [|done]. destruct k; reflexivity.
Qed.

Lemma after_writes_fulfilled (type : jsstring) (entries : jsobject jsstring)
    (b : Browser J) :
  all_fulfilled b ->
  all_fulfilled (after_writes type entries b)
  /\ forall k, page_of k (after_writes type entries b) =
       if decide (kind_of type = Some k)
       then fold_left (fun s kv => storage_setItem (fst kv) (snd kv) s) entries (page_of k b)
       else page_of k b.
Proof.
  unfold after_writes. revert b.
  induction entries as [|kv entries IH]; intros b Hb; simpl.
  - split; [done|]. intros k. by case_decide.
  - destruct (after_call_fulfilled (ExecSetItem type (fst kv) (snd kv))
      (page_update type (storage_setItem (fst kv) (snd kv))) b) as [E Hb'];
      [intros; apply page_update_fields | done |].
    destruct (IH _ Hb') as [Hall Hpage]. split; [done|].
    intros k. rewrite Hpage, E, page_of_update.
    case_decide; [|done]. destruct k; reflexivity.
Qed.


(** *** The three blocks of [confirmImport] *)

Lemma exec_bind {A B} (m : M J A) (f : A -> M J B) (st : State J) :
  exec (bind m f) st = exec (f (eval m st)) (exec m st).
Proof. unfold exec, eval, bind. by destruct (m st). Qed.

Lemma eval_bind {A B} (m : M J A) (f : A -> M J B) (st : State J) :
  eval (bind m f) st = eval (f (eval m st)) (exec m st).
Proof. unfold exec, eval, bind. by destruct (m st). Qed.

Lemma import_webStorage_run (type : jsstring) (field : option (jsobject jsstring))
    (merge : bool) (count : nat) (st : State J) :
  chrome (exec (import_webStorage type field merge count) st) =
    match field with
    | None => chrome st
    | Some entries =>
        after_writes type entries
          (if merge then chrome st
           else after_removals type
                  (Object_keys (default [] (data_get type (data (this st)))))
                  (chrome st))
    end
  /\ same_but_mirror type (this st)
       (this (exec (import_webStorage type field merge count) st))
  /\ eval (import_webStorage type field merge count) st =
       (count + length (default [] field))%nat.
Proof.
  unfold import_webStorage. destruct field as [entries|]; simpl.
  2: { repeat split. unfold eval, ret. simpl. lia. }
  rewrite exec_bind, eval_bind.
  set (removals := if merge then ret tt else _).
  assert (Hrem : chrome (exec removals st) =
      (if merge then chrome st
       else after_removals type
              (Object_keys (default [] (data_get type (data (this st))))) (chrome st))
    /\ same_but_mirror type (this st) (this (exec removals st))).
  { subst removals. destruct merge.
    - split; [reflexivity | apply same_but_mirror_refl].
    - rewrite exec_bind. change (exec get st) with st. change (eval get st) with st.
      destruct (for_of_chrome (same_but_mirror type (this st))
        (fun key => after_call (ExecRemoveItem type key)
           (page_update type (storage_removeItem key)))
        (fun key (_ : unit) => removeWebStorageItem type key ;; ret tt)
        (Object_keys (default [] (data_get type (data (this st)))))) with (s := tt) (st := st)
        as [HP Hc].
      + intros x s st0 HP. rewrite exec_bind. change (exec (ret tt) ?s) with s.
        split; [|apply removeWebStorageItem_chrome].
        eapply same_but_mirror_trans; [exact HP | apply removeWebStorageItem_this].
      + apply same_but_mirror_refl.
      + split; [exact Hc | exact HP]. }
  destruct Hrem as [Hc0 HP0].
  destruct (for_of_chrome (same_but_mirror type (this st))
    (fun kv => after_call (ExecSetItem type (fst kv) (snd kv))
       (page_update type (storage_setItem (fst kv) (snd kv))))
    (fun kv count => setWebStorageItem type (fst kv) (snd kv) ;; ret (S count))
    (Object_entries entries)) with (s := count) (st := exec removals st) as [HP Hc].
  - intros x s st0 HP. rewrite exec_bind. change (exec (ret ?v) ?s) with s.
    split; [|apply setWebStorageItem_chrome].
    eapply same_but_mirror_trans; [exact HP | apply setWebStorageItem_this].
  - exact HP0.
  - split; [|split].
    + rewrite Hc, Hc0. reflexivity.
    + exact HP.
    + apply (for_of_count (fun kv => setWebStorageItem type (fst kv) (snd kv))).
Qed.



Lemma same_but_cookies_refl (i : Inspector) : same_but_cookies i i.
Proof. repeat split. Qed.

Lemma same_but_cookies_trans (i1 i2 i3 : Inspector) :
  same_but_cookies i1 i2 -> same_but_cookies i2 i3 -> same_but_cookies i1 i3.
Proof.
  intros (A1 & A2 & A3 & A4 & A5) (B1 & B2 & B3 & B4 & B5).
  repeat split; congruence.
Qed.

Lemma setCookie_run (data : Cookie.t) (st : State J) :
  chrome (exec (setCookie data) st) =
    after_cookie_call (CookiesSet (setCookie_details (currentUrl (this st)) data))
      (fun b => set_jar (jar_set (setCookie_details (currentUrl (this st)) data) (jar b)) b)
      (origin (currentUrl (this st))) (chrome st)
  /\ same_but_cookies (this st) (this (exec (setCookie data) st)).
Proof.
  destruct st as [i [pl ps j ins th nw os cs ts]].
  unfold exec, setCookie, chrome_cookies_set, loadCookies, loadCookies_start,
    loadCookies_resume, chrome_cookies_getAll, chrome_call, updateCount,
    after_cookie_call, after_call, bind, ret, get, modify_this, modify_chrome.
  destruct os as [|[] [|[] os]]; simpl; split; first [reflexivity | repeat split].
Qed.

Lemma removeCookie_run (name : jsstring) (st : State J) :
  chrome (exec (removeCookie name) st) =
    after_cookie_call (CookiesRemove (origin (currentUrl (this st))) name)
      (fun b => set_jar (jar_remove (origin (currentUrl (this st))) name (jar b)) b)
      (origin (currentUrl (this st))) (chrome st)
  /\ same_but_cookies (this st) (this (exec (removeCookie name) st)).
Proof.
  destruct st as [i [pl ps j ins th nw os cs ts]].
  unfold exec, removeCookie, chrome_cookies_remove, loadCookies, loadCookies_start,
    loadCookies_resume, chrome_cookies_getAll, chrome_call, updateCount,
    after_cookie_call, after_call, bind, ret, get, modify_this, modify_chrome.
  destruct os as [|[] [|[] os]]; simpl; split; first [reflexivity | repeat split].
Qed.

Lemma import_cookies_run (field : option (list Cookie.t)) (merge : bool)
    (count : nat) (st : State J) :
  chrome (exec (import_cookies field merge count) st) =
    match field with
    | None => chrome st
    | Some entries =>
        after_cookie_writes (currentUrl (this st)) entries
          (if merge then chrome st
           else after_cookie_removals (currentUrl (this st))
                  (cookies (data (this st))) (chrome st))
    end
  /\ same_but_cookies (this st) (this (exec (import_cookies field merge count) st))
  /\ eval (import_cookies field merge count) st =
       (count + length (default [] field))%nat.
Proof.
  unfold import_cookies. destruct field as [entries|]; simpl.
  2: { repeat split. unfold eval, ret. simpl. lia. }
  rewrite exec_bind, eval_bind.
  set (removals := if merge then ret tt else _).
  assert (Hrem : chrome (exec removals st) =
      (if merge then chrome st
       else after_cookie_removals (currentUrl (this st))
              (cookies (data (this st))) (chrome st))
    /\ same_but_cookies (this st) (this (exec removals st))).
  { subst removals. destruct merge.
    - split; [reflexivity | apply same_but_cookies_refl].
    - rewrite exec_bind. change (exec get st) with st. change (eval get st) with st.
      destruct (for_of_chrome (same_but_cookies (this st))
        (fun c => after_cookie_call
           (CookiesRemove (origin (currentUrl (this st))) (Cookie.name c))
           (fun b => set_jar
              (jar_remove (origin (currentUrl (this st))) (Cookie.name c) (jar b)) b)
           (origin (currentUrl (this st))))
        (fun cookie (_ : unit) => removeCookie (Cookie.name cookie) ;; ret tt)
        (cookies (data (this st)))) with (s := tt) (st := st) as [HP Hc].
      + intros x s st0 HP. rewrite exec_bind. change (exec (ret tt) ?s) with s.
        destruct (removeCookie_run (Cookie.name x) st0) as [E HP'].
        split; [eapply same_but_cookies_trans; eassumption|].
        rewrite E. destruct HP as (_ & -> & _). reflexivity.
      + apply same_but_cookies_refl.
      + split; [exact Hc | exact HP]. }
  destruct Hrem as [Hc0 HP0].
  destruct (for_of_chrome (same_but_cookies (this st))
    (fun c => after_cookie_call
       (CookiesSet (setCookie_details (currentUrl (this st)) c))
       (fun b => set_jar (jar_set (setCookie_details (currentUrl (this st)) c) (jar b)) b)
       (origin (currentUrl (this st))))
    (fun cookie count => setCookie cookie ;; ret (S count))
    entries) with (s := count) (st := exec removals st) as [HP Hc].
  - intros x s st0 HP. rewrite exec_bind. change (exec (ret ?v) ?s) with s.
    destruct (setCookie_run x st0) as [E HP'].
    split; [eapply same_but_cookies_trans; eassumption|].
    rewrite E. destruct HP as (_ & -> & _). reflexivity.
  - exact HP0.
  - split; [|split].
    + rewrite Hc, Hc0. reflexivity.
    + exact HP.
    + apply (for_of_count setCookie).
Qed.


(** [confirmImport] as a whole: the three blocks, the reload, the toast
    with the number of entries. *)
Lemma confirmImport_run (importData : ImportData.t) (merge : bool) (st : State J) :
  let b := after_import (this st) importData merge (chrome st) in
  chrome (exec (confirmImport importData merge) st) =
    add_toast (imported_toast (attempted importData))
      (made (CookiesGetAll (origin (currentUrl (this st))))
         (made (ExecLoad (str "sessionStorage"))
            (made (ExecLoad (str "localStorage")) b)))
  /\ data (this (exec (confirmImport importData merge) st)) =
       {| localStorage :=
            if load_failed (nth_outcome 0 b) then [] else read_storage (page_local b);
          sessionStorage :=
            if load_failed (nth_outcome 1 b) then [] else read_storage (page_session b);
          cookies :=
            if load_failed (nth_outcome 2 b) then []
            else jar_getAll (origin (currentUrl (this st))) (jar b) |}.
Proof.
  intros b. unfold confirmImport.
  destruct (import_webStorage_run (str "localStorage")
    (ImportData.localStorage importData) merge 0 st) as (C1 & (_ & U1 & _ & K1 & M1) & N1).
  set (st1 := exec (import_webStorage (str "localStorage")
    (ImportData.localStorage importData) merge 0) st) in *.
  set (n1 := eval (import_webStorage (str "localStorage")
    (ImportData.localStorage importData) merge 0) st) in *.
  destruct (import_webStorage_run (str "sessionStorage")
    (ImportData.sessionStorage importData) merge n1 st1) as (C2 & (_ & U2 & _ & K2 & M2) & N2).
  set (st2 := exec (import_webStorage (str "sessionStorage")
    (ImportData.sessionStorage importData) merge n1) st1) in *.
  set (n2 := eval (import_webStorage (str "sessionStorage")
    (ImportData.sessionStorage importData) merge n1) st1) in *.
  destruct (import_cookies_run (ImportData.cookies importData) merge n2 st2)
    as (C3 & (_ & U3 & _) & N3).
  set (st3 := exec (import_cookies (ImportData.cookies importData) merge n2) st2) in *.
  set (n3 := eval (import_cookies (ImportData.cookies importData) merge n2) st2) in *.
  assert (Hb : chrome st3 = b).
  { rewrite C3, C2, C1, U2, U1, K2, K1. subst b.
    unfold after_import, after_cookies, after_webStorage.
    specialize (M1 (str "sessionStorage") ltac:(discriminate)).
    unfold data_get in M1 |- *. simpl in M1 |- *.
    injection M1 as M1. rewrite M1. reflexivity. }
  assert (Hn : n3 = attempted importData).
  { rewrite N3, N2, N1. unfold attempted. lia. }
  rewrite !exec_bind. fold st1 n1 st2 n2 st3 n3.
  change (exec closeModal st3) with
    {| this := set_editingItem None (this st3); chrome := chrome st3 |}.
  set (st4 := {| this := set_editingItem None (this st3); chrome := chrome st3 |}).
  pose proof (loadAllData_in_chrome [LoadLocal; LoadSession; LoadCookies] st4
    (reflexivity _)) as L1.
  pose proof (loadAllData_in_data [LoadLocal; LoadSession; LoadCookies] st4
    (reflexivity _)) as L2.
  fold loadAllData in L1, L2. cbv zeta in L2.
  assert (Hu : currentUrl (this st4) = currentUrl (this st)).
  { simpl. congruence. }
  change (chrome st4) with (chrome st3) in *. rewrite Hb, Hu in L1, L2.
  change (exec (showToast ?m ?t) ?s) with
    {| this := this s; chrome := add_toast (m, t) (chrome s) |}.
  cbn [chrome this]. rewrite L1, L2, Hn. split; reflexivity.
Qed.


(** *** What the blocks do to the browser *)

Lemma after_webStorage_calls (type : jsstring) (field : option (jsobject jsstring))
    (merge : bool) (mirror : jsobject jsstring) (b : Browser J) :
  calls (after_webStorage type field merge mirror b) =
    calls b ++ webStorage_calls type field merge mirror
  /\ toasts (after_webStorage type field merge mirror b) = toasts b.
Proof.
  unfold after_webStorage, webStorage_calls. destruct field as [entries|].
  - rewrite after_writes_calls, after_writes_toasts. destruct merge.
    + done.
    + rewrite after_removals_calls, after_removals_toasts, app_assoc. done.
  - by rewrite app_nil_r.
Qed.

Lemma after_webStorage_fulfilled (type : jsstring) (field : option (jsobject jsstring))
    (merge : bool) (mirror : jsobject jsstring) (b : Browser J) :
  all_fulfilled b ->
  all_fulfilled (after_webStorage type field merge mirror b)
  /\ forall k, page_of k (after_webStorage type field merge mirror b) =
       if decide (kind_of type = Some k) then
         match field with
         | None => page_of k b
         | Some entries =>
             fold_left (fun s kv => storage_setItem (fst kv) (snd kv) s) entries
               (if merge then page_of k b
                else fold_left (fun s key => storage_removeItem key s)
                       (Object_keys mirror) (page_of k b))
         end
       else page_of k b.
Proof.
  intros Hb. unfold after_webStorage. destruct field as [entries|].
  2: { split; [done|]. intros k. by case_decide. }
  destruct merge.
  - destruct (after_writes_fulfilled type entries b Hb) as [H1 H2]. done.
  - destruct (after_removals_fulfilled type (Object_keys mirror) b Hb) as [H1 H2].
    destruct (after_writes_fulfilled type entries _ H1) as [H3 H4].
    split; [done|]. intros k. rewrite H4, H2. by case_decide.
Qed.

Lemma mutations_app (l1 l2 : list call) :
  mutations (l1 ++ l2) = mutations l1 ++ mutations l2.
Proof. apply List.filter_app. Qed.

Lemma after_cookie_call_frame (c : call) (f : J -> J) (url : jsstring) (b : Browser J) :
  is_mutation c = true ->
  let b' := after_cookie_call c (fun b => set_jar (f (jar b)) b) url b in
  mutations (calls b') = mutations (calls b) ++ [c]
  /\ toasts b' = toasts b
  /\ (forall k, page_of k b' = page_of k b)
  /\ (all_fulfilled b -> all_fulfilled b').
Proof.
  intros Hc. unfold after_cookie_call, after_call.
  assert (Hm : mutations [c] = [c]) by (unfold mutations; simpl; by rewrite Hc).
  destruct (next_outcome b) eqn:E; cbv zeta; simpl;
    rewrite ?mutations_app, ?Hm; simpl; rewrite ?app_nil_r;
    (split; [reflexivity|]); (split; [reflexivity|]);
    (split; [by intros []|]); intros Hb;
    try (rewrite (all_fulfilled_next b Hb) in E; discriminate E).
  unfold all_fulfilled in *. simpl.
  destruct (outcomes b) as [|o1 [|o2 os]]; simpl; [done..|].
  inversion Hb as [|? ? _ Hb']. by inversion Hb'.
Qed.

Lemma after_cookies_frame (currentUrl : Url) (field : option (list Cookie.t))
    (merge : bool) (mirror : list Cookie.t) (b : Browser J) :
  let b' := after_cookies currentUrl field merge mirror b in
  mutations (calls b') =
    mutations (calls b) ++ cookie_calls currentUrl field merge mirror
  /\ toasts b' = toasts b
  /\ (forall k, page_of k b' = page_of k b)
  /\ (all_fulfilled b -> all_fulfilled b').
Proof.
  assert (Hrem : forall (l : list Cookie.t) (b : Browser J),
    let b' := after_cookie_removals currentUrl l b in
    mutations (calls b') =
      mutations (calls b)
      ++ map (fun c => CookiesRemove (origin currentUrl) (Cookie.name c)) l
    /\ toasts b' = toasts b
    /\ (forall k, page_of k b' = page_of k b)
    /\ (all_fulfilled b -> all_fulfilled b')).
  { unfold after_cookie_removals.
    induction l as [|c l IH]; intros b0; simpl.
    - rewrite app_nil_r. done.
    - destruct (after_cookie_call_frame
        (CookiesRemove (origin currentUrl) (Cookie.name c))
        (jar_remove (origin currentUrl) (Cookie.name c)) (origin currentUrl) b0 eq_refl)
        as (A1 & A2 & A3 & A4).
      destruct (IH (after_cookie_call
        (CookiesRemove (origin currentUrl) (Cookie.name c))
        (fun b => set_jar (jar_remove (origin currentUrl) (Cookie.name c) (jar b)) b)
        (origin currentUrl) b0)) as (B1 & B2 & B3 & B4).
      cbv zeta in *. rewrite B1, B2, A1, A2, <- app_assoc.
      repeat split; [|auto]. intros k. by rewrite B3, A3. }
  assert (Hset : forall (l : list Cookie.t) (b : Browser J),
    let b' := after_cookie_writes currentUrl l b in
    mutations (calls b') =
      mutations (calls b)
      ++ map (fun c => CookiesSet (setCookie_details currentUrl c)) l
    /\ toasts b' = toasts b
    /\ (forall k, page_of k b' = page_of k b)
    /\ (all_fulfilled b -> all_fulfilled b')).
  { unfold after_cookie_writes.
    induction l as [|c l IH]; intros b0; simpl.
    - rewrite app_nil_r. done.
    - destruct (after_cookie_call_frame
        (CookiesSet (setCookie_details currentUrl c))
        (jar_set (setCookie_details currentUrl c)) (origin currentUrl) b0 eq_refl)
        as (A1 & A2 & A3 & A4).
      destruct (IH (after_cookie_call
        (CookiesSet (setCookie_details currentUrl c))
        (fun b => set_jar (jar_set (setCookie_details currentUrl c) (jar b)) b)
        (origin currentUrl) b0)) as (B1 & B2 & B3 & B4).
      cbv zeta in *. rewrite B1, B2, A1, A2, <- app_assoc.
      repeat split; [|auto]. intros k. by rewrite B3, A3. }
  unfold after_cookies, cookie_calls. destruct field as [entries|]; cbv zeta.
  2: { rewrite app_nil_r. done. }
  destruct merge.
  - apply Hset.
  - destruct (Hrem mirror b) as (A1 & A2 & A3 & A4).
    destruct (Hset entries (after_cookie_removals currentUrl mirror b))
      as (B1 & B2 & B3 & B4).
    cbv zeta in *. rewrite B1, B2, A1, A2, <- app_assoc.
    repeat split; [|auto]. intros k. by rewrite B3, A3.
Qed.


Lemma all_fulfilled_nth (n : nat) (b : Browser J) :
  all_fulfilled b -> nth_outcome n b = Fulfilled.
Proof.
  unfold all_fulfilled, nth_outcome. intros Hb.
  destruct (nth_in_or_default n (outcomes b) Fulfilled) as [Hin | ->]; [|done].
  rewrite List.Forall_forall in Hb. by apply Hb.
Qed.

(** The page stores after the three blocks, every call fulfilled. *)
Lemma after_import_pages (i : Inspector) (importData : ImportData.t) (merge : bool)
    (b : Browser J) :
  all_fulfilled b ->
  let b' := after_import i importData merge b in
  all_fulfilled b'
  /\ page_local b' =
       page_local (after_webStorage (str "localStorage")
         (ImportData.localStorage importData) merge (localStorage (data i)) b)
  /\ page_session b' =
       match ImportData.sessionStorage importData with
       | None => page_session b
       | Some entries =>
           fold_left (fun s kv => storage_setItem (fst kv) (snd kv) s) entries
             (if merge then page_session b
              else fold_left (fun s key => storage_removeItem key s)
                     (Object_keys (sessionStorage (data i))) (page_session b))
       end.
Proof.
  intros Hb b'. subst b'. unfold after_import.
  destruct (after_webStorage_fulfilled (str "localStorage")
    (ImportData.localStorage importData) merge (localStorage (data i)) b Hb) as [H1 P1].
  destruct (after_webStorage_fulfilled (str "sessionStorage")
    (ImportData.sessionStorage importData) merge (sessionStorage (data i)) _ H1)
    as [H2 P2].
  destruct (after_cookies_frame (currentUrl i) (ImportData.cookies importData) merge
    (cookies (data i)) (after_webStorage (str "sessionStorage")
       (ImportData.sessionStorage importData) merge (sessionStorage (data i))
       (after_webStorage (str "localStorage")
          (ImportData.localStorage importData) merge (localStorage (data i)) b)))
    as (_ & _ & P3 & H3).
  cbv zeta in *. split; [auto|].
  pose proof (P3 KLocal) as P3L. pose proof (P3 KSession) as P3S.
  pose proof (P2 KLocal) as P2L. pose proof (P2 KSession) as P2S.
  pose proof (P1 KSession) as P1S.
  cbn [page_of] in P3L, P3S, P2L, P2S, P1S. split.
  - rewrite P3L, P2L. reflexivity.
  - rewrite P3S, P2S, P1S. reflexivity.
Qed.

(** The key-value stores and their mirrors once [confirmImport] is over,
    every call fulfilled: in each store that the file names, a key has the
    last value the file gives it, or else what was kept of the store; the
    mirror has what the store has, but for the key [__proto__]. *)
Lemma confirmImport_stores (importData : ImportData.t) (merge : bool) (st : State J) :
  all_fulfilled (chrome st) ->
  let st' := exec (confirmImport importData merge) st in
  let kept (mirror page : jsobject jsstring) k :=
    if merge then storage_getItem k page
    else if bool_decide (k ∈ Object_keys mirror) then None
    else storage_getItem k page in
  let result field mirror page k :=
    match field with
    | None => storage_getItem k page
    | Some entries =>
        match last_entry k entries with
        | Some v => Some v
        | None => kept mirror page k
        end
    end in
  (forall k,
     storage_getItem k (page_local (chrome st')) =
       result (ImportData.localStorage importData) (localStorage (data (this st)))
         (page_local (chrome st)) k
     /\ obj_get k (localStorage (data (this st'))) =
          if decide (k = str "__proto__") then None
          else storage_getItem k (page_local (chrome st')))
  /\ (forall k,
        storage_getItem k (page_session (chrome st')) =
          result (ImportData.sessionStorage importData) (sessionStorage (data (this st)))
            (page_session (chrome st)) k
        /\ obj_get k (sessionStorage (data (this st'))) =
             if decide (k = str "__proto__") then None
             else storage_getItem k (page_session (chrome st'))).
Proof.
  intros Hb st' kept result. subst st' kept result.
  destruct (confirmImport_run importData merge st) as [C D]. cbv zeta in C, D.
  destruct (after_import_pages (this st) importData merge (chrome st) Hb)
    as (Hb' & PL & PS). cbv zeta in *.
  rewrite C, D. cbn [chrome this page_local page_session add_toast made
    localStorage sessionStorage].
  rewrite !(all_fulfilled_nth _ _ Hb'). cbn [load_failed].
  destruct (after_webStorage_fulfilled (str "localStorage")
    (ImportData.localStorage importData) merge (localStorage (data (this st)))
    (chrome st) Hb) as [_ P1]. specialize (P1 KLocal). cbn [page_of] in P1.
  rewrite decide_True in P1 by reflexivity.
  rewrite PL, PS, P1.
  split; intros k; (split; [|apply read_storage_get]).
  - destruct (ImportData.localStorage importData) as [entries|]; [|done].
    rewrite storage_getItem_writes. destruct (last_entry k entries); [done|].
    destruct merge; [done|]. apply storage_getItem_removals.
  - destruct (ImportData.sessionStorage importData) as [entries|]; [|done].
    rewrite storage_getItem_writes. destruct (last_entry k entries); [done|].
    destruct merge; [done|]. apply storage_getItem_removals.
Qed.


Lemma mutations_webStorage_calls (type : jsstring) (field : option (jsobject jsstring))
    (merge : bool) (mirror : jsobject jsstring) :
  mutations (webStorage_calls type field merge mirror) =
    webStorage_calls type field merge mirror.
Proof.
  unfold webStorage_calls. destruct field as [entries|]; [|done].
  assert (H1 : forall l : list jsstring,
    mutations (map (ExecRemoveItem type) l) = map (ExecRemoveItem type) l).
  { induction l as [|x l IH]; simpl; [done|]. unfold mutations in *. simpl.
    by rewrite IH. }
  assert (H2 : forall l : jsobject jsstring,
    mutations (map (fun kv => ExecSetItem type (fst kv) (snd kv)) l) =
    map (fun kv => ExecSetItem type (fst kv) (snd kv)) l).
  { induction l as [|x l IH]; simpl; [done|]. unfold mutations in *. simpl.
    by rewrite IH. }
  rewrite mutations_app, H2. destruct merge; [done|]. by rewrite H1.
Qed.

(** The writes that [confirmImport] asks of the adapters, in order. *)
Lemma confirmImport_calls (importData : ImportData.t) (merge : bool) (st : State J) :
  mutations (calls (chrome (exec (confirmImport importData merge) st))) =
    mutations (calls (chrome st))
    ++ webStorage_calls (str "localStorage") (ImportData.localStorage importData)
         merge (localStorage (data (this st)))
    ++ webStorage_calls (str "sessionStorage") (ImportData.sessionStorage importData)
         merge (sessionStorage (data (this st)))
    ++ cookie_calls (currentUrl (this st)) (ImportData.cookies importData)
         merge (cookies (data (this st))).
Proof.
  destruct (confirmImport_run importData merge st) as [C _]. cbv zeta in C.
  rewrite C. cbn [calls add_toast made]. rewrite <- !app_assoc.
  rewrite mutations_app. cbn [app]. unfold mutations at 2. cbn [List.filter is_mutation].
  rewrite app_nil_r. unfold after_import.
  destruct (after_cookies_frame (currentUrl (this st)) (ImportData.cookies importData)
    merge (cookies (data (this st)))
    (after_webStorage (str "sessionStorage")
       (ImportData.sessionStorage importData) merge (sessionStorage (data (this st)))
       (after_webStorage (str "localStorage")
          (ImportData.localStorage importData) merge (localStorage (data (this st)))
          (chrome st)))) as (A & _).
  cbv zeta in A. rewrite A.
  destruct (after_webStorage_calls (str "sessionStorage")
    (ImportData.sessionStorage importData) merge (sessionStorage (data (this st)))
    (after_webStorage (str "localStorage")
       (ImportData.localStorage importData) merge (localStorage (data (this st)))
       (chrome st))) as [B _].
  destruct (after_webStorage_calls (str "localStorage")
    (ImportData.localStorage importData) merge (localStorage (data (this st)))
    (chrome st)) as [B' _].
  rewrite B, B', !mutations_app, !mutations_webStorage_calls, <- !app_assoc.
  reflexivity.
Qed.

(** The calls and the stores of an import, in general. *)
Lemma confirmImport_effect (importData : ImportData.t) (merge : bool)
    (st : State J) :
  let st' := exec (confirmImport importData merge) st in
  mutations (calls (chrome st')) =
    mutations (calls (chrome st))
    ++ webStorage_calls (str "localStorage") (ImportData.localStorage importData)
         merge (localStorage (data (this st)))
    ++ webStorage_calls (str "sessionStorage") (ImportData.sessionStorage importData)
         merge (sessionStorage (data (this st)))
    ++ cookie_calls (currentUrl (this st)) (ImportData.cookies importData)
         merge (cookies (data (this st)))
  /\ (all_fulfilled (chrome st) ->
      forall entries, ImportData.localStorage importData = Some entries ->
      (merge = true ->
       forall k,
         storage_getItem k (page_local (chrome st')) =
           match last_entry k entries with
           | Some v => Some v
           | None => storage_getItem k (page_local (chrome st))
           end
         /\ obj_get k (localStorage (data (this st'))) =
              if decide (k = str "__proto__") then None
              else storage_getItem k (page_local (chrome st')))
      /\ (merge = false ->
          (forall k, k ∈ Object_keys (page_local (chrome st)) ->
                     k ∈ Object_keys (localStorage (data (this st)))) ->
          forall k,
            storage_getItem k (page_local (chrome st')) = last_entry k entries
            /\ obj_get k (localStorage (data (this st'))) =
                 if decide (k = str "__proto__") then None else last_entry k entries))
  /\ (all_fulfilled (chrome st) ->
      forall entries, ImportData.sessionStorage importData = Some entries ->
      (merge = true ->
       forall k,
         storage_getItem k (page_session (chrome st')) =
           match last_entry k entries with
           | Some v => Some v
           | None => storage_getItem k (page_session (chrome st))
           end
         /\ obj_get k (sessionStorage (data (this st'))) =
              if decide (k = str "__proto__") then None
              else storage_getItem k (page_session (chrome st')))
      /\ (merge = false ->
          (forall k, k ∈ Object_keys (page_session (chrome st)) ->
                     k ∈ Object_keys (sessionStorage (data (this st)))) ->
          forall k,
            storage_getItem k (page_session (chrome st')) = last_entry k entries
            /\ obj_get k (sessionStorage (data (this st'))) =
                 if decide (k = str "__proto__") then None else last_entry k entries)).
Proof.
  intros st'. subst st'. split; [apply confirmImport_calls|].
  split; intros Hb entries Hf;
    destruct (confirmImport_stores importData merge st Hb) as [HL HS];
    cbv zeta in HL, HS; rewrite Hf in *.
  - split.
    + intros ->. exact HL.
    + intros -> Hsync k. destruct (HL k) as [H1 H2]. rewrite H2, H1.
      assert (match last_entry k entries with
              | Some v => Some v
              | None =>
                  if bool_decide (k ∈ Object_keys (localStorage (data (this st))))
                  then None else storage_getItem k (page_local (chrome st))
              end = last_entry k entries) as ->; [|done].
      destruct (last_entry k entries); [done|]. case_bool_decide as Hin; [done|].
      apply obj_get_None_keys. intros Hk. apply Hin, Hsync, Hk.
  - split.
    + intros ->. exact HS.
    + intros -> Hsync k. destruct (HS k) as [H1 H2]. rewrite H2, H1.
      assert (match last_entry k entries with
              | Some v => Some v
              | None =>
                  if bool_decide (k ∈ Object_keys (sessionStorage (data (this st))))
                  then None else storage_getItem k (page_session (chrome st))
              end = last_entry k entries) as ->; [|done].
      destruct (last_entry k entries); [done|]. case_bool_decide as Hin; [done|].
      apply obj_get_None_keys. intros Hk. apply Hin, Hsync, Hk.
Qed.

End BulkImport.

(** C4: for each field that the file has, a replacing import asks for the
    removal of every mirrored entry of that kind, one call each, and then
    for the writing of every entry of the field, one call each; a merging
    import asks for the writes only.  With every call fulfilled, merging
    leaves each key of a key-value store with the last value the file
    gives it, or else the value it had; replacing a store whose keys were
    all mirrored leaves exactly the entries of the file; and the mirror,
    which is loaded again, has what the store has, but for the key
    [__proto__], which it never has.  So importing [{b: 2}] over [{a: 1}]
    gives [{a: 1, b: 2}] when merging and [{b: 2}] when replacing. *)
Theorem confirmImport_replace_or_merge :
  (forall (J : Type) (CS : CookieStore J) (importData : ImportData.t) (merge : bool)
          (st : State J),
     let st' := exec (confirmImport importData merge) st in
     mutations (calls (chrome st')) =
       mutations (calls (chrome st))
       ++ webStorage_calls (str "localStorage") (ImportData.localStorage importData)
            merge (localStorage (data (this st)))
       ++ webStorage_calls (str "sessionStorage") (ImportData.sessionStorage importData)
            merge (sessionStorage (data (this st)))
       ++ cookie_calls (currentUrl (this st)) (ImportData.cookies importData)
            merge (cookies (data (this st)))
     /\ (all_fulfilled (chrome st) ->
         forall entries, ImportData.localStorage importData = Some entries ->
         (merge = true ->
          forall k,
            storage_getItem k (page_local (chrome st')) =
              match last_entry k entries with
              | Some v => Some v
              | None => storage_getItem k (page_local (chrome st))
              end
            /\ obj_get k (localStorage (data (this st'))) =
                 if decide (k = str "__proto__") then None
                 else storage_getItem k (page_local (chrome st')))
         /\ (merge = false ->
             (forall k, k ∈ Object_keys (page_local (chrome st)) ->
                        k ∈ Object_keys (localStorage (data (this st)))) ->
             forall k,
               storage_getItem k (page_local (chrome st')) = last_entry k entries
               /\ obj_get k (localStorage (data (this st'))) =
                    if decide (k = str "__proto__") then None else last_entry k entries))
     /\ (all_fulfilled (chrome st) ->
         forall entries, ImportData.sessionStorage importData = Some entries ->
         (merge = true ->
          forall k,
            storage_getItem k (page_session (chrome st')) =
              match last_entry k entries with
              | Some v => Some v
              | None => storage_getItem k (page_session (chrome st))
              end
            /\ obj_get k (sessionStorage (data (this st'))) =
                 if decide (k = str "__proto__") then None
                 else storage_getItem k (page_session (chrome st')))
         /\ (merge = false ->
             (forall k, k ∈ Object_keys (page_session (chrome st)) ->
                        k ∈ Object_keys (sessionStorage (data (this st)))) ->
             forall k,
               storage_getItem k (page_session (chrome st')) = last_entry k entries
               /\ obj_get k (sessionStorage (data (this st'))) =
                    if decide (k = str "__proto__") then None else last_entry k entries)))
  /\ (let merged := exec (confirmImport import_b2 true) (page_a1 []) in
      let replaced := exec (confirmImport import_b2 false) (page_a1 []) in
      page_local (chrome merged) = [(str "a", str "1"); (str "b", str "2")]
      /\ localStorage (data (this merged)) = [(str "a", str "1"); (str "b", str "2")]
      /\ page_local (chrome replaced) = [(str "b", str "2")]
      /\ localStorage (data (this replaced)) = [(str "b", str "2")]
      /\ mutations (calls (chrome merged)) =
           [ExecSetItem (str "localStorage") (str "b") (str "2")]
      /\ mutations (calls (chrome replaced)) =
           [ExecRemoveItem (str "localStorage") (str "a");
            ExecSetItem (str "localStorage") (str "b") (str "2")]).
Proof.
  split.
  - intros J CS importData merge st. apply confirmImport_effect.
  - vm_compute. repeat split.
Qed.

Lemma confirmImport_replace_or_merge_witness :
  storage_getItem (str "a")
    (page_local (chrome (exec (confirmImport import_b2 false) (page_a1 []))))
    = last_entry (str "a") [(str "b", str "2")]
  /\ obj_get (str "a")
       (localStorage (data (this (exec (confirmImport import_b2 false) (page_a1 [])))))
     = last_entry (str "a") [(str "b", str "2")].
Proof.
  apply (proj2 (proj1 (proj2 (proj1 confirmImport_replace_or_merge
    (list Details.t) sample_store import_b2 false (page_a1 []))) (Forall_nil _)
    [(str "b", str "2")] eq_refl) eq_refl).
  intros k Hk. exact Hk.
Defined.

(** C5 does not hold of the code: the number in the closing toast is the
    number of entries of the file, whatever became of the writes.  With the
    one write rejected, nothing is stored and the toast still says
    [Imported 1 items]. *)
Theorem confirmImport_counts_attempts :
  (forall (J : Type) (CS : CookieStore J) (importData : ImportData.t) (merge : bool)
          (st : State J),
     toasts (chrome (exec (confirmImport importData merge) st)) =
       toasts (chrome st) ++ [imported_toast (attempted importData)])
  /\ (let st' := exec (confirmImport import_b2 true) (page_a1 [Rejected]) in
      page_local (chrome st') = [(str "a", str "1")]
      /\ localStorage (data (this st')) = [(str "a", str "1")]
      /\ eval (setWebStorageItem (str "localStorage") (str "b") (str "2"))
           (page_a1 [Rejected]) = false
      /\ toasts (chrome st') = [(str "Imported 1 items", str "success")]).
Proof.
  split.
  - intros J CS importData merge st.
    destruct (confirmImport_run importData merge st) as [C _]. cbv zeta in C.
    rewrite C. cbn [toasts add_toast made]. f_equal. unfold after_import.
    destruct (after_cookies_frame (currentUrl (this st)) (ImportData.cookies importData)
      merge (cookies (data (this st)))
      (after_webStorage (str "sessionStorage")
         (ImportData.sessionStorage importData) merge (sessionStorage (data (this st)))
         (after_webStorage (str "localStorage")
            (ImportData.localStorage importData) merge (localStorage (data (this st)))
            (chrome st)))) as (_ & A & _).
    cbv zeta in A. rewrite A.
    destruct (after_webStorage_calls (str "sessionStorage")
      (ImportData.sessionStorage importData) merge (sessionStorage (data (this st)))
      (after_webStorage (str "localStorage")
         (ImportData.localStorage importData) merge (localStorage (data (this st)))
         (chrome st))) as [_ B].
    destruct (after_webStorage_calls (str "localStorage")
      (ImportData.localStorage importData) merge (localStorage (data (this st)))
      (chrome st)) as [_ B'].
    rewrite B, B'. reflexivity.
  - vm_compute. repeat split.
Qed.

(** ** Decimal numerals *)

Lemma is_digit_cases (c : N) :
  is_digit c = true ->
  c = 48 \/ c = 49 \/ c = 50 \/ c = 51 \/ c = 52 \/ c = 53 \/ c = 54 \/ c = 55
  \/ c = 56 \/ c = 57.
Proof.
  unfold is_digit. rewrite andb_true_iff, !N.leb_le. lia.
Qed.

Lemma uint_units_digits (u : Decimal.uint) : forallb is_digit (uint_units u) = true.
Proof. induction u; simpl; auto. Qed.

Lemma uint_units_of_units (s : jsstring) :
  forallb is_digit s = true -> uint_units (units_uint s) = s.
Proof.
  induction s as [|c s IH]; simpl; [done|].
  rewrite andb_true_iff. intros [Hc Hs].
  destruct (is_digit_cases c Hc) as [->|[->|[->|[->|[->|[->|[->|[->|[->| ->]]]]]]]]];
    simpl; by rewrite IH.
Qed.

Lemma digits_value_acc (u : Decimal.uint) (a : N) (p : positive) :
  a = Npos p -> digits_value a (uint_units u) = Npos (Pos.of_uint_acc u p).
Proof.
  revert a p. induction u; intros a p ->; simpl; [done|..]; apply IHu; lia.
Qed.

Lemma digits_value_of_uint (u : Decimal.uint) :
  digits_value 0 (uint_units u) = N.of_uint u.
Proof.
  induction u; simpl; [done | exact IHu | ..]; apply digits_value_acc; lia.
Qed.

Lemma decimal_value (n : N) : digits_value 0 (decimal n) = n.
Proof.
  unfold decimal. rewrite digits_value_of_uint. apply DecimalN.Unsigned.of_to.
Qed.

Lemma decimal_digits (n : N) : forallb is_digit (decimal n) = true.
Proof. apply uint_units_digits. Qed.

Lemma uint_units_nzhead (u : Decimal.uint) :
  uint_units (Decimal.nzhead u) = strip_leading_zeros (uint_units u).
Proof. induction u; simpl; auto. Qed.

Lemma strip_leading_zeros_length (s : jsstring) :
  (length (strip_leading_zeros s) <= length s)%nat.
Proof.
  induction s as [|c s IH]; simpl; [lia|]. destruct (c =? 48); simpl; lia.
Qed.

(** The numeral of the value of a digit string is the string without its
    leading zeros. *)
Lemma decimal_of_digits (s : jsstring) :
  forallb is_digit s = true -> digits_value 0 s <> 0 ->
  decimal (digits_value 0 s) = strip_leading_zeros s.
Proof.
  intros Hd Hn. rewrite <- (uint_units_of_units s Hd) in *.
  rewrite digits_value_of_uint in *. unfold decimal.
  rewrite DecimalN.Unsigned.to_of, <- uint_units_nzhead.
  rewrite DecimalFacts.unorm_nzhead; [done|].
  intros Hnil. apply Hn.
  rewrite <- DecimalN.Unsigned.of_uint_norm. unfold Decimal.unorm.
  rewrite Hnil. reflexivity.
Qed.

Lemma decimal_nonempty (n : N) : decimal n <> [].
Proof.
  destruct n as [|p]; [done|].
  intros Hnil. pose proof (decimal_value (Npos p)) as Hv.
  rewrite Hnil in Hv. done.
Qed.

Lemma decimal_no_leading_zero (n : N) :
  n <> 0 -> strip_leading_zeros (decimal n) = decimal n.
Proof.
  intros Hn. rewrite <- (decimal_value n) at 2.
  symmetry. apply decimal_of_digits; [apply decimal_digits|].
  by rewrite decimal_value.
Qed.

Lemma decimal_head (n : N) :
  n <> 0 -> exists c r, decimal n = c :: r /\ c <> "0"%cu /\ is_digit c = true.
Proof.
  intros Hn. pose proof (decimal_no_leading_zero n Hn) as Hs.
  pose proof (decimal_digits n) as Hd.
  destruct (decimal n) as [|c r] eqn:E; [by apply decimal_nonempty in E|].
  exists c, r. simpl in Hs, Hd. apply andb_true_iff in Hd as [Hc _].
  repeat split; [|done]. intros ->. simpl in Hs.
  pose proof (strip_leading_zeros_length r) as Hl. rewrite Hs in Hl. simpl in Hl. lia.
Qed.

(** *** Trailing zeros *)

Lemma strip_trailing_zeros_app (a b : jsstring) :
  strip_trailing_zeros (a ++ b) =
    match strip_trailing_zeros b with
    | [] => strip_trailing_zeros a
    | b' => a ++ b'
    end.
Proof.
  induction a as [|c a IH]; simpl.
  - by destruct (strip_trailing_zeros b).
  - rewrite IH. destruct (strip_trailing_zeros b); [done|].
    by destruct a.
Qed.

Lemma strip_trailing_zeros_repeat (n : nat) :
  strip_trailing_zeros (repeat "0"%cu n) = [].
Proof. induction n as [|n IH]; simpl; [done|]. by rewrite IH. Qed.

Lemma strip_trailing_zeros_idem (s : jsstring) :
  strip_trailing_zeros (strip_trailing_zeros s) = strip_trailing_zeros s.
Proof.
  induction s as [|c s IH]; simpl; [done|].
  destruct (strip_trailing_zeros s) as [|c' s'] eqn:E.
  - destruct (c =? 48) eqn:Ec; simpl; [done|]. by rewrite Ec.
  - simpl in *. by rewrite IH.
Qed.

Lemma strip_trailing_zeros_digits (s : jsstring) :
  forallb is_digit s = true -> forallb is_digit (strip_trailing_zeros s) = true.
Proof.
  induction s as [|c s IH]; simpl; [done|].
  rewrite andb_true_iff. intros [Hc Hs]. specialize (IH Hs).
  destruct (strip_trailing_zeros s); simpl in *.
  - destruct (c =? 48); simpl; [done|]. by rewrite Hc.
  - by rewrite Hc.
Qed.

Lemma strip_trailing_zeros_tail (c : N) (r : jsstring) :
  strip_trailing_zeros (c :: r) = c :: r -> r <> [] -> strip_trailing_zeros r = r.
Proof.
  simpl. destruct (strip_trailing_zeros r) as [|c' r'] eqn:E.
  - destruct (c =? 48); [done|]. intros [= <-]. done.
  - intros [= <-]. done.
Qed.

Lemma strip_trailing_zeros_leading (s : jsstring) :
  strip_trailing_zeros s = s -> strip_leading_zeros s <> [] ->
  strip_trailing_zeros (strip_leading_zeros s) = strip_leading_zeros s.
Proof.
  induction s as [|c s IH]; [done|]. intros Hs Hne.
  cbn [strip_leading_zeros] in *. destruct (c =? 48); [|done].
  apply IH; [|done]. apply (strip_trailing_zeros_tail c); [done|].
  intros ->. done.
Qed.

Lemma strip_trailing_zeros_length (s : jsstring) :
  (length (strip_trailing_zeros s) <= length s)%nat.
Proof.
  induction s as [|c s IH]; simpl; [lia|].
  destruct (strip_trailing_zeros s); simpl in *; [destruct (c =? 48); simpl; lia | lia].
Qed.

(** *** Leading zeros do not change the value *)

Lemma digits_value_leading_zeros (n : nat) (s : jsstring) :
  digits_value 0 (repeat "0"%cu n ++ s) = digits_value 0 s.
Proof. induction n as [|n IH]; simpl; [done|]. exact IH. Qed.

(** *** The run of digits at the head of a string *)

Lemma span_digits_app (ds rest : jsstring) :
  forallb is_digit ds = true -> no_digit_head rest ->
  span_digits (ds ++ rest) = (ds, rest).
Proof.
  intros Hd Hr. induction ds as [|c ds IH]; simpl in *.
  - destruct rest as [|c r]; simpl in *; [done|]. by rewrite Hr.
  - apply andb_true_iff in Hd as [Hc Hd]. rewrite Hc, (IH Hd). done.
Qed.

Lemma span_digits_digits (s ds rest : jsstring) :
  span_digits s = (ds, rest) -> forallb is_digit ds = true.
Proof.
  revert ds rest. induction s as [|c s IH]; intros ds rest; simpl.
  - by intros [= <- <-].
  - destruct (is_digit c) eqn:Ec.
    + destruct (span_digits s) as [ds' r'] eqn:E. intros [= <- <-]. simpl.
      rewrite Ec. by eapply IH.
    + by intros [= <- <-].
Qed.

(** *** Rounding to a double *)

Lemma digits_value_stripped (sig : jsstring) :
  forallb is_digit sig = true ->
  strip_trailing_zeros sig = sig ->
  digits_value 0 sig <> 0 ->
  strip_trailing_zeros (decimal (digits_value 0 sig)) = decimal (digits_value 0 sig).
Proof.
  intros Hd Hs Hn. rewrite decimal_of_digits by done.
  apply strip_trailing_zeros_leading; [done|].
  rewrite <- decimal_of_digits by done. apply decimal_nonempty.
Qed.

Lemma normalize_stripped (s : N) (q : Z) :
  fst (normalize s q) <> 0 ->
  strip_trailing_zeros (decimal (fst (normalize s q))) = decimal (fst (normalize s q)).
Proof.
  unfold normalize. cbn [fst]. intros Hn. apply digits_value_stripped; [| |done].
  - apply strip_trailing_zeros_digits, decimal_digits.
  - apply strip_trailing_zeros_idem.
Qed.

Lemma to_double_finite (m : N) (e M E : Z) :
  to_double m e = DFinite M E ->
  m <> 0 /\ underflows m e = false /\ overflows m e = false.
Proof.
  unfold to_double. destruct (m =? 0) eqn:E0; [done|]. cbn [orb].
  destruct (underflows m e); [done|]. destruct (overflows m e); [done|].
  intros _. by apply N.eqb_neq in E0.
Qed.

Lemma to_double_in_range (m : N) (e : Z) :
  m <> 0 -> underflows m e = false -> overflows m e = false ->
  exists M E, to_double m e = DFinite M E.
Proof.
  intros Hm Hu Ho. unfold to_double.
  apply N.eqb_neq in Hm. rewrite Hm, Hu, Ho. cbn [orb]. by eexists _, _.
Qed.

Lemma rounds_to_double (M E : Z) (c : N * Z) :
  rounds_to M E c = true -> to_double (fst c) (snd c) = DFinite M E.
Proof.
  unfold rounds_to. destruct (to_double _ _) as [| |M' E']; try done.
  rewrite andb_true_iff, !Z.eqb_eq. by intros [-> ->].
Qed.

Lemma shortest_candidates_stripped (M E k : Z) (c : N * Z) :
  In c (shortest_candidates M E k) -> fst c <> 0 ->
  strip_trailing_zeros (decimal (fst c)) = decimal (fst c).
Proof.
  unfold shortest_candidates. rewrite in_map_iff.
  intros (s & <- & _). apply normalize_stripped.
Qed.

(** What [shortest] finds is a decimal without trailing zeros that the
    double is the nearest to. *)
Lemma shortest_rounds (M E : Z) (c : N * Z) :
  shortest M E = Some c ->
  to_double (fst c) (snd c) = DFinite M E
  /\ strip_trailing_zeros (decimal (fst c)) = decimal (fst c).
Proof.
  unfold shortest. intros H. apply find_some in H as [Hin Hr].
  apply rounds_to_double in Hr. split; [done|].
  apply in_flat_map in Hin as (k & _ & Hin).
  eapply shortest_candidates_stripped; [done|].
  by destruct (to_double_finite _ _ _ _ Hr).
Qed.

(** The decimal written for a double is written for itself again: a
    number is rounded once. *)
Lemma round_decimal_fixed (m : N) (e : Z) :
  m <> 0 ->
  strip_trailing_zeros (decimal m) = decimal m ->
  underflows m e = false -> overflows m e = false ->
  let d := round_decimal m e in
  fst d <> 0
  /\ strip_trailing_zeros (decimal (fst d)) = decimal (fst d)
  /\ underflows (fst d) (snd d) = false
  /\ overflows (fst d) (snd d) = false
  /\ round_decimal (fst d) (snd d) = d.
Proof.
  intros Hm Hs Hu Ho d. subst d.
  destruct (to_double_in_range m e Hm Hu Ho) as (M & E & Hd).
  assert (Heq : round_decimal m e = default (m, e) (shortest M E)).
  { unfold round_decimal. by rewrite Hd. }
  rewrite Heq. clear Heq.
  destruct (shortest M E) as [c|] eqn:Hc; cbn [default].
  - destruct (shortest_rounds M E c Hc) as [Hr Hst].
    destruct (to_double_finite _ _ _ _ Hr) as (? & ? & ?).
    do 4 (split; [done|]). unfold id.
    unfold round_decimal. rewrite Hr, Hc. by destruct c.
  - cbn [fst snd]. do 4 (split; [done|]).
    unfold round_decimal. by rewrite Hd, Hc.
Qed.

(** Literals and the doubles they are read as: one that is a double as
    it is, one that needs seventeen digits, the least and the greatest
    doubles, a tie that goes to the even double, and a long integer. *)
Example literals_as_doubles :
  map (fun ds => make_number false (str ds) 0)
    ["1"; "30000000000000004"; "9007199254740993"; "18014398509481985";
     "123456789012345678901234567890"]%string
  = [Finite 1 0; Finite 30000000000000004 0; Finite 9007199254740992 0;
     Finite 18014398509481984 0; Finite 12345678901234568 13]
  /\ make_number false (str "30000000000000004") (-17) = Finite 30000000000000004 (-17)
  /\ make_number false (str "3") (-324) = Finite 5 (-324)
  /\ make_number false (str "2") (-324) = Finite 0 0
  /\ make_number false (str "17976931348623158") 292 = Finite 17976931348623157 292
  /\ make_number true (str "17976931348623159") 292 = Infinite true.
Proof. vm_compute. repeat split. Qed.

(** *** Numbers from literals are canonical *)

Lemma make_number_canonical (neg : bool) (ds : jsstring) (e : Z) :
  forallb is_digit ds = true -> canonical (make_number neg ds e).
Proof.
  intros Hd. unfold make_number.
  set (sig := strip_trailing_zeros ds).
  set (e' := (e + Z.of_nat (length ds - length sig))%Z).
  destruct (digits_value 0 sig =? 0) eqn:E0; [destruct neg; constructor|].
  apply N.eqb_neq in E0. cbn [orb].
  destruct (underflows _ _) eqn:Eu; [destruct neg; constructor|].
  destruct (overflows _ _) eqn:Eo; [constructor|].
  assert (Hst : strip_trailing_zeros (decimal (digits_value 0 sig))
                = decimal (digits_value 0 sig)).
  { apply digits_value_stripped.
    - subst sig. auto using strip_trailing_zeros_digits.
    - apply strip_trailing_zeros_idem.
    - done. }
  destruct (round_decimal_fixed _ _ E0 Hst Eu Eo) as (H0 & H1 & H2 & H3 & H4).
  set (d := round_decimal (digits_value 0 sig) e') in *.
  assert (Habs : Z.abs_N (if neg then (- Z.of_N (fst d))%Z else Z.of_N (fst d)) = fst d).
  { destruct neg; lia. }
  constructor; rewrite ?Habs; try done.
  - destruct neg; lia.
  - by destruct d.
Qed.

(** ** Reading back a printed number *)

Lemma terminated_no_digit (rest : jsstring) : terminated rest -> no_digit_head rest.
Proof. destruct rest as [|c r]; [done|]. simpl. intros [->|[->| ->]]; reflexivity. Qed.

Lemma parse_frac_none (rest : jsstring) :
  match rest with c :: _ => c <> "."%cu | [] => True end ->
  parse_frac rest = Some ([], rest).
Proof.
  destruct rest as [|c r]; [done|]. simpl. intros Hc.
  apply N.eqb_neq in Hc. by rewrite Hc.
Qed.

Lemma parse_frac_some (fr rest : jsstring) :
  fr <> [] -> forallb is_digit fr = true -> no_digit_head rest ->
  parse_frac ("."%cu :: fr ++ rest) = Some (fr, rest).
Proof.
  intros Hne Hd Hr. simpl. rewrite span_digits_app by done.
  by destruct fr.
Qed.

Lemma parse_exp_none (rest : jsstring) :
  match rest with c :: _ => c <> "e"%cu /\ c <> "E"%cu | [] => True end ->
  parse_exp rest = Some (0%Z, rest).
Proof.
  destruct rest as [|c r]; [done|]. simpl. intros [H1 H2].
  apply N.eqb_neq in H1, H2. by rewrite H1, H2.
Qed.

Lemma parse_exp_some (x : Z) (rest : jsstring) :
  no_digit_head rest ->
  parse_exp ("e"%cu :: (if (x <? 0)%Z then "-"%cu else "+"%cu)
               :: decimal (Z.abs_N x) ++ rest) = Some (x, rest).
Proof.
  intros Hr. cbn [parse_exp N.eqb Pos.eqb orb].
  assert (Hs : span_digits (decimal (Z.abs_N x) ++ rest) = (decimal (Z.abs_N x), rest)).
  { apply span_digits_app; [apply decimal_digits | done]. }
  destruct (x <? 0)%Z eqn:Ex.
  - cbn [N.eqb Pos.eqb]. rewrite Hs.
    destruct (decimal (Z.abs_N x)) eqn:E; [by apply decimal_nonempty in E|].
    rewrite <- E, decimal_value. f_equal. f_equal. lia.
  - cbn [N.eqb Pos.eqb]. rewrite Hs.
    destruct (decimal (Z.abs_N x)) eqn:E; [by apply decimal_nonempty in E|].
    rewrite <- E, decimal_value. f_equal. f_equal. lia.
Qed.

Lemma parse_int_digits (c : N) (r rest : jsstring) :
  c <> "0"%cu -> forallb is_digit (c :: r) = true -> no_digit_head rest ->
  parse_int ((c :: r) ++ rest) = Some (c :: r, rest).
Proof.
  intros Hc Hd Hr. cbn [parse_int app].
  apply N.eqb_neq in Hc. rewrite Hc.
  pose proof Hd as Hd'. cbn [forallb] in Hd'. apply andb_true_iff in Hd' as [-> _].
  f_equal. apply (span_digits_app (c :: r)); done.
Qed.

(** A literal read part by part. *)
Lemma parse_number_parts (neg : bool) (s1 s2 s3 s4 int frac : jsstring) (ex : Z) :
  parse_int s1 = Some (int, s2) ->
  parse_frac s2 = Some (frac, s3) ->
  parse_exp s3 = Some (ex, s4) ->
  parse_number ((if neg then str "-" else []) ++ s1) =
    Some (make_number neg (int ++ frac) (ex - Z.of_nat (length frac)), s4).
Proof.
  intros H1 H2 H3. unfold parse_number. destruct neg.
  - change (str "-" ++ s1) with ("-"%cu :: s1).
    cbn [N.eqb Pos.eqb].
    rewrite H1. simpl. rewrite H2. simpl. rewrite H3. reflexivity.
  - cbn [app].
    assert (Hs : match s1 with
                 | c :: r => if c =? "-"%cu then (true, r) else (false, s1)
                 | [] => (false, s1)
                 end = (false, s1)).
    { destruct s1 as [|c r]; [done|]. destruct (c =? "-"%cu) eqn:E; [|done].
      apply N.eqb_eq in E. subst c. discriminate H1. }
    rewrite Hs, H1. simpl. rewrite H2. simpl. rewrite H3. reflexivity.
Qed.

(** The number that digits with the value and the exponent of a canonical
    number make. *)
Lemma make_number_finite (ds : jsstring) (ex m e : Z) :
  canonical (Finite m e) -> m <> 0%Z ->
  digits_value 0 (strip_trailing_zeros ds) = Z.abs_N m ->
  (ex + Z.of_nat (length ds - length (strip_trailing_zeros ds)))%Z = e ->
  make_number (m <? 0)%Z ds ex = Finite m e.
Proof.
  intros Hc Hm Hv He. inversion Hc as [| |m' e' _ _ Hu Ho Hr|]; subst; [done|].
  unfold make_number. rewrite Hv.
  destruct (Z.abs_N m =? 0) eqn:E0; [apply N.eqb_eq in E0; lia|].
  rewrite Hu, Ho, Hr. cbn [orb fst snd]. f_equal. destruct (m <? 0)%Z eqn:Es; lia.
Qed.

Lemma forallb_firstn {A} (f : A -> bool) (n : nat) (l : list A) :
  forallb f l = true -> forallb f (firstn n l) = true.
Proof.
  revert n. induction l as [|x l IH]; intros [|n]; simpl; try done.
  rewrite !andb_true_iff. intros [? ?]. auto.
Qed.

Lemma forallb_skipn {A} (f : A -> bool) (n : nat) (l : list A) :
  forallb f l = true -> forallb f (skipn n l) = true.
Proof.
  revert n. induction l as [|x l IH]; intros [|n]; simpl; try done.
  rewrite !andb_true_iff. intros [? ?]. auto.
Qed.

Lemma forallb_repeat_zero (n : nat) : forallb is_digit (repeat "0"%cu n) = true.
Proof. induction n; simpl; auto. Qed.

Lemma terminated_head (rest : jsstring) :
  terminated rest ->
  match rest with c :: _ => c <> "."%cu | [] => True end
  /\ match rest with c :: _ => c <> "e"%cu /\ c <> "E"%cu | [] => True end.
Proof.
  destruct rest as [|c r]; [done|]. simpl. intros [->|[->| ->]]; done.
Qed.

(** A canonical finite number is read back from its numeral, before
    anything that does not continue a numeral. *)
Lemma parse_number_toString_before (m e : Z) (rest : jsstring) :
  canonical (Finite m e) -> number_end rest ->
  parse_number (Number_toString (Finite m e) ++ rest) = Some (Finite m e, rest).
Proof.
  intros Hc (Hnd & Hdot & Hexp).
  destruct (decide (m = 0%Z)) as [->|Hm].
  { inversion Hc; subst; [|done].
    change (Number_toString (Finite 0 0) ++ rest) with ([] ++ "0"%cu :: rest).
    rewrite (parse_number_parts false ("0"%cu :: rest) rest rest rest ["0"%cu] [] 0);
      [reflexivity | reflexivity | by apply parse_frac_none | by apply parse_exp_none]. }
  assert (Hstz : strip_trailing_zeros (decimal (Z.abs_N m)) = decimal (Z.abs_N m))
    by (by inversion Hc).
  pose proof (decimal_digits (Z.abs_N m)) as Hdig.
  pose proof (decimal_value (Z.abs_N m)) as Hval.
  destruct (decimal_head (Z.abs_N m)) as (c & r & Ed & Hc0 & Hcd); [lia|].
  cbn [Number_toString]. rewrite (proj2 (Z.eqb_neq m 0) Hm).
  set (digits := decimal (Z.abs_N m)) in *.
  set (k := Z.of_nat (length digits)).
  set (n := (e + k)%Z).
  rewrite <- app_assoc.
  assert (Hk : (1 <= k)%Z) by (subst k; rewrite Ed; simpl; lia).
  destruct ((k <=? n)%Z && (n <=? 21)%Z) eqn:EA.
  { (* digits followed by zeros *)
    apply andb_true_iff in EA as [Hkn _]. apply Z.leb_le in Hkn.
    set (z := Z.to_nat (n - k)).
    rewrite (parse_number_parts (m <? 0)%Z ((digits ++ repeat "0"%cu z) ++ rest)
      rest rest rest (digits ++ repeat "0"%cu z) [] 0).
    - f_equal. f_equal. apply make_number_finite; [done..| |].
      + rewrite app_nil_r, strip_trailing_zeros_app, strip_trailing_zeros_repeat.
        by rewrite Hstz.
      + rewrite app_nil_r, strip_trailing_zeros_app, strip_trailing_zeros_repeat, Hstz.
        rewrite length_app, repeat_length. simpl. subst z n. lia.
    - rewrite Ed. cbn [app]. apply (parse_int_digits c (r ++ repeat "0"%cu z)); [done| |done].
      rewrite Ed in Hdig. cbn [forallb] in *. apply andb_true_iff in Hdig as [-> Hr'].
      rewrite forallb_app, Hr', forallb_repeat_zero. done.
    - by apply parse_frac_none.
    - by apply parse_exp_none. }
  destruct ((0 <? n)%Z && (n <=? 21)%Z) eqn:EB.
  { (* a point inside the digits *)
    apply andb_true_iff in EB as [Hn0 Hn21]. apply Z.ltb_lt in Hn0.
    rewrite Hn21, andb_true_r in EA. apply Z.leb_gt in EA.
    set (n' := Z.to_nat n).
    assert (Hn' : (0 < n' < length digits)%nat) by (subst n' k; lia).
    rewrite <- app_assoc. cbn [app].
    rewrite (parse_number_parts (m <? 0)%Z
      (firstn n' digits ++ "."%cu :: skipn n' digits ++ rest)
      ("."%cu :: skipn n' digits ++ rest) rest rest (firstn n' digits) (skipn n' digits) 0).
    - f_equal. f_equal. rewrite firstn_skipn. apply make_number_finite; [done..| |].
      + by rewrite Hstz.
      + rewrite Hstz, length_skipn. subst n n' k. lia.
    - rewrite Ed. destruct n' as [|n'']; [lia|]. cbn [firstn app].
      apply (parse_int_digits c (firstn n'' r)); [done| |reflexivity].
      rewrite Ed in Hdig. cbn [forallb] in *. apply andb_true_iff in Hdig as [-> Hr'].
      by rewrite forallb_firstn.
    - apply parse_frac_some; [|by apply forallb_skipn|done].
      intros Hnil. apply (f_equal (@length N)) in Hnil.
      rewrite length_skipn in Hnil. simpl in Hnil. lia.
    - by apply parse_exp_none. }
  destruct ((-6 <? n)%Z && (n <=? 0)%Z) eqn:EC.
  { (* a zero and a point before the digits *)
    apply andb_true_iff in EC as [_ Hn0]. apply Z.leb_le in Hn0.
    set (z := Z.to_nat (- n)).
    change (str "0.") with ["0"%cu; "."%cu]. rewrite <- !app_assoc. cbn [app].
    rewrite (parse_number_parts (m <? 0)%Z
      ("0"%cu :: "."%cu :: repeat "0"%cu z ++ digits ++ rest)
      ("."%cu :: repeat "0"%cu z ++ digits ++ rest) rest rest ["0"%cu]
      (repeat "0"%cu z ++ digits) 0).
    - f_equal. f_equal. cbn [app].
      change ("0"%cu :: repeat "0"%cu z ++ digits) with (repeat "0"%cu (S z) ++ digits).
      assert (Hsa : strip_trailing_zeros (repeat "0"%cu (S z) ++ digits) =
                    repeat "0"%cu (S z) ++ digits).
      { rewrite strip_trailing_zeros_app, Hstz, Ed. reflexivity. }
      apply make_number_finite; [done..| |]; rewrite Hsa.
      + by rewrite digits_value_leading_zeros.
      + rewrite !length_app, repeat_length. subst z n k. lia.
    - reflexivity.
    - rewrite app_assoc. apply parse_frac_some; [|
        by rewrite forallb_app, forallb_repeat_zero, Hdig | done].
      rewrite Ed. by destruct z.
    - by apply parse_exp_none. }
  (* the exponent form *)
  set (x := (n - 1)%Z).
  rewrite Ed. destruct r as [|c' r'].
  - cbn [app].
    rewrite (parse_number_parts (m <? 0)%Z
      (c :: "e"%cu :: (if (x <? 0)%Z then "-"%cu else "+"%cu)
         :: decimal (Z.abs_N x) ++ rest)
      ("e"%cu :: (if (x <? 0)%Z then "-"%cu else "+"%cu) :: decimal (Z.abs_N x) ++ rest)
      ("e"%cu :: (if (x <? 0)%Z then "-"%cu else "+"%cu) :: decimal (Z.abs_N x) ++ rest)
      rest [c] [] x).
    + f_equal. f_equal. rewrite app_nil_r.
      fold digits in Ed. rewrite <- Ed.
      apply make_number_finite; [done..| |].
      * by rewrite Hstz.
      * rewrite Hstz. subst x n k. rewrite Ed. simpl. lia.
    + apply (parse_int_digits c []); [done| |reflexivity].
      cbn [forallb]. by rewrite Hcd.
    + by apply parse_frac_none.
    + by apply parse_exp_some.
  - cbn [app]. rewrite <- app_assoc. cbn [app].
    rewrite (parse_number_parts (m <? 0)%Z
      (c :: "."%cu :: c' :: r' ++ "e"%cu
         :: (if (x <? 0)%Z then "-"%cu else "+"%cu) :: decimal (Z.abs_N x) ++ rest)
      ("."%cu :: c' :: r' ++ "e"%cu
         :: (if (x <? 0)%Z then "-"%cu else "+"%cu) :: decimal (Z.abs_N x) ++ rest)
      ("e"%cu :: (if (x <? 0)%Z then "-"%cu else "+"%cu) :: decimal (Z.abs_N x) ++ rest)
      rest [c] (c' :: r') x).
    + f_equal. f_equal. cbn [app]. fold digits in Ed. rewrite <- Ed.
      apply make_number_finite; [done..| |].
      * by rewrite Hstz.
      * rewrite Hstz. subst x n k. rewrite Ed. simpl. lia.
    + apply (parse_int_digits c []); [done| |reflexivity].
      cbn [forallb]. by rewrite Hcd.
    + apply (parse_frac_some (c' :: r')); [done| |reflexivity].
      fold digits in Ed. rewrite Ed in Hdig. cbn [forallb] in Hdig.
      apply andb_true_iff in Hdig as [_ Hr']. exact Hr'.
    + by apply parse_exp_some.
Qed.

Lemma parse_number_toString (m e : Z) (rest : jsstring) :
  canonical (Finite m e) -> terminated rest ->
  parse_number (Number_toString (Finite m e) ++ rest) = Some (Finite m e, rest).
Proof.
  intros Hc Hr. apply parse_number_toString_before; [done|].
  destruct (terminated_head rest Hr) as [Hdot Hexp].
  split; [by apply terminated_no_digit | done].
Qed.

(** ** Reading back a quoted string *)

Lemma hex_value_digit (a : N) : a < 16 -> hex_value (hex_digit a) = Some a.
Proof.
  intros Ha.
  assert (a = 0 \/ a = 1 \/ a = 2 \/ a = 3 \/ a = 4 \/ a = 5 \/ a = 6 \/ a = 7
          \/ a = 8 \/ a = 9 \/ a = 10 \/ a = 11 \/ a = 12 \/ a = 13 \/ a = 14
          \/ a = 15) as H by lia.
  repeat (destruct H as [->|H]; [reflexivity|]). subst. reflexivity.
Qed.

Lemma hex4_value (c : N) :
  c < 65536 ->
  (c / 4096 mod 16) * 4096 + (c / 256 mod 16) * 256 + (c / 16 mod 16) * 16 + c mod 16 = c.
Proof.
  intros Hc.
  pose proof (N.div_mod c 16 ltac:(lia)) as H0.
  pose proof (N.div_mod (c / 16) 16 ltac:(lia)) as H1.
  pose proof (N.div_mod (c / 256) 16 ltac:(lia)) as H2.
  rewrite N.Div0.div_div in H1, H2.
  change (16 * 16) with 256 in H1. change (256 * 16) with 4096 in H2.
  assert (c / 4096 < 16) by (apply N.Div0.div_lt_upper_bound; lia).
  rewrite (N.mod_small (c / 4096) 16) by lia.
  lia.
Qed.

Lemma parse_chars_hex4 (c : N) (X : jsstring) :
  c < 65536 ->
  parse_chars (92 :: "u"%cu :: hex4 c ++ X) =
    '(cs, rest) ← parse_chars X; Some (c :: cs, rest).
Proof.
  intros Hc. unfold hex4. cbn [parse_chars app N.eqb Pos.eqb].
  rewrite !hex_value_digit by (apply N.mod_lt; done). cbn [mbind option_bind].
  rewrite hex4_value by done. reflexivity.
Qed.

(** One escaped code unit is read back as that code unit. *)
Lemma parse_chars_quote_unit (c : N) (X : jsstring) :
  parse_chars (quote_unit c ++ X) =
    '(cs, rest) ← parse_chars X; Some (c :: cs, rest).
Proof.
  unfold quote_unit.
  destruct (c =? 8) eqn:E8; [apply N.eqb_eq in E8 as ->; reflexivity|].
  destruct (c =? 9) eqn:E9; [apply N.eqb_eq in E9 as ->; reflexivity|].
  destruct (c =? 10) eqn:E10; [apply N.eqb_eq in E10 as ->; reflexivity|].
  destruct (c =? 12) eqn:E12; [apply N.eqb_eq in E12 as ->; reflexivity|].
  destruct (c =? 13) eqn:E13; [apply N.eqb_eq in E13 as ->; reflexivity|].
  destruct (c =? 34) eqn:E34; [apply N.eqb_eq in E34 as ->; reflexivity|].
  destruct (c =? 92) eqn:E92; [apply N.eqb_eq in E92 as ->; reflexivity|].
  destruct ((c <? 32) || is_high_surrogate c || is_low_surrogate c) eqn:Ee.
  - apply parse_chars_hex4.
    unfold is_high_surrogate, is_low_surrogate in Ee.
    rewrite !orb_true_iff, !andb_true_iff, N.ltb_lt, !N.leb_le in Ee. lia.
  - apply orb_false_iff in Ee as [Ee _]. apply orb_false_iff in Ee as [E32 _].
    cbn [parse_chars app]. rewrite E34, E92, E32. reflexivity.
Qed.

Lemma parse_chars_plain (c : N) (X : jsstring) :
  32 <= c -> c <> 34 -> c <> 92 ->
  parse_chars (c :: X) = '(cs, rest) ← parse_chars X; Some (c :: cs, rest).
Proof.
  intros H32 H34 H92. cbn [parse_chars].
  apply N.eqb_neq in H34, H92. apply N.ltb_ge in H32.
  rewrite H34, H92, H32. reflexivity.
Qed.

Lemma quote_body_cons (c c' : N) (r' : jsstring) :
  quote_body (c :: c' :: r') =
    if is_high_surrogate c && is_low_surrogate c'
    then c :: c' :: quote_body r'
    else quote_unit c ++ quote_body (c' :: r').
Proof. reflexivity. Qed.

Lemma parse_chars_quote_body (s rest : jsstring) :
  parse_chars (quote_body s ++ 34 :: rest) = Some (s, rest).
Proof.
  remember (length s) as n eqn:Hn. revert s Hn.
  induction n as [n IH] using lt_wf_ind. intros s Hn.
  destruct s as [|c [|c' r']].
  - reflexivity.
  - simpl. rewrite parse_chars_quote_unit. reflexivity.
  - rewrite quote_body_cons.
    destruct (is_high_surrogate c && is_low_surrogate c') eqn:Ep.
    + apply andb_true_iff in Ep as [Eh El].
      unfold is_high_surrogate, is_low_surrogate in Eh, El.
      apply andb_true_iff in Eh as [Eh1 Eh2]. apply andb_true_iff in El as [El1 El2].
      apply N.leb_le in Eh1, Eh2, El1, El2.
      cbn [app]. rewrite parse_chars_plain by lia.
      rewrite parse_chars_plain by lia.
      rewrite (IH (length r') ltac:(simpl in Hn; lia) r' eq_refl). reflexivity.
    + rewrite <- app_assoc, parse_chars_quote_unit.
      rewrite (IH (length (c' :: r')) ltac:(simpl in Hn |- *; lia) (c' :: r') eq_refl).
      reflexivity.
Qed.

(** ** The order of the keys of an object *)

Lemma ordered_app_inv (ks : list jsstring) (k : jsstring) :
  ordered (ks ++ [k]) ->
  ordered ks /\ Forall (fun k' => k' <> k /\ key_before k k' = false) ks.
Proof.
  induction ks as [|k0 ks IH]; simpl.
  - intros _. split; [done | constructor].
  - intros [Hall Hord]. destruct (IH Hord) as [Hks Hk].
    apply Forall_app in Hall as [Hall1 Hall2].
    split; [done|]. constructor; [|done].
    by inversion Hall2.
Qed.

(** Setting a key that belongs at the end appends it. *)
Lemma obj_set_last {V} (k : jsstring) (v : V) (o : jsobject V) :
  Forall (fun k' => k' <> k /\ key_before k k' = false) (map fst o) ->
  obj_set k v o = o ++ [(k, v)].
Proof.
  induction o as [|[k0 v0] o IH]; simpl; [done|].
  intros Hall. inversion Hall as [|? ? [Hne Hkb] Hall']; subst.
  rewrite decide_False by done. rewrite Hkb, IH by done. reflexivity.
Qed.

(** Members that are already in order make the object they list. *)
Lemma object_of_members_ordered (ms : list (jsstring * json)) :
  ordered (map fst ms) -> object_of_members ms = ms.
Proof.
  unfold object_of_members.
  assert (Hgen : forall (ms acc : list (jsstring * json)),
    ordered (map fst (acc ++ ms)) ->
    fold_left (fun o p => obj_set (fst p) (snd p) o) ms acc = acc ++ ms).
  { clear ms. induction ms as [|[k v] ms IH]; intros acc Hord; simpl.
    - by rewrite app_nil_r.
    - assert (Hacc : ordered (map fst (acc ++ [(k, v)]))).
      { change ((k, v) :: ms) with ([(k, v)] ++ ms) in Hord.
        rewrite app_assoc, map_app in Hord.
        clear IH. revert Hord. generalize (map fst (acc ++ [(k, v)])) as l1.
        induction l1 as [|a l1 IHl]; simpl; [done|].
        intros [Hall Hord]. apply Forall_app in Hall as [Hall _].
        split; [done | by apply IHl]. }
      rewrite map_app in Hacc. simpl in Hacc.
      apply ordered_app_inv in Hacc as [_ Hk].
      rewrite obj_set_last by done.
      rewrite IH; [by rewrite <- app_assoc|].
      by rewrite <- app_assoc. }
  intros Hord. apply (Hgen ms []). exact Hord.
Qed.

Lemma key_before_asym (k k' : jsstring) :
  key_before k k' = true -> key_before k' k = false.
Proof.
  unfold key_before. destruct (array_index k), (array_index k'); try done.
  rewrite N.ltb_lt, N.ltb_ge. lia.
Qed.

Lemma key_before_between (k k0 k' : jsstring) :
  key_before k k0 = true -> key_before k' k0 = false -> key_before k' k = false.
Proof.
  unfold key_before.
  destruct (array_index k), (array_index k0), (array_index k'); try done.
  rewrite N.ltb_lt, !N.ltb_ge. lia.
Qed.

Lemma key_before_irrefl (k : jsstring) : key_before k k = false.
Proof.
  unfold key_before. destruct (array_index k); [|done]. apply N.ltb_irrefl.
Qed.

Lemma obj_set_keys_Forall {V} (P : jsstring -> Prop) (k : jsstring) (v : V)
    (o : jsobject V) :
  P k -> Forall P (map fst o) -> Forall P (map fst (obj_set k v o)).
Proof.
  intros Hk. induction o as [|[k0 v0] o IH]; simpl; intros Ho.
  - by constructor.
  - inversion Ho; subst. destruct (decide (k = k0)); simpl; [by constructor|].
    destruct (key_before k k0); simpl; repeat constructor; auto.
Qed.

Lemma obj_set_values_Forall {V} (P : V -> Prop) (k : jsstring) (v : V)
    (o : jsobject V) :
  P v -> Forall (fun p => P (snd p)) o -> Forall (fun p => P (snd p)) (obj_set k v o).
Proof.
  intros Hv. induction o as [|[k0 v0] o IH]; simpl; intros Ho.
  - by constructor.
  - inversion Ho; subst. destruct (decide (k = k0)); simpl; [by constructor|].
    destruct (key_before k k0); simpl; repeat constructor; auto.
Qed.

(** Setting a key keeps the keys in order. *)
Lemma obj_set_ordered {V} (k : jsstring) (v : V) (o : jsobject V) :
  ordered (map fst o) -> ordered (map fst (obj_set k v o)).
Proof.
  induction o as [|[k0 v0] o IH]; simpl.
  - intros _. split; [constructor | done].
  - intros [Hall Hord]. destruct (decide (k = k0)) as [->|Hne]; simpl; [done|].
    destruct (key_before k k0) eqn:Ekb; simpl.
    + split; [|done]. constructor.
      * split; [done | by apply key_before_asym].
      * eapply List.Forall_impl; [|exact Hall]. simpl. intros k' [Hne' Hkb']. split.
        -- intros ->. congruence.
        -- by apply (key_before_between k k0 k').
    + split; [|by apply IH].
      apply obj_set_keys_Forall; [|done]. by split.
Qed.

Lemma object_of_members_wf (P : json -> Prop) (ms : list (jsstring * json)) :
  Forall (fun p => P (snd p)) ms ->
  ordered (map fst (object_of_members ms))
  /\ Forall (fun p => P (snd p)) (object_of_members ms).
Proof.
  unfold object_of_members.
  assert (Hgen : forall (ms acc : list (jsstring * json)),
    Forall (fun p => P (snd p)) ms ->
    ordered (map fst acc) -> Forall (fun p => P (snd p)) acc ->
    ordered (map fst (fold_left (fun o p => obj_set (fst p) (snd p) o) ms acc))
    /\ Forall (fun p => P (snd p))
         (fold_left (fun o p => obj_set (fst p) (snd p) o) ms acc)).
  { clear ms. induction ms as [|[k v] ms IH]; intros acc Hms Hord Hacc; simpl.
    - done.
    - inversion Hms; subst. apply IH; [done| |].
      + by apply obj_set_ordered.
      + by apply obj_set_values_Forall. }
  intros Hms. apply Hgen; [done | done | constructor].
Qed.

(** ** Reading back a serialized value *)


Lemma skip_ws_head (c : N) (r : jsstring) : is_ws c = false -> skip_ws (c :: r) = c :: r.
Proof. intros H. simpl. by rewrite H. Qed.


Lemma Number_toString_head (m e : Z) :
  exists c r, Number_toString (Finite m e) = c :: r /\ (c = "-"%cu \/ is_digit c = true).
Proof.
  cbn [Number_toString]. destruct (m =? 0)%Z eqn:E0.
  { exists "0"%cu, []. split; [reflexivity | right; reflexivity]. }
  apply Z.eqb_neq in E0.
  destruct (m <? 0)%Z.
  { eexists _, _. split; [reflexivity | left; reflexivity]. }
  destruct (decimal_head (Z.abs_N m)) as (c & r & Ed & Hc0 & Hcd); [lia|].
  rewrite Ed. cbn [app].
  set (k := Z.of_nat (length (c :: r))).
  set (n := (e + k)%Z).
  destruct ((k <=? n)%Z && (n <=? 21)%Z).
  { eexists _, _. split; [reflexivity | by right]. }
  destruct ((0 <? n)%Z && (n <=? 21)%Z) eqn:EB.
  { apply andb_true_iff in EB as [EB _]. apply Z.ltb_lt in EB.
    destruct (Z.to_nat n) eqn:En; [lia|].
    eexists _, _. split; [reflexivity | by right]. }
  destruct ((-6 <? n)%Z && (n <=? 0)%Z).
  { eexists _, _. split; [reflexivity | right; reflexivity]. }
  destruct r; eexists _, _; (split; [reflexivity | by right]).
Qed.

Lemma digit_value_head (c : N) : c = "-"%cu \/ is_digit c = true -> value_head c.
Proof.
  intros [->|Hd]; [done|].
  destruct (is_digit_cases c Hd) as [->|[->|[->|[->|[->|[->|[->|[->|[->| ->]]]]]]]]];
    done.
Qed.

Lemma JSON_stringify_head (v : json) :
  exists c r, JSON_stringify v = c :: r /\ value_head c.
Proof.
  destruct v as [|[]|[m e| |neg|]|s|l|o]; cbn [JSON_stringify is_finite];
    try (eexists _, _; split; [reflexivity | done]).
  destruct (Number_toString_head m e) as (c & r & -> & Hc).
  exists c, r. split; [done | by apply digit_value_head].
Qed.

Lemma JSON_stringify_length (v : json) : (1 <= length (JSON_stringify v))%nat.
Proof.
  destruct (JSON_stringify_head v) as (c & r & -> & _). simpl. lia.
Qed.

Lemma parse_number_head (s rest : jsstring) (x : number) :
  parse_number s = Some (x, rest) ->
  exists c r, s = c :: r /\ (c = "-"%cu \/ is_digit c = true).
Proof.
  unfold parse_number. destruct s as [|c r]; [done|].
  destruct (c =? "-"%cu) eqn:E.
  - apply N.eqb_eq in E as ->. intros _. exists "-"%cu, r. auto.
  - unfold parse_int. destruct (c =? "0"%cu) eqn:E0.
    + apply N.eqb_eq in E0 as ->. intros _. exists "0"%cu, r. auto.
    + destruct (is_digit c) eqn:Ed; [|done]. intros _. exists c, r. auto.
Qed.

Lemma parse_value_number (fuel : nat) (s rest : jsstring) (x : number) :
  parse_number s = Some (x, rest) ->
  parse_value (S fuel) s = Some (JNumber x, rest).
Proof.
  intros Hp. destruct (parse_number_head s rest x Hp) as (c & r & -> & Hc).
  assert (Hdispatch :
    (c =? "{"%cu) = false /\ (c =? "["%cu) = false /\ (c =? 34) = false
    /\ (c =? "t"%cu) = false /\ (c =? "f"%cu) = false /\ (c =? "n"%cu) = false).
  { destruct Hc as [->|Hd]; [done|].
    destruct (is_digit_cases c Hd) as [->|[->|[->|[->|[->|[->|[->|[->|[->| ->]]]]]]]]];
      done. }
  destruct Hdispatch as (H1 & H2 & H3 & H4 & H5 & H6).
  cbn [parse_value]. rewrite H1, H2, H3, H4, H5, H6, Hp. reflexivity.
Qed.

Lemma terminated_comma (r : jsstring) : terminated (","%cu :: r).
Proof. simpl. auto. Qed.

Lemma terminated_bracket (r : jsstring) : terminated ("]"%cu :: r).
Proof. simpl. auto. Qed.

Lemma terminated_brace (r : jsstring) : terminated ("}"%cu :: r).
Proof. simpl. auto. Qed.


Lemma join_cons2 (sep x y : jsstring) (l : list jsstring) :
  join sep (x :: y :: l) = x ++ sep ++ join sep (y :: l).
Proof. reflexivity. Qed.

Lemma parse_elements_join (l : list json) :
  l <> [] -> Forall reads_back l ->
  forall (fuel : nat) (rest : jsstring),
    (2 * length (join (str ",") (map JSON_stringify l)) < fuel)%nat ->
    parse_elements fuel (join (str ",") (map JSON_stringify l) ++ "]"%cu :: rest) =
      Some (map serialized l, rest).
Proof.
  intros Hne Hall. induction l as [|x l IH]; [done|]. clear Hne.
  inversion Hall as [|? ? Hx Hl]; subst. intros fuel rest Hf.
  destruct fuel as [|fuel]; [lia|]. cbn [parse_elements].
  destruct l as [|y l].
  - cbn [map join] in *.
    assert (Hfx : (2 * length (JSON_stringify x) <= fuel)%nat) by lia.
    rewrite (Hx fuel ("]"%cu :: rest) Hfx (terminated_bracket rest)).
    reflexivity.
  - cbn [map] in *. rewrite join_cons2 in *. rewrite <- !app_assoc.
    change (str "," ++ ?X) with (","%cu :: X).
    rewrite !length_app in Hf. change (length (str ",")) with 1%nat in Hf.
    assert (Hfx : (2 * length (JSON_stringify x) <= fuel)%nat) by lia.
    rewrite (Hx fuel _ Hfx (terminated_comma _)).
    cbn [mbind option_bind skip_ws is_ws N.eqb Pos.eqb orb].
    destruct (JSON_stringify_head y) as (c & r & Ey & Hws & _).
    assert (Hj : exists r', join (str ",") (JSON_stringify y :: map JSON_stringify l)
                            = c :: r').
    { destruct (map JSON_stringify l); [by exists r|].
      rewrite join_cons2, Ey. by eexists. }
    destruct Hj as [r' Ej]. rewrite Ej in *. cbn [app]. rewrite skip_ws_head by done.
    change (c :: r' ++ "]"%cu :: rest) with ((c :: r') ++ "]"%cu :: rest).
    rewrite <- Ej in *.
    rewrite IH; [reflexivity | done | done | lia].
Qed.

Lemma parse_members_join (o : list (jsstring * json)) :
  o <> [] -> Forall (fun p => reads_back (snd p)) o ->
  forall (fuel : nat) (rest : jsstring),
    (2 * length (join (str ",") (map member_text o)) < fuel)%nat ->
    parse_members fuel (join (str ",") (map member_text o) ++ "}"%cu :: rest) =
      Some (map (fun p => (fst p, serialized (snd p))) o, rest).
Proof.
  intros Hne Hall. induction o as [|[k v] o IH]; [done|]. clear Hne.
  inversion Hall as [|? ? Hv Ho]; subst. cbn [snd] in Hv. intros fuel rest Hf.
  destruct fuel as [|fuel]; [lia|].
  destruct (JSON_stringify_head v) as (c & r & Ev & Hws & _).
  assert (Hread : forall Y, terminated Y ->
    (2 * length (JSON_stringify v) <= fuel)%nat ->
    parse_members (S fuel) (member_text (k, v) ++ Y) =
      match skip_ws Y with
      | c3 :: r4 =>
          if c3 =? ","%cu then
            '(ms, rest) ← parse_members fuel (skip_ws r4);
            Some ((k, serialized v) :: ms, rest)
          else if c3 =? "}"%cu then Some ([(k, serialized v)], r4)
          else None
      | [] => None
      end).
  { intros Y HY Hfv. unfold member_text, QuoteJSONString. cbn [fst snd].
    rewrite <- !app_assoc. cbn [app parse_members N.eqb Pos.eqb].
    rewrite <- !app_assoc. cbn [app].
    rewrite parse_chars_quote_body.
    cbn [mbind option_bind skip_ws is_ws N.eqb Pos.eqb orb].
    rewrite Ev. cbn [app]. rewrite skip_ws_head by done.
    change (c :: r ++ Y) with ((c :: r) ++ Y). rewrite <- Ev.
    rewrite (Hv fuel Y Hfv HY). reflexivity. }
  destruct o as [|p o].
  - cbn [map join] in *.
    assert (Hlen : (length (JSON_stringify v) <= length (member_text (k, v)))%nat).
    { unfold member_text. rewrite length_app. simpl. lia. }
    rewrite Hread by (try apply terminated_brace; lia). reflexivity.
  - cbn [map] in *. rewrite join_cons2 in *. rewrite <- !app_assoc.
    change (str "," ++ ?X) with (","%cu :: X).
    rewrite !length_app in Hf. change (length (str ",")) with 1%nat in Hf.
    assert (Hlen : (length (JSON_stringify v) <= length (member_text (k, v)))%nat).
    { unfold member_text. rewrite length_app. simpl. lia. }
    rewrite Hread by (try apply terminated_comma; lia).
    cbn [skip_ws is_ws N.eqb Pos.eqb orb].
    assert (Hj : exists r', join (str ",") (member_text p :: map member_text o)
                            = 34 :: r').
    { destruct (map member_text o); [by eexists|].
      rewrite join_cons2. by eexists. }
    destruct Hj as [r' Ej]. rewrite Ej in *. cbn [app]. rewrite skip_ws_head by done.
    change (34 :: r' ++ "}"%cu :: rest) with ((34 :: r') ++ "}"%cu :: rest).
    rewrite <- Ej in *.
    rewrite IH; [reflexivity | done | done | lia].
Qed.

(** A value of the shape [JSON.parse] makes is read back from its
    serialization as what the serialization keeps of it. *)
Lemma parse_value_stringify (v : json) : wf v -> reads_back v.
Proof.
  induction v as [|b|x|s|l IH|o IH] using json_nested_ind; intros Hwf fuel rest Hf Hr.
  - destruct fuel; [simpl in Hf; lia | reflexivity].
  - destruct fuel; [destruct b; simpl in Hf; lia | destruct b; reflexivity].
  - destruct fuel as [|fuel].
    { pose proof (JSON_stringify_length (JNumber x)). lia. }
    destruct x as [m e| |neg|]; [| |reflexivity..].
    + cbn [JSON_stringify serialized is_finite]. apply parse_value_number.
      apply parse_number_toString; [by inversion Hwf | done].
    + change (JSON_stringify (JNumber NegZero)) with (Number_toString (Finite 0 0)).
      cbn [serialized]. apply parse_value_number.
      apply parse_number_toString; [constructor | done].
  - destruct fuel as [|fuel]; [simpl in Hf; lia|].
    cbn [JSON_stringify serialized]. unfold QuoteJSONString.
    cbn [app]. rewrite <- app_assoc. cbn [app parse_value N.eqb Pos.eqb].
    rewrite parse_chars_quote_body. reflexivity.
  - destruct fuel as [|fuel]; [simpl in Hf; lia|].
    cbn [JSON_stringify serialized] in *.
    destruct l as [|x l]; [reflexivity|].
    assert (Hall : Forall reads_back (x :: l)).
    { inversion Hwf as [| | | |? Hwfl|]; subst.
      rewrite Forall_forall in IH, Hwfl |- *. auto. }
    set (J := join (str ",") (map JSON_stringify (x :: l))) in *.
    assert (HJ : exists c r, J = c :: r /\ value_head c).
    { subst J. destruct (JSON_stringify_head x) as (c & r & Ex & Hc).
      cbn [map]. destruct (map JSON_stringify l).
      - exists c, r. by rewrite <- Ex.
      - rewrite join_cons2, Ex. by eexists _, _. }
    destruct HJ as (c & r & EJ & Hws & Hb & _).
    cbn [app length] in Hf. rewrite length_app in Hf.
    cbn [app]. rewrite <- app_assoc. cbn [app parse_value N.eqb Pos.eqb].
    rewrite EJ. cbn [app]. rewrite skip_ws_head by done.
    apply N.eqb_neq in Hb. rewrite Hb.
    change (c :: r ++ str "]" ++ rest) with ((c :: r) ++ "]"%cu :: rest).
    rewrite <- EJ. subst J.
    rewrite parse_elements_join; [reflexivity | done | done | lia].
  - destruct fuel as [|fuel]; [simpl in Hf; lia|].
    cbn [JSON_stringify serialized] in *.
    destruct o as [|p o]; [reflexivity|].
    inversion Hwf as [| | | | |? Hord Hwfo]; subst.
    assert (Hall : Forall (fun p => reads_back (snd p)) (p :: o)).
    { rewrite Forall_forall in IH, Hwfo |- *. auto. }
    change (map (fun p => QuoteJSONString (fst p) ++ ":"%cu :: JSON_stringify (snd p)))
      with (map member_text) in *.
    set (J := join (str ",") (map member_text (p :: o))) in *.
    assert (HJ : exists r, J = 34 :: r).
    { subst J. cbn [map]. destruct (map member_text o); [by eexists|].
      rewrite join_cons2. by eexists. }
    destruct HJ as (r & EJ).
    cbn [app length] in Hf. rewrite length_app in Hf.
    cbn [app]. rewrite <- app_assoc. cbn [app parse_value N.eqb Pos.eqb].
    rewrite EJ. cbn [app]. rewrite skip_ws_head by done.
    cbn [N.eqb Pos.eqb].
    change (34 :: r ++ str "}" ++ rest) with ((34 :: r) ++ "}"%cu :: rest).
    rewrite <- EJ. subst J.
    rewrite parse_members_join by (done || lia).
    cbn [mbind option_bind]. rewrite object_of_members_ordered; [reflexivity|].
    rewrite map_map. cbn [fst]. exact Hord.
Qed.

(** ** The serialization has no white space of its own *)

Lemma outside_hex_digit (a : N) (X : jsstring) :
  a < 16 -> outside_strings true (hex_digit a :: X) = outside_strings true X.
Proof.
  intros Ha.
  assert (a = 0 \/ a = 1 \/ a = 2 \/ a = 3 \/ a = 4 \/ a = 5 \/ a = 6 \/ a = 7
          \/ a = 8 \/ a = 9 \/ a = 10 \/ a = 11 \/ a = 12 \/ a = 13 \/ a = 14
          \/ a = 15) as H by lia.
  repeat (destruct H as [->|H]; [reflexivity|]). subst. reflexivity.
Qed.

Lemma outside_inside_plain (c : N) (X : jsstring) :
  c <> 34 -> c <> 92 ->
  outside_strings true (c :: X) = outside_strings true X.
Proof.
  intros H34 H92. apply N.eqb_neq in H34, H92.
  cbn [outside_strings]. by rewrite H92, H34.
Qed.

Lemma outside_quote_unit (c : N) (X : jsstring) :
  outside_strings true (quote_unit c ++ X) = outside_strings true X.
Proof.
  unfold quote_unit.
  destruct (c =? 8); [reflexivity|].
  destruct (c =? 9); [reflexivity|].
  destruct (c =? 10); [reflexivity|].
  destruct (c =? 12); [reflexivity|].
  destruct (c =? 13); [reflexivity|].
  destruct (c =? 34) eqn:E34; [reflexivity|].
  destruct (c =? 92) eqn:E92; [reflexivity|].
  destruct ((c <? 32) || is_high_surrogate c || is_low_surrogate c).
  - unfold hex4. cbn [app].
    change (outside_strings true (92 :: "u"%cu :: ?Y)) with (outside_strings true Y).
    rewrite !outside_hex_digit by (apply N.mod_lt; done). reflexivity.
  - cbn [app outside_strings]. by rewrite E92, E34.
Qed.

(** The body of a string literal and its closing quote are skipped. *)
Lemma outside_quote_body (s rest : jsstring) :
  outside_strings true (quote_body s ++ 34 :: rest) = outside_strings false rest.
Proof.
  remember (length s) as n eqn:Hn. revert s Hn.
  induction n as [n IH] using lt_wf_ind. intros s Hn.
  destruct s as [|c [|c' r']].
  - reflexivity.
  - simpl. rewrite outside_quote_unit. reflexivity.
  - rewrite quote_body_cons.
    destruct (is_high_surrogate c && is_low_surrogate c') eqn:Ep.
    + apply andb_true_iff in Ep as [Eh El].
      unfold is_high_surrogate, is_low_surrogate in Eh, El.
      apply andb_true_iff in Eh as [Eh1 Eh2]. apply andb_true_iff in El as [El1 El2].
      apply N.leb_le in Eh1, Eh2, El1, El2.
      cbn [app]. rewrite !outside_inside_plain by lia.
      exact (IH (length r') ltac:(simpl in Hn; lia) r' eq_refl).
    + rewrite <- app_assoc, outside_quote_unit.
      exact (IH (length (c' :: r')) ltac:(simpl in Hn |- *; lia) (c' :: r') eq_refl).
Qed.

Lemma compact_plain (tok rest : jsstring) :
  forallb is_plain tok = true -> compact rest -> compact (tok ++ rest).
Proof.
  unfold compact. induction tok as [|c tok IH]; [done|]. cbn [forallb app].
  intros H Hr. apply andb_true_iff in H as [Hc Ht].
  unfold is_plain in Hc. apply andb_true_iff in Hc as [H34 Hws].
  apply negb_true_iff in H34, Hws. cbn [outside_strings]. rewrite H34.
  constructor; auto.
Qed.

Lemma compact_quote (s rest : jsstring) :
  compact rest -> compact (QuoteJSONString s ++ rest).
Proof.
  unfold compact, QuoteJSONString. cbn [app]. rewrite <- app_assoc.
  cbn [app outside_strings N.eqb Pos.eqb]. by rewrite outside_quote_body.
Qed.

Lemma digits_plain (ds : jsstring) :
  forallb is_digit ds = true -> forallb is_plain ds = true.
Proof.
  rewrite !forallb_forall. intros H c Hc. specialize (H c Hc).
  destruct (is_digit_cases c H) as [->|[->|[->|[->|[->|[->|[->|[->|[->| ->]]]]]]]]];
    reflexivity.
Qed.

Lemma Number_toString_plain (x : number) : forallb is_plain (Number_toString x) = true.
Proof.
  destruct x as [m e| |[]|]; try reflexivity.
  cbn [Number_toString]. destruct (m =? 0)%Z; [reflexivity|].
  pose proof (digits_plain _ (decimal_digits (Z.abs_N m))) as Hd.
  set (digits := decimal (Z.abs_N m)) in *.
  set (k := Z.of_nat (length digits)). set (n := (e + k)%Z).
  rewrite forallb_app. apply andb_true_iff. split; [by destruct (m <? 0)%Z|].
  destruct ((k <=? n)%Z && (n <=? 21)%Z).
  { rewrite forallb_app, Hd. apply digits_plain, forallb_repeat_zero. }
  destruct ((0 <? n)%Z && (n <=? 21)%Z).
  { rewrite forallb_app. cbn [forallb].
    by rewrite (forallb_firstn _ _ _ Hd), (forallb_skipn _ _ _ Hd). }
  destruct ((-6 <? n)%Z && (n <=? 0)%Z).
  { rewrite !forallb_app, Hd, (digits_plain _ (forallb_repeat_zero _)). reflexivity. }
  pose proof (digits_plain _ (decimal_digits (Z.abs_N (n - 1)))) as He.
  destruct digits as [|d [|d' ds]]; [reflexivity| |].
  - cbn [forallb] in *. apply andb_true_iff in Hd as [-> _]. rewrite He.
    by destruct (n - 1 <? 0)%Z.
  - cbn [forallb] in Hd |- *. apply andb_true_iff in Hd as [-> Hd].
    change (is_plain "."%cu) with true. cbn [andb].
    change (d' :: ds ++ ?X) with ((d' :: ds) ++ X).
    rewrite forallb_app. cbn [forallb]. rewrite Hd, He.
    by destruct (n - 1 <? 0)%Z.
Qed.

Lemma compact_join (texts : list jsstring) (rest : jsstring) :
  Forall (fun t => forall rest, compact rest -> compact (t ++ rest)) texts ->
  compact rest -> compact (join (str ",") texts ++ rest).
Proof.
  intros H Hr. induction H as [|t texts Ht _ IH]; [done|].
  destruct texts as [|t' texts]; [by apply Ht|].
  rewrite join_cons2, <- !app_assoc. apply Ht.
  apply (compact_plain (str ",")); [reflexivity | exact IH].
Qed.

(** A serialized value has no white space outside its string literals. *)
Lemma compact_stringify (v : json) (rest : jsstring) :
  compact rest -> compact (JSON_stringify v ++ rest).
Proof.
  revert rest.
  induction v as [|b|x|s|l IH|o IH] using json_nested_ind; intros rest Hr.
  - by apply (compact_plain (str "null")).
  - destruct b; by apply compact_plain.
  - cbn [JSON_stringify]. destruct (is_finite x).
    + apply compact_plain; [apply Number_toString_plain | done].
    + by apply (compact_plain (str "null")).
  - by apply compact_quote.
  - cbn [JSON_stringify].
    apply (compact_plain (str "[") ((join (str ",") (map JSON_stringify l) ++ str "]") ++ rest));
      [reflexivity|].
    rewrite <- app_assoc. apply compact_join.
    + rewrite Forall_map. exact IH.
    + by apply (compact_plain (str "]")).
  - cbn [JSON_stringify].
    change (map (fun p => QuoteJSONString (fst p) ++ ":"%cu :: JSON_stringify (snd p)))
      with (map member_text).
    apply (compact_plain (str "{") ((join (str ",") (map member_text o) ++ str "}") ++ rest));
      [reflexivity|].
    rewrite <- app_assoc. apply compact_join.
    + rewrite Forall_map. eapply List.Forall_impl; [|exact IH].
      intros [k a] Ha rest' Hr'. unfold member_text. cbn [fst snd] in *.
      rewrite <- app_assoc. apply compact_quote.
      apply (compact_plain (str ":") (JSON_stringify a ++ rest')); [reflexivity|].
      by apply Ha.
    + by apply (compact_plain (str "}")).
Qed.

Lemma JSON_stringify_compact (v : json) : compact (JSON_stringify v).
Proof.
  rewrite <- (app_nil_r (JSON_stringify v)). apply compact_stringify. constructor.
Qed.

(** *** What the parser returns is well formed *)

Lemma parse_int_is_digits (s int rest : jsstring) :
  parse_int s = Some (int, rest) -> forallb is_digit int = true.
Proof.
  destruct s as [|c r]; [done|]. unfold parse_int.
  destruct (c =? "0"%cu) eqn:E0.
  - intros [= <- <-]. apply N.eqb_eq in E0 as ->. reflexivity.
  - destruct (is_digit c); [|done]. intros H. injection H as H. exact (span_digits_digits (c :: r) _ _ H).
Qed.

Lemma parse_frac_is_digits (s frac rest : jsstring) :
  parse_frac s = Some (frac, rest) -> forallb is_digit frac = true.
Proof.
  destruct s as [|c r]; [by intros [= <- <-]|]. unfold parse_frac.
  destruct (c =? "."%cu); [|by intros [= <- <-]].
  destruct (span_digits r) as [ds r'] eqn:E.
  destruct ds as [|d ds]; [done|]. intros [= <- <-]. by eapply span_digits_digits.
Qed.

Lemma parse_number_canonical (s rest : jsstring) (x : number) :
  parse_number s = Some (x, rest) -> canonical x.
Proof.
  unfold parse_number.
  set (p := match s with
            | c :: r => if c =? "-"%cu then (true, r) else (false, s)
            | [] => (false, s)
            end).
  destruct p as [neg s1].
  destruct (parse_int s1) as [[int s2]|] eqn:Ei; [|done]. cbn [mbind option_bind].
  destruct (parse_frac s2) as [[frac s3]|] eqn:Ef; [|done]. cbn [mbind option_bind].
  destruct (parse_exp s3) as [[ex s4]|] eqn:Ee; [|done]. cbn [mbind option_bind].
  intros [= <- <-]. apply make_number_canonical.
  rewrite forallb_app.
  by rewrite (parse_int_is_digits _ _ _ Ei), (parse_frac_is_digits _ _ _ Ef).
Qed.

Lemma parse_wf (fuel : nat) :
  (forall s v r, parse_value fuel s = Some (v, r) -> wf v)
  /\ (forall s vs r, parse_elements fuel s = Some (vs, r) -> Forall wf vs)
  /\ (forall s ms r, parse_members fuel s = Some (ms, r) ->
        Forall (fun p => wf (snd p)) ms).
Proof.
  induction fuel as [|fuel (IHv & IHe & IHm)]; [by repeat split|].
  split; [|split].
  - intros s v r. cbn [parse_value]. destruct s as [|c s]; [done|].
    destruct (c =? "{"%cu).
    { destruct (skip_ws s) as [|c' r']; [done|].
      destruct (c' =? "}"%cu).
      - intros [= <- <-]. constructor; [done | constructor].
      - destruct (parse_members fuel (c' :: r')) as [[ms rest]|] eqn:E; [|done].
        cbn [mbind option_bind]. intros [= <- <-].
        destruct (object_of_members_wf wf ms (IHm _ _ _ E)). by constructor. }
    destruct (c =? "["%cu).
    { destruct (skip_ws s) as [|c' r']; [done|].
      destruct (c' =? "]"%cu).
      - intros [= <- <-]. constructor. constructor.
      - destruct (parse_elements fuel (c' :: r')) as [[vs rest]|] eqn:E; [|done].
        cbn [mbind option_bind]. intros [= <- <-]. constructor. by eapply IHe. }
    destruct (c =? 34).
    { destruct (parse_chars s) as [[cs rest]|]; [|done].
      cbn [mbind option_bind]. intros [= <- <-]. constructor. }
    destruct (c =? "t"%cu).
    { destruct (strip_prefix _ s); [|done]. intros [= <- <-]. constructor. }
    destruct (c =? "f"%cu).
    { destruct (strip_prefix _ s); [|done]. intros [= <- <-]. constructor. }
    destruct (c =? "n"%cu).
    { destruct (strip_prefix _ s); [|done]. intros [= <- <-]. constructor. }
    destruct (parse_number (c :: s)) as [[x rest]|] eqn:E; [|done].
    cbn [mbind option_bind]. intros [= <- <-]. constructor.
    by eapply parse_number_canonical.
  - intros s vs r. cbn [parse_elements].
    destruct (parse_value fuel s) as [[v r0]|] eqn:E; [|done].
    cbn [mbind option_bind].
    destruct (skip_ws r0) as [|c r']; [done|].
    destruct (c =? ","%cu).
    + destruct (parse_elements fuel (skip_ws r')) as [[vs' rest]|] eqn:E'; [|done].
      cbn [mbind option_bind]. intros [= <- <-]. constructor; eauto.
    + destruct (c =? "]"%cu); [|done]. intros [= <- <-].
      constructor; eauto.
  - intros s ms r. cbn [parse_members]. destruct s as [|c s]; [done|].
    destruct (c =? 34); [|done].
    destruct (parse_chars s) as [[k r1]|]; [|done]. cbn [mbind option_bind].
    destruct (skip_ws r1) as [|c1 r2]; [done|].
    destruct (c1 =? ":"%cu); [|done].
    destruct (parse_value fuel (skip_ws r2)) as [[v r3]|] eqn:E; [|done].
    cbn [mbind option_bind].
    destruct (skip_ws r3) as [|c3 r4]; [done|].
    destruct (c3 =? ","%cu).
    + destruct (parse_members fuel (skip_ws r4)) as [[ms' rest]|] eqn:E'; [|done].
      cbn [mbind option_bind]. intros [= <- <-]. constructor; simpl; eauto.
    + destruct (c3 =? "}"%cu); [|done]. intros [= <- <-].
      constructor; simpl; eauto.
Qed.

(** A parsed value is well formed. *)
Lemma JSON_parse_wf (text : jsstring) (v : json) :
  JSON_parse text = Some v -> wf v.
Proof.
  unfold JSON_parse.
  destruct (parse_value _ _) as [[v' rest]|] eqn:E; [|done].
  cbn [mbind option_bind]. case_bool_decide; [|done]. intros [= <-].
  by eapply (proj1 (parse_wf _)).
Qed.

(** *** Serializing and parsing again *)

Lemma JSON_parse_stringify (v : json) :
  wf v -> JSON_parse (JSON_stringify v) = Some (serialized v).
Proof.
  intros Hwf. unfold JSON_parse.
  destruct (JSON_stringify_head v) as (c & r & E & Hc).
  assert (Hs : skip_ws (JSON_stringify v) = JSON_stringify v).
  { rewrite E. apply skip_ws_head, Hc. }
  rewrite Hs.
  pose proof (parse_value_stringify v Hwf (S (2 * length (JSON_stringify v))) []) as Hp.
  rewrite app_nil_r in Hp. rewrite Hp; [| lia | done].
  cbn [mbind option_bind skip_ws]. by rewrite bool_decide_eq_true_2.
Qed.

Lemma serialized_lossless (v : json) : lossless v = true -> serialized v = v.
Proof.
  induction v as [| | | |l IH|o IH] using json_nested_ind; try done.
  - by destruct x.
  - cbn [lossless serialized]. intros H. f_equal.
    induction l as [|a l IHl]; [done|]. simpl in H.
    apply andb_true_iff in H as [Ha Hl]. inversion IH; subst.
    simpl. f_equal; auto.
  - cbn [lossless serialized]. intros H. f_equal.
    induction o as [|[k a] o IHo]; [done|]. simpl in H.
    apply andb_true_iff in H as [Ha Ho]. inversion IH; subst.
    simpl in *. f_equal; [f_equal|]; auto.
Qed.

(** *** The fuel of the parser is enough *)

Lemma skip_ws_length (s : jsstring) : (length (skip_ws s) <= length s)%nat.
Proof.
  induction s as [|c s IH]; simpl; [lia|]. destruct (is_ws c); simpl; lia.
Qed.

Lemma span_digits_length (s ds rest : jsstring) :
  span_digits s = (ds, rest) -> (length rest <= length s)%nat.
Proof.
  revert ds rest. induction s as [|c s IH]; intros ds rest; simpl.
  - intros [= <- <-]. simpl. lia.
  - destruct (is_digit c).
    + destruct (span_digits s) as [ds' r'] eqn:E. intros [= <- <-].
      specialize (IH _ _ eq_refl). lia.
    + intros [= <- <-]. simpl. lia.
Qed.

Lemma strip_prefix_length (p s rest : jsstring) :
  strip_prefix p s = Some rest -> (length rest <= length s)%nat.
Proof.
  revert s. induction p as [|a p IH]; intros s; simpl.
  - intros [= <-]. lia.
  - destruct s as [|b s]; [done|]. destruct (a =? b); [|done].
    intros H. apply IH in H. simpl. lia.
Qed.

Lemma parse_chars_length (s cs rest : jsstring) :
  parse_chars s = Some (cs, rest) -> (length rest < length s)%nat.
Proof.
  remember (length s) as n eqn:Hn. revert s cs rest Hn.
  induction n as [n IH] using lt_wf_ind. intros s cs rest Hn.
  destruct s as [|c r]; [done|]. cbn [parse_chars].
  destruct (c =? 34).
  { intros [= <- <-]. simpl in *. lia. }
  destruct (c =? 92).
  { destruct r as [|e r1]; [done|].
    destruct (e =? "u"%cu).
    - destruct r1 as [|h1 [|h2 [|h3 [|h4 r2]]]]; try done.
      destruct (hex_value h1); [|done]. destruct (hex_value h2); [|done].
      destruct (hex_value h3); [|done]. destruct (hex_value h4); [|done].
      cbn [mbind option_bind].
      destruct (parse_chars r2) as [[cs' rest']|] eqn:E; [|done].
      cbn [mbind option_bind]. intros [= <- <-].
      pose proof (IH (length r2) ltac:(simpl in Hn; lia) r2 _ _ eq_refl E).
      simpl in *. lia.
    - destruct (escape_unit e); [|done]. cbn [mbind option_bind].
      destruct (parse_chars r1) as [[cs' rest']|] eqn:E; [|done].
      cbn [mbind option_bind]. intros [= <- <-].
      pose proof (IH (length r1) ltac:(simpl in Hn; lia) r1 _ _ eq_refl E).
      simpl in *. lia. }
  destruct (c <? 32); [done|].
  destruct (parse_chars r) as [[cs' rest']|] eqn:E; [|done].
  cbn [mbind option_bind]. intros [= <- <-].
  pose proof (IH (length r) ltac:(simpl in Hn; lia) r _ _ eq_refl E).
  simpl in *. lia.
Qed.

Lemma parse_int_length (s int rest : jsstring) :
  parse_int s = Some (int, rest) -> (length rest < length s)%nat.
Proof.
  destruct s as [|c r]; [done|]. unfold parse_int.
  destruct (c =? "0"%cu).
  - intros [= <- <-]. simpl. lia.
  - destruct (is_digit c) eqn:Ed; [|done]. intros H. injection H as H.
    simpl in H. rewrite Ed in H.
    destruct (span_digits r) as [ds r'] eqn:E. injection H as <- <-.
    apply span_digits_length in E. simpl. lia.
Qed.

Lemma parse_frac_length (s frac rest : jsstring) :
  parse_frac s = Some (frac, rest) -> (length rest <= length s)%nat.
Proof.
  destruct s as [|c r]; [by intros [= <- <-]|]. unfold parse_frac.
  destruct (c =? "."%cu); [|by intros [= <- <-]].
  destruct (span_digits r) as [ds r'] eqn:E. apply span_digits_length in E.
  destruct ds; [done|]. intros [= <- <-]. simpl. lia.
Qed.

Lemma parse_exp_length (s rest : jsstring) (x : Z) :
  parse_exp s = Some (x, rest) -> (length rest <= length s)%nat.
Proof.
  destruct s as [|c r]; [by intros [= <- <-]|]. unfold parse_exp.
  destruct ((c =? "e"%cu) || (c =? "E"%cu)); [|by intros [= <- <-]].
  set (p := match r with
            | sg :: r' =>
                if sg =? "-"%cu then (true, r')
                else if sg =? "+"%cu then (false, r') else (false, r)
            | [] => (false, r)
            end).
  assert (Hp : (length (snd p) <= length r)%nat).
  { subst p. destruct r as [|sg r']; [done|].
    destruct (sg =? "-"%cu); [simpl; lia|]. destruct (sg =? "+"%cu); simpl; lia. }
  destruct p as [neg r1]. simpl in Hp.
  destruct (span_digits r1) as [ds r2] eqn:E. apply span_digits_length in E.
  destruct ds; [done|]. intros [= <- <-]. simpl. lia.
Qed.

Lemma parse_number_length (s rest : jsstring) (x : number) :
  parse_number s = Some (x, rest) -> (length rest < length s)%nat.
Proof.
  unfold parse_number.
  set (p := match s with
            | c :: r => if c =? "-"%cu then (true, r) else (false, s)
            | [] => (false, s)
            end).
  assert (Hp : (length (snd p) <= length s)%nat).
  { subst p. destruct s as [|c r]; [done|]. destruct (c =? "-"%cu); simpl; lia. }
  destruct p as [neg s1]. simpl in Hp.
  destruct (parse_int s1) as [[int s2]|] eqn:Ei; [|done]. cbn [mbind option_bind].
  destruct (parse_frac s2) as [[frac s3]|] eqn:Ef; [|done]. cbn [mbind option_bind].
  destruct (parse_exp s3) as [[ex s4]|] eqn:Ee; [|done]. cbn [mbind option_bind].
  intros [= <- <-].
  apply parse_int_length in Ei. apply parse_frac_length in Ef.
  apply parse_exp_length in Ee. lia.
Qed.

(** A successful parse consumes text, and succeeds alike with any fuel
    above twice what it consumes. *)
Lemma parse_fuel (fuel : nat) :
  (forall s v rest, parse_value fuel s = Some (v, rest) ->
     (length rest < length s)%nat
     /\ forall fuel', (2 * (length s - length rest) <= fuel')%nat ->
          parse_value fuel' s = Some (v, rest))
  /\ (forall s vs rest, parse_elements fuel s = Some (vs, rest) ->
     (length rest < length s)%nat
     /\ forall fuel', (2 * (length s - length rest) + 1 <= fuel')%nat ->
          parse_elements fuel' s = Some (vs, rest))
  /\ (forall s ms rest, parse_members fuel s = Some (ms, rest) ->
     (length rest < length s)%nat
     /\ forall fuel', (2 * (length s - length rest) + 1 <= fuel')%nat ->
          parse_members fuel' s = Some (ms, rest)).
Proof.
  induction fuel as [|fuel (IHv & IHe & IHm)]; [by repeat split|].
  split; [|split].
  - intros s v rest. cbn [parse_value]. destruct s as [|c s]; [done|].
    destruct (c =? "{"%cu) eqn:E1.
    { destruct (skip_ws s) as [|c' r'] eqn:Es; [done|].
      pose proof (skip_ws_length s) as Hs. rewrite Es in Hs.
      destruct (c' =? "}"%cu) eqn:E2.
      - intros [= <- <-]. cbn [length] in *. split; [lia|].
        intros [|f'] Hf; [lia|]. cbn [parse_value]. by rewrite E1, Es, E2.
      - destruct (parse_members fuel (c' :: r')) as [[ms rest']|] eqn:E; [|done].
        cbn [mbind option_bind]. intros [= <- <-].
        destruct (IHm _ _ _ E) as [Hl Hm]. cbn [length] in *. split; [lia|].
        intros [|f'] Hf; [lia|]. cbn [parse_value].
        rewrite E1, Es, E2, Hm by (cbn [length]; lia). reflexivity. }
    destruct (c =? "["%cu) eqn:E2.
    { destruct (skip_ws s) as [|c' r'] eqn:Es; [done|].
      pose proof (skip_ws_length s) as Hs. rewrite Es in Hs.
      destruct (c' =? "]"%cu) eqn:E3.
      - intros [= <- <-]. cbn [length] in *. split; [lia|].
        intros [|f'] Hf; [lia|]. cbn [parse_value]. by rewrite E1, E2, Es, E3.
      - destruct (parse_elements fuel (c' :: r')) as [[vs rest']|] eqn:E; [|done].
        cbn [mbind option_bind]. intros [= <- <-].
        destruct (IHe _ _ _ E) as [Hl He]. cbn [length] in *. split; [lia|].
        intros [|f'] Hf; [lia|]. cbn [parse_value].
        rewrite E1, E2, Es, E3, He by (cbn [length]; lia). reflexivity. }
    destruct (c =? 34) eqn:E3.
    { destruct (parse_chars s) as [[cs rest']|] eqn:E; [|done].
      cbn [mbind option_bind]. intros [= <- <-].
      apply parse_chars_length in E as Hl. cbn [length]. split; [lia|].
      intros [|f'] Hf; [lia|]. cbn [parse_value]. by rewrite E1, E2, E3, E. }
    destruct (c =? "t"%cu) eqn:E4.
    { destruct (strip_prefix _ s) as [rest'|] eqn:E; [|done].
      cbn [mbind option_bind]. intros [= <- <-].
      apply strip_prefix_length in E as Hl. cbn [length]. split; [lia|].
      intros [|f'] Hf; [lia|]. cbn [parse_value]. by rewrite E1, E2, E3, E4, E. }
    destruct (c =? "f"%cu) eqn:E5.
    { destruct (strip_prefix _ s) as [rest'|] eqn:E; [|done].
      cbn [mbind option_bind]. intros [= <- <-].
      apply strip_prefix_length in E as Hl. cbn [length]. split; [lia|].
      intros [|f'] Hf; [lia|]. cbn [parse_value]. by rewrite E1, E2, E3, E4, E5, E. }
    destruct (c =? "n"%cu) eqn:E6.
    { destruct (strip_prefix _ s) as [rest'|] eqn:E; [|done].
      cbn [mbind option_bind]. intros [= <- <-].
      apply strip_prefix_length in E as Hl. cbn [length]. split; [lia|].
      intros [|f'] Hf; [lia|]. cbn [parse_value].
      by rewrite E1, E2, E3, E4, E5, E6, E. }
    destruct (parse_number (c :: s)) as [[x rest']|] eqn:E; [|done].
    cbn [mbind option_bind]. intros [= <- <-].
    apply parse_number_length in E as Hl. split; [lia|].
    intros [|f'] Hf; [lia|]. cbn [parse_value].
    by rewrite E1, E2, E3, E4, E5, E6, E.
  - intros s vs rest. cbn [parse_elements].
    destruct (parse_value fuel s) as [[v r]|] eqn:E; [|done].
    cbn [mbind option_bind]. destruct (IHv _ _ _ E) as [Hl Hv].
    destruct (skip_ws r) as [|c r'] eqn:Es; [done|].
    pose proof (skip_ws_length r) as Hs. rewrite Es in Hs. cbn [length] in Hs.
    destruct (c =? ","%cu) eqn:E1.
    + destruct (parse_elements fuel (skip_ws r')) as [[vs' rest']|] eqn:E'; [|done].
      cbn [mbind option_bind]. intros [= <- <-].
      destruct (IHe _ _ _ E') as [Hl' He]. pose proof (skip_ws_length r') as Hs'.
      split; [lia|]. intros [|f'] Hf; [lia|]. cbn [parse_elements].
      rewrite Hv by lia. cbn [mbind option_bind].
      rewrite Es, E1, He by lia. reflexivity.
    + destruct (c =? "]"%cu) eqn:E2; [|done]. intros [= <- <-].
      split; [lia|]. intros [|f'] Hf; [lia|]. cbn [parse_elements].
      rewrite Hv by lia. cbn [mbind option_bind]. by rewrite Es, E1, E2.
  - intros s ms rest. cbn [parse_members]. destruct s as [|c s]; [done|].
    destruct (c =? 34) eqn:E0; [|done].
    destruct (parse_chars s) as [[k r1]|] eqn:Ek; [|done]. cbn [mbind option_bind].
    apply parse_chars_length in Ek as Hk.
    destruct (skip_ws r1) as [|c1 r2] eqn:Es1; [done|].
    pose proof (skip_ws_length r1) as Hs1. rewrite Es1 in Hs1. cbn [length] in Hs1.
    destruct (c1 =? ":"%cu) eqn:E1; [|done].
    destruct (parse_value fuel (skip_ws r2)) as [[v r3]|] eqn:E; [|done].
    cbn [mbind option_bind]. destruct (IHv _ _ _ E) as [Hl Hv].
    pose proof (skip_ws_length r2) as Hs2.
    destruct (skip_ws r3) as [|c3 r4] eqn:Es3; [done|].
    pose proof (skip_ws_length r3) as Hs3. rewrite Es3 in Hs3. cbn [length] in Hs3.
    destruct (c3 =? ","%cu) eqn:E3.
    + destruct (parse_members fuel (skip_ws r4)) as [[ms' rest']|] eqn:E'; [|done].
      cbn [mbind option_bind]. intros [= <- <-].
      destruct (IHm _ _ _ E') as [Hl' Hm]. pose proof (skip_ws_length r4) as Hs4.
      cbn [length]. split; [lia|]. intros [|f'] Hf; [lia|]. cbn [parse_members].
      rewrite E0, Ek. cbn [mbind option_bind]. rewrite Es1, E1, Hv by lia.
      cbn [mbind option_bind]. rewrite Es3, E3, Hm by lia. reflexivity.
    + destruct (c3 =? "}"%cu) eqn:E4; [|done]. intros [= <- <-].
      cbn [length]. split; [lia|]. intros [|f'] Hf; [lia|]. cbn [parse_members].
      rewrite E0, Ek. cbn [mbind option_bind]. rewrite Es1, E1, Hv by lia.
      cbn [mbind option_bind]. by rewrite Es3, E3, E4.
Qed.

(** [JSON_parse] gives the text enough fuel: a text that parses with any
    fuel parses with that of [JSON_parse], to the same value. *)
Lemma JSON_parse_complete (text rest : jsstring) (v : json) (fuel : nat) :
  parse_value fuel (skip_ws text) = Some (v, rest) ->
  skip_ws rest = [] ->
  JSON_parse text = Some v.
Proof.
  intros Hp Hr. unfold JSON_parse.
  destruct (proj1 (parse_fuel fuel) _ _ _ Hp) as [Hl Hf].
  pose proof (skip_ws_length text) as Hs.
  rewrite Hf by lia. cbn [mbind option_bind]. by rewrite bool_decide_eq_true_2.
Qed.

(** ** The value [saveItem] sends *)

Lemma isJson_true (text : jsstring) :
  isJson text = true <-> exists v, JSON_parse text = Some v /\ is_object v = true.
Proof.
  unfold isJson. destruct (JSON_parse text) as [v|].
  - split; [by exists v | by intros (? & [= <-] & ?)].
  - split; [done | by intros (? & ? & ?)].
Qed.

Lemma minify_structured (text : jsstring) (v : json) :
  JSON_parse text = Some v -> is_object v = true -> minify text = JSON_stringify v.
Proof. intros Hp Ho. unfold minify, isJson. by rewrite Hp, Ho. Qed.

Lemma minify_plain (text : jsstring) : isJson text = false -> minify text = text.
Proof. intros H. unfold minify. by rewrite H. Qed.

Lemma is_object_serialized (v : json) : is_object (serialized v) = is_object v.
Proof. by destruct v as [| |[]| | |]. Qed.

(** Serializing does not see what it does not keep. *)
Lemma JSON_stringify_serialized (v : json) :
  JSON_stringify (serialized v) = JSON_stringify v.
Proof.
  induction v as [| |x| |l IH|o IH] using json_nested_ind; try done.
  - by destruct x.
  - cbn [serialized JSON_stringify]. do 3 f_equal.
    induction IH as [|a l Ha _ IHl]; [done|]. simpl. by rewrite Ha, IHl.
  - cbn [serialized JSON_stringify]. do 3 f_equal.
    induction IH as [|[k a] o Ha _ IHo]; [done|]. simpl in *. by rewrite Ha, IHo.
Qed.

(** The minified text of a structured value parses to what serializing
    keeps of the value, and minifying it again changes nothing. *)
Lemma minify_parse (text : jsstring) (v : json) :
  JSON_parse text = Some v -> is_object v = true ->
  JSON_parse (minify text) = Some (serialized v)
  /\ minify (minify text) = minify text.
Proof.
  intros Hp Ho. rewrite (minify_structured text v Hp Ho).
  pose proof (JSON_parse_stringify v (JSON_parse_wf text v Hp)) as Hr.
  split; [done|].
  rewrite (minify_structured _ _ Hr) by (by rewrite is_object_serialized).
  apply JSON_stringify_serialized.
Qed.

Section Saving.
Context {J : Type} {CS : CookieStore J}.
Variable epoch_seconds : jsstring -> number.

(** Outside the cookie tab [saveItem] makes one call, which carries the
    minified value. *)
Lemma saveItem_webStorage_run (form : EditForm) (st : State J) :
  currentTab (this st) <> str "cookies" ->
  trim (itemKey form) <> [] ->
  let sent :=
    exec (setWebStorageItem (currentTab (this st)) (trim (itemKey form))
            (minify (itemValue form))) st in
  let st' := exec (saveItem epoch_seconds form) st in
  calls (chrome st') = calls (chrome sent)
  /\ outcomes (chrome st') = outcomes (chrome sent)
  /\ page_local (chrome st') = page_local (chrome sent)
  /\ page_session (chrome st') = page_session (chrome sent)
  /\ data (this st') = data (this sent)
  /\ currentUrl (this st') = currentUrl (this sent).
Proof.
  intros Htab Hkey. unfold exec, saveItem.
  rewrite bool_decide_eq_false_2 by done.
  unfold bind, get. cbv beta iota. rewrite bool_decide_eq_false_2 by done.
  destruct (setWebStorageItem _ _ _ st) as [[] st1]; repeat split; reflexivity.
Qed.

Lemma saveItem_webStorage_calls (form : EditForm) (st : State J) :
  currentTab (this st) <> str "cookies" ->
  trim (itemKey form) <> [] ->
  calls (chrome (exec (saveItem epoch_seconds form) st)) =
    calls (chrome st) ++
    [ExecSetItem (currentTab (this st)) (trim (itemKey form)) (minify (itemValue form))].
Proof.
  intros Htab Hkey.
  rewrite (proj1 (saveItem_webStorage_run form st Htab Hkey)).
  unfold exec. rewrite setWebStorageItem_run. cbv zeta.
  destruct (next_outcome (chrome st));
    destruct (data_get (currentTab (this st)) (data (this st))); simpl;
    unfold page_update; destruct (kind_of (currentTab (this st))) as [[]|]; reflexivity.
Qed.

Lemma kind_of_not_cookies (type : jsstring) (k : kind) :
  kind_of type = Some k -> type <> str "cookies".
Proof. intros H ->. discriminate H. Qed.

(** An edit on a key-value tab, then a load, every call fulfilled: the
    mirror holds the minified value under the key, and what the page had
    under its other keys; under [__proto__] it holds nothing. *)
Lemma saveItem_then_load (form : EditForm) (st : State J) (k : kind) (order : list load) :
  kind_of (currentTab (this st)) = Some k ->
  trim (itemKey form) <> [] ->
  all_fulfilled (chrome st) ->
  order ≡ₚ [LoadLocal; LoadSession; LoadCookies] ->
  exists m,
    data_get (currentTab (this st))
      (data (this (exec (loadAllData_in order) (exec (saveItem epoch_seconds form) st))))
      = Some m
    /\ forall key,
         obj_get key m =
           if decide (key = str "__proto__") then None
           else if decide (key = trim (itemKey form)) then Some (minify (itemValue form))
           else storage_getItem key (page_of k (chrome st)).
Proof.
  intros Hk Hkey Hall Hp.
  pose proof (kind_of_not_cookies _ _ Hk) as Htab.
  destruct (saveItem_webStorage_run form st Htab Hkey) as (_ & Hos & Hpl & Hps & _ & _).
  rewrite loadAllData_in_data by done. cbv zeta.
  set (st' := exec (saveItem epoch_seconds form) st) in *.
  assert (Hall' : all_fulfilled (chrome st')).
  { unfold all_fulfilled in *. rewrite Hos. unfold exec.
    rewrite setWebStorageItem_run. cbv zeta.
    assert (Htl : Forall (fun o => o = Fulfilled) (tl (outcomes (chrome st)))).
    { destruct (outcomes (chrome st)); [done|]. by inversion Hall. }
    destruct (next_outcome (chrome st));
      destruct (data_get (currentTab (this st)) (data (this st))); simpl;
      unfold page_update; rewrite ?Hk; by destruct k. }
  rewrite !all_fulfilled_nth by done. cbn [load_failed].
  assert (Hnext : next_outcome (chrome st) = Fulfilled).
  { unfold next_outcome. unfold all_fulfilled in Hall.
    destruct (outcomes (chrome st)); [done|]. by inversion Hall. }
  unfold data_get. rewrite Hk.
  assert (Hpage : page_of k (chrome st') =
    storage_setItem (trim (itemKey form)) (minify (itemValue form)) (page_of k (chrome st))).
  { destruct k; cbn [page_of]; rewrite ?Hpl, ?Hps; unfold exec;
      rewrite setWebStorageItem_run; cbv zeta; rewrite Hnext;
      unfold page_update, data_get; rewrite Hk; reflexivity. }
  destruct k; cbn [page_of] in Hpage; eexists; (split; [reflexivity|]);
    intros key; cbn [localStorage sessionStorage];
    rewrite read_storage_get, Hpage; (case_decide; [done|]);
    apply storage_getItem_setItem.
Qed.
End Saving.

(** ** Editing a value *)

(** C1, as stated, fails: [[1e400]] is a well-formed array, the literal
    is too large for a double and is parsed as [Infinity], which
    [JSON.stringify] writes [null]; the value sent, [[null]], does not
    parse to what the submitted text parses to. *)
Lemma minify_overflow_not_identical :
  ~ (forall (text : jsstring) (v : json),
       JSON_parse text = Some v -> is_object v = true ->
       JSON_parse (minify text) = Some v).
Proof.
  intros H.
  specialize (H (js "[1e400]") (JArray [JNumber (Infinite false)])).
  vm_compute in H. specialize (H eq_refl eq_refl). discriminate H.
Qed.

(** The texts of that example. *)
Example minify_overflow_texts :
  JSON_parse (js "[1e400]") = Some (JArray [JNumber (Infinite false)])
  /\ minify (js "[1e400]") = js "[null]"
  /\ JSON_parse (js "[null]") = Some (JArray [JNull])
  /\ minify (js "[-0]") = js "[0]"
  /\ JSON_parse (js "[-0]") = Some (JArray [JNumber NegZero])
  /\ JSON_parse (js "[0]") = Some (JArray [JNumber (Finite 0 0)]).
Proof. vm_compute. repeat split. Qed.

(** A number literal is sent as its double is written: the text changes,
    the number it is read as does not. *)
Example minify_rounds_to_double :
  minify (js "[9007199254740993, 0.1e1, 1e21]") = js "[9007199254740992,1,1e+21]"
  /\ JSON_parse (js "[9007199254740993, 0.1e1, 1e21]")
     = JSON_parse (js "[9007199254740992,1,1e+21]").
Proof. vm_compute. split; reflexivity. Qed.

(** C1, amended: a submitted text that parses to an object or an array is
    replaced by the serialization of the parsed value, which has no white
    space outside its string literals and which minifying again leaves as
    it is; the text sent parses to what serializing keeps of the value,
    which is the value itself when no number in it is an infinity or the
    negative zero.  A text that does not parse is sent as it is.  The
    value of the one call [saveItem] makes is that text, on a key-value
    tab and on the cookie tab; and after an edit on a key-value tab and a
    load, every call fulfilled, the mirror holds that text under the key,
    unless the key is [__proto__], which the mirror never has. *)
Theorem saveItem_minifies {J} `{CookieStore J} (epoch_seconds : jsstring -> number) :
  (forall (text : jsstring) (v : json),
     JSON_parse text = Some v -> is_object v = true ->
     minify text = JSON_stringify v
     /\ compact (minify text)
     /\ minify (minify text) = minify text
     /\ JSON_parse (minify text) = Some (serialized v)
     /\ (lossless v = true -> JSON_parse (minify text) = Some v))
  /\ (forall text : jsstring, JSON_parse text = None -> minify text = text)
  /\ (forall (form : EditForm) (st : State J),
        trim (itemKey form) <> [] ->
        let st' := exec (saveItem epoch_seconds form) st in
        (currentTab (this st) <> str "cookies" ->
         calls (chrome st') =
           calls (chrome st) ++
           [ExecSetItem (currentTab (this st)) (trim (itemKey form))
              (minify (itemValue form))])
        /\ (currentTab (this st) = str "cookies" ->
            exists cookie rest,
              calls (chrome st') = calls (chrome st) ++ CookiesSet cookie :: rest
              /\ Details.value cookie = minify (itemValue form))
        /\ (forall (k : kind) (order : list load),
              kind_of (currentTab (this st)) = Some k ->
              all_fulfilled (chrome st) ->
              order ≡ₚ [LoadLocal; LoadSession; LoadCookies] ->
              exists m,
                data_get (currentTab (this st))
                  (data (this (exec (loadAllData_in order) st'))) = Some m
                /\ forall key,
                     obj_get key m =
                       if decide (key = str "__proto__") then None
                       else if decide (key = trim (itemKey form))
                       then Some (minify (itemValue form))
                       else storage_getItem key (page_of k (chrome st)))).
Proof.
  split; [|split].
  - intros text v Hp Ho.
    destruct (minify_parse text v Hp Ho) as [Hparse Hidem].
    pose proof (minify_structured text v Hp Ho) as Hm.
    repeat split; try done.
    + rewrite Hm. apply JSON_stringify_compact.
    + intros Hl. by rewrite Hparse, serialized_lossless.
  - intros text Hp. apply minify_plain. unfold isJson. by rewrite Hp.
  - intros form st Hkey st'. subst st'. split; [|split].
    + intros Htab. by apply saveItem_webStorage_calls.
    + intros Htab. eexists _, _. split; [by apply saveItem_cookie_calls|]. reflexivity.
    + intros k order Hk Hall Hp. by apply saveItem_then_load.
Qed.

Lemma saveItem_minifies_witness :
  minify (js "{ 'b' : [1, 2.50],  'a' : null }") =
    JSON_stringify
      (JObject [(str "b", JArray [JNumber (Finite 1 0); JNumber (Finite 25 (-1))]);
                (str "a", JNull)])
  /\ JSON_parse (minify (js "{ 'b' : [1, 2.50],  'a' : null }")) =
       Some (JObject [(str "b", JArray [JNumber (Finite 1 0); JNumber (Finite 25 (-1))]);
                      (str "a", JNull)]).
Proof.
  destruct (proj1 (saveItem_minifies (J := list Details.t) (fun _ => NaN))
              (js "{ 'b' : [1, 2.50],  'a' : null }")
              (JObject [(str "b", JArray [JNumber (Finite 1 0); JNumber (Finite 25 (-1))]);
                        (str "a", JNull)]))
    as (H1 & _ & _ & _ & H5).
  - vm_compute. reflexivity.
  - reflexivity.
  - split; [exact H1 | apply H5; reflexivity].
Defined.

(** C9: a text that parses to a number, a boolean, [null] or a string is
    not taken for JSON by [isJson], [saveItem] keeps it as it is, and the
    one call [saveItem] makes carries it unchanged. *)
Theorem saveItem_keeps_scalar {J} `{CookieStore J} (epoch_seconds : jsstring -> number)
    (text : jsstring) (v : json) :
  JSON_parse text = Some v ->
  is_object v = false ->
  isJson text = false
  /\ minify text = text
  /\ forall (form : EditForm) (st : State J),
       itemValue form = text ->
       trim (itemKey form) <> [] ->
       let st' := exec (saveItem epoch_seconds form) st in
       (currentTab (this st) <> str "cookies" ->
        calls (chrome st') =
          calls (chrome st) ++
          [ExecSetItem (currentTab (this st)) (trim (itemKey form)) text])
       /\ (currentTab (this st) = str "cookies" ->
           exists cookie rest,
             calls (chrome st') = calls (chrome st) ++ CookiesSet cookie :: rest
             /\ Details.value cookie = text).
Proof.
  intros Hp Ho.
  assert (Hj : isJson text = false) by (unfold isJson; by rewrite Hp).
  pose proof (minify_plain text Hj) as Hm.
  split; [done|]. split; [done|].
  intros form st Hv Hkey st'. subst st'. split.
  - intros Htab. rewrite saveItem_webStorage_calls by done. by rewrite Hv, Hm.
  - intros Htab. eexists _, _. split; [by apply saveItem_cookie_calls|].
    cbn. by rewrite Hv, Hm.
Qed.

Lemma saveItem_keeps_scalar_witness :
  (isJson (js "123") = false /\ minify (js "123") = js "123")
  /\ (isJson (js "true") = false /\ minify (js "true") = js "true")
  /\ (isJson (js "null") = false /\ minify (js "null") = js "null")
  /\ (isJson (js "'hi'") = false /\ minify (js "'hi'") = js "'hi'").
Proof.
  pose proof (saveItem_keeps_scalar (J := list Details.t) (fun _ => NaN)
                (js "123") (JNumber (Finite 123 0)) eq_refl eq_refl) as (A1 & A2 & _).
  pose proof (saveItem_keeps_scalar (J := list Details.t) (fun _ => NaN)
                (js "true") (JBool true) eq_refl eq_refl) as (B1 & B2 & _).
  pose proof (saveItem_keeps_scalar (J := list Details.t) (fun _ => NaN)
                (js "null") JNull eq_refl eq_refl) as (C1 & C2 & _).
  pose proof (saveItem_keeps_scalar (J := list Details.t) (fun _ => NaN)
                (js "'hi'") (JString (str "hi")) eq_refl eq_refl) as (D1 & D2 & _).
  repeat split; assumption.
Defined.

(** * Further properties *)

(** ** Saving from the dialog *)

Lemma trim_start_blank (s : jsstring) :
  trim_start s = [] <-> forallb is_trim_space s = true.
Proof.
  induction s as [|c s IH]; simpl; [done|].
  destruct (is_trim_space c); simpl; [exact IH|]. split; discriminate.
Qed.

Lemma forallb_rev {A} (f : A -> bool) (l : list A) :
  forallb f (rev l) = forallb f l.
Proof.
  induction l as [|a l IH]; simpl; [done|].
  rewrite forallb_app, IH. simpl. rewrite andb_true_r. apply andb_comm.
Qed.

Lemma trim_blank (s : jsstring) : trim s = [] <-> forallb is_trim_space s = true.
Proof.
  unfold trim. split.
  - intros H. apply (f_equal (@rev N)) in H. rewrite rev_involutive in H. simpl in H.
    apply trim_start_blank in H. rewrite forallb_rev in H.
    assert (Hs : trim_start s = []).
    { destruct (trim_start s) as [|c r] eqn:E; [done|].
      assert (Hc : is_trim_space c = false).
      { clear H. induction s as [|a s IH]; simpl in E; [done|].
        destruct (is_trim_space a) eqn:Ea; [by apply IH|]. by injection E as <- _. }
      simpl in H. by rewrite Hc in H. }
    by apply trim_start_blank.
  - intros H. apply trim_start_blank in H. by rewrite H.
Qed.

Section Saving2.
Context {J : Type} {CS : CookieStore J}.
Variable epoch_seconds : jsstring -> number.

(** X1: a key of nothing but white space is refused: [saveItem] shows
    [Key is required] and does nothing else, whatever the tab and the
    value; no call is made and the mirror is not touched. *)
Theorem saveItem_blank_key (form : EditForm) (st : State J) :
  forallb is_trim_space (itemKey form) = true ->
  exec (saveItem epoch_seconds form) st =
    {| this := this st;
       chrome := add_toast (str "Key is required", str "error") (chrome st) |}.
Proof.
  intros H. apply trim_blank in H. unfold exec, saveItem.
  by rewrite bool_decide_eq_true_2.
Qed.

(** The adapters show no toast. *)
Lemma setWebStorageItem_toasts (type key value : jsstring) (st : State J) :
  toasts (chrome (exec (setWebStorageItem type key value) st)) = toasts (chrome st).
Proof.
  unfold exec. rewrite setWebStorageItem_run. cbv zeta.
  destruct (next_outcome (chrome st));
    destruct (data_get type (data (this st))); simpl;
    unfold page_update; destruct (kind_of type) as [[]|]; reflexivity.
Qed.

(** X2: with a key, [saveItem] shows one toast: [Failed to save] when
    the call that writes is rejected, and [Added] otherwise, also when an
    existing entry was being edited; it never shows [Updated], the dialog
    having been closed, and [editingItem] cleared, before the message is
    chosen. *)
Theorem saveItem_toast (form : EditForm) (st : State J) :
  trim (itemKey form) <> [] ->
  currentTab (this st) = str "cookies" \/ kind_of (currentTab (this st)) <> None ->
  let st' := exec (saveItem epoch_seconds form) st in
  toasts (chrome st') =
    toasts (chrome st) ++
    [match next_outcome (chrome st) with
     | Rejected => (str "Failed to save", str "error")
     | _ => (str "Added", str "success")
     end]
  /\ editingItem (this st') =
       match next_outcome (chrome st) with
       | Rejected => editingItem (this st)
       | _ => None
       end.
Proof.
  intros Hkey Htab st'. subst st'. unfold exec, saveItem.
  rewrite bool_decide_eq_false_2 by done.
  unfold bind, get. cbv beta iota.
  destruct Htab as [Htab|Htab].
  - rewrite Htab. rewrite bool_decide_eq_true_2 by done.
    destruct st as [i [pl ps j ins th nw os cs ts]].
    unfold setCookie, chrome_cookies_set, loadCookies, loadCookies_start,
      loadCookies_resume, chrome_cookies_getAll, chrome_call, updateCount,
      closeModal, renderCurrentTab, showToast,
      bind, ret, get, modify_this, modify_chrome, next_outcome.
    destruct os as [|[] [|[] os]]; simpl; split; reflexivity.
  - assert (Hnc : currentTab (this st) <> str "cookies").
    { intros E. rewrite E in Htab. by apply Htab. }
    rewrite bool_decide_eq_false_2 by done.
    rewrite setWebStorageItem_run. cbv zeta.
    unfold data_get, page_update.
    destruct (kind_of (currentTab (this st))) as [k|]; [|done].
    destruct (next_outcome (chrome st)); destruct k; simpl; split; reflexivity.
Qed.

End Saving2.

Lemma saveItem_blank_key_witness :
  calls (chrome (exec (saveItem (fun _ => NaN) (typed [32; 9; 160] (js "{'a':1}") blank_form))
                      (page_a1 []))) = [].
Proof.
  rewrite (saveItem_blank_key (fun _ => NaN) (typed [32; 9; 160] (js "{'a':1}") blank_form)
             (page_a1 [])).
  - reflexivity.
  - reflexivity.
Defined.

Lemma saveItem_toast_witness :
  toasts (chrome (exec (saveItem (fun _ => NaN) (typed (str "a") (str "2") blank_form))
                       (exec (modify_this (set_editingItem (Some (str "a")))) (page_a1 []))))
  = [(str "Added", str "success")].
Proof.
  apply (saveItem_toast (fun _ => NaN) (typed (str "a") (str "2") blank_form)
           (exec (modify_this (set_editingItem (Some (str "a")))) (page_a1 []))).
  - discriminate.
  - right. discriminate.
Defined.

(** X3: minifying does not change what [isJson] says: the value that
    [saveItem] sends is taken for JSON exactly when the submitted value
    was. *)
Theorem isJson_minify (text : jsstring) : isJson (minify text) = isJson text.
Proof.
  destruct (isJson text) eqn:E.
  - apply isJson_true in E as (v & Hp & Ho).
    apply isJson_true. exists (serialized v). split.
    + apply (minify_parse text v Hp Ho).
    + by rewrite is_object_serialized.
  - by rewrite minify_plain.
Qed.

(** ** The cookie adapter *)

Section CookieAdapter.
Context {J : Type} {CS : CookieStore J}.

(** X4: [setCookie] and [removeCookie] answer [false] exactly when their
    call is rejected, and then nothing is reloaded and the inspector is as
    it was.  Otherwise they answer [true] after a reload whose failure
    they do not see: the mirror then holds what the reload gave, and no
    cookie at all when the reload failed. *)
Theorem cookie_mutation_reported (st : State J) (cookie : Cookie.t) (name : jsstring) :
  let url := origin (currentUrl (this st)) in
  let reloaded (b : Browser J) :=
    if load_failed (nth_outcome 1 (chrome st)) then [] else jar_getAll url (jar b) in
  (let request := setCookie_details (currentUrl (this st)) cookie in
   let ok := eval (setCookie cookie) st in
   let st' := exec (setCookie cookie) st in
   (ok = false <-> next_outcome (chrome st) = Rejected)
   /\ (ok = false ->
       this st' = this st /\ calls (chrome st') = calls (chrome st) ++ [CookiesSet request])
   /\ (ok = true ->
       calls (chrome st') = calls (chrome st) ++ [CookiesSet request; CookiesGetAll url]
       /\ cookies (data (this st')) = reloaded (chrome st')))
  /\
  (let ok := eval (removeCookie name) st in
   let st' := exec (removeCookie name) st in
   (ok = false <-> next_outcome (chrome st) = Rejected)
   /\ (ok = false ->
       this st' = this st
       /\ calls (chrome st') = calls (chrome st) ++ [CookiesRemove url name])
   /\ (ok = true ->
       calls (chrome st') = calls (chrome st) ++ [CookiesRemove url name; CookiesGetAll url]
       /\ cookies (data (this st')) = reloaded (chrome st'))).
Proof.
  destruct st as [i [pl ps j ins th nw os cs ts]].
  unfold exec, eval, setCookie, removeCookie, chrome_cookies_set, chrome_cookies_remove,
    loadCookies, loadCookies_start, loadCookies_resume, chrome_cookies_getAll,
    chrome_call, updateCount, bind, ret, get, modify_this, modify_chrome,
    next_outcome, nth_outcome.
  destruct os as [|[] [|[] os]]; simpl;
    repeat split; intros; try discriminate; try congruence;
      rewrite <- ?app_assoc; reflexivity.
Qed.

End CookieAdapter.

(** ** Deleting, adding and editing from the list *)

Section Dialog2.
Context {J : Type} {CS : CookieStore J}.
Variable epoch_seconds : jsstring -> number.

Lemma data_get_mirror (type : jsstring) (k : kind) (d : Data) :
  kind_of type = Some k -> data_get type d = Some (mirror_of k d).
Proof. intros H. unfold data_get. rewrite H. by destruct k. Qed.

(** X5: [deleteItem] does nothing when the user cancels.  Confirmed on a
    key-value tab, it makes one call that removes the key and shows
    [Failed to delete] when the call is rejected, the mirror being as it
    was, and [Deleted] otherwise, the mirror having lost the key and
    nothing else; the page has lost the key when the call was fulfilled.
    A key that was not there is reported [Deleted] like any other. *)
Theorem deleteItem_effect (st : State J) (key : jsstring) (k : kind) :
  kind_of (currentTab (this st)) = Some k ->
  exec (deleteItem false key) st = st
  /\ (let st' := exec (deleteItem true key) st in
      calls (chrome st') =
        calls (chrome st) ++ [ExecRemoveItem (currentTab (this st)) key]
      /\ toasts (chrome st') =
           toasts (chrome st) ++
           [match next_outcome (chrome st) with
            | Rejected => (str "Failed to delete", str "error")
            | _ => (str "Deleted", str "success")
            end]
      /\ (forall key',
            obj_get key' (mirror_of k (data (this st'))) =
              match next_outcome (chrome st) with
              | Rejected => obj_get key' (mirror_of k (data (this st)))
              | _ =>
                  if decide (key' = key) then None
                  else obj_get key' (mirror_of k (data (this st)))
              end)
      /\ (forall key',
            storage_getItem key' (page_of k (chrome st')) =
              match next_outcome (chrome st) with
              | Fulfilled =>
                  if decide (key' = key) then None
                  else storage_getItem key' (page_of k (chrome st))
              | _ => storage_getItem key' (page_of k (chrome st))
              end)).
Proof.
  intros Hk. split; [reflexivity|]. cbv zeta.
  assert (Hnc : currentTab (this st) <> str "cookies").
  { intros E. rewrite E in Hk. discriminate Hk. }
  unfold exec, deleteItem. cbn [negb]. unfold bind, get. cbv beta iota.
  rewrite bool_decide_eq_false_2 by done.
  rewrite removeWebStorageItem_run. cbv zeta.
  rewrite (data_get_mirror _ k _ Hk). unfold page_update, data_set. rewrite Hk.
  destruct (next_outcome (chrome st)); destruct k;
    cbn -[obj_get obj_delete storage_removeItem storage_getItem];
    repeat split; try intros key';
    first [reflexivity | apply obj_get_delete | apply storage_getItem_removeItem].
Qed.

(** X6: a cookie added from the dialog with the fields as [openAddModal]
    sets them is written for the current host only and for the session:
    the request has the origin as its URL, the trimmed key and the
    minified value, the path [/], [sameSite] [lax], [secure] exactly on an
    [https:] page, no [httpOnly], no domain and no expiry. *)
Theorem openAddModal_cookie (form0 : EditForm) (st : State J) (key value : jsstring) :
  currentTab (this st) = str "cookies" ->
  startsWith_dot (hostname (currentUrl (this st))) = false ->
  trim key <> [] ->
  let form := eval (openAddModal form0) st in
  let st1 := exec (openAddModal form0) st in
  let st' := exec (saveItem epoch_seconds (typed key value form)) st1 in
  itemKey form = [] /\ itemValue form = []
  /\ editingItem (this st1) = None
  /\ exists rest,
       calls (chrome st') =
         calls (chrome st) ++
         CookiesSet
           {| Details.url := origin (currentUrl (this st));
              Details.name := trim key;
              Details.value := minify value;
              Details.path := str "/";
              Details.secure :=
                bool_decide (protocol (currentUrl (this st)) = str "https:");
              Details.httpOnly := false;
              Details.sameSite := str "lax";
              Details.domain := None;
              Details.expirationDate := None |} :: rest.
Proof.
  intros Htab Hdot Hkey form st1 st'.
  assert (Hform : form =
    {| itemKey := []; itemValue := [];
       cookieDomain := hostname (currentUrl (this st));
       cookiePath := str "/"; cookieExpires := [];
       cookieSecure := bool_decide (protocol (currentUrl (this st)) = str "https:");
       cookieHttpOnly := false; cookieSameSite := str "lax" |}).
  { subst form. unfold eval, openAddModal, bind, get. cbv beta iota.
    by rewrite bool_decide_eq_true_2. }
  assert (Hst1 : st1 = {| this := set_editingItem None (this st); chrome := chrome st |}).
  { subst st1. unfold exec, openAddModal, bind, get. cbv beta iota. reflexivity. }
  subst st'. clearbody form st1. subst form st1.
  split; [done|]. split; [done|]. split; [done|].
  eexists. rewrite saveItem_cookie_calls; [|done | done].
  cbn [this chrome set_editingItem currentUrl]. f_equal. f_equal. f_equal.
  unfold setCookie_details, cookieData_of, typed, cookie_domain, strip_dot.
  destruct (hostname (currentUrl (this st))) as [|c h].
  - reflexivity.
  - cbn [startsWith_dot] in Hdot. cbn -[trim minify str N.eqb]. rewrite Hdot.
    rewrite decide_False by (intros Hne; by apply Hne). reflexivity.
Qed.

End Dialog2.

(** ** Reading back an indented serialization *)

Lemma skip_ws_app (ws s : jsstring) :
  forallb is_ws ws = true -> skip_ws (ws ++ s) = skip_ws s.
Proof.
  induction ws as [|c ws IH]; [done|]. cbn [forallb app skip_ws].
  intros H. apply andb_true_iff in H as [-> H]. by apply IH.
Qed.

Lemma is_ws_cases (c : N) : is_ws c = true -> c = 9 \/ c = 10 \/ c = 13 \/ c = 32.
Proof.
  unfold is_ws. rewrite !orb_true_iff, !N.eqb_eq. tauto.
Qed.

Lemma value_end_number (rest : jsstring) : value_end rest -> number_end rest.
Proof.
  destruct rest as [|c r]; [done|]. cbn [value_end].
  intros [->|[->|[->|H]]]; [done..|].
  apply is_ws_cases in H as [->|[->|[->| ->]]]; done.
Qed.

Lemma value_end_app (ws rest : jsstring) :
  forallb is_ws ws = true -> value_end rest -> value_end (ws ++ rest).
Proof.
  destruct ws as [|c ws]; [done|]. cbn [forallb app value_end].
  intros H _. apply andb_true_iff in H as [-> _]. auto.
Qed.

Lemma parse_value_fuel (f : nat) (s rest : jsstring) (v : json) :
  parse_value f s = Some (v, rest) ->
  forall f', (2 * length s <= f')%nat -> parse_value f' s = Some (v, rest).
Proof.
  intros H f' Hf. destruct (proj1 (parse_fuel f) _ _ _ H) as [Hl Hp].
  apply Hp. lia.
Qed.

Lemma parse_elements_fuel (f : nat) (s rest : jsstring) (vs : list json) :
  parse_elements f s = Some (vs, rest) ->
  forall f', (2 * length s + 1 <= f')%nat -> parse_elements f' s = Some (vs, rest).
Proof.
  intros H f' Hf. destruct (proj1 (proj2 (parse_fuel f)) _ _ _ H) as [Hl Hp].
  apply Hp. lia.
Qed.

Lemma parse_members_fuel (f : nat) (s rest : jsstring) (ms : list (jsstring * json)) :
  parse_members f s = Some (ms, rest) ->
  forall f', (2 * length s + 1 <= f')%nat -> parse_members f' s = Some (ms, rest).
Proof.
  intros H f' Hf. destruct (proj2 (proj2 (parse_fuel f)) _ _ _ H) as [Hl Hp].
  apply Hp. lia.
Qed.

Lemma JSON_stringify_gap_head (gap : jsstring) (v : json) (indent : jsstring) :
  exists c r, JSON_stringify_gap gap v indent = c :: r /\ value_head c.
Proof.
  destruct v as [| | | |l|o]; try apply JSON_stringify_head.
  - cbn [JSON_stringify_gap]. destruct (map _ l); [by eexists _, _|].
    destruct gap; by eexists _, _.
  - cbn [JSON_stringify_gap]. destruct (map _ o); [by eexists _, _|].
    destruct gap; by eexists _, _.
Qed.

Lemma skip_ws_value (gap : jsstring) (v : json) (indent rest : jsstring) :
  skip_ws (JSON_stringify_gap gap v indent ++ rest) = JSON_stringify_gap gap v indent ++ rest.
Proof.
  destruct (JSON_stringify_gap_head gap v indent) as (c & r & -> & Hws & _).
  cbn [app]. by apply skip_ws_head.
Qed.

Section Indented.
Variable gap : jsstring.
Hypothesis gap_ws : forallb is_ws gap = true.
Hypothesis gap_some : gap <> [].

Lemma JSON_stringify_gap_array (x : json) (l : list json) (indent : jsstring) :
  JSON_stringify_gap gap (JArray (x :: l)) indent =
    "["%cu :: 10 :: (indent ++ gap)
    ++ join (","%cu :: 10 :: indent ++ gap)
         (map (fun y => JSON_stringify_gap gap y (indent ++ gap)) (x :: l))
    ++ 10 :: indent ++ str "]".
Proof. cbn [JSON_stringify_gap map]. by destruct gap. Qed.

Lemma JSON_stringify_gap_object (p : jsstring * json) (o : list (jsstring * json))
    (indent : jsstring) :
  JSON_stringify_gap gap (JObject (p :: o)) indent =
    "{"%cu :: 10 :: (indent ++ gap)
    ++ join (","%cu :: 10 :: indent ++ gap)
         (map (fun q => QuoteJSONString (fst q) ++ ":"%cu :: str " "
                        ++ JSON_stringify_gap gap (snd q) (indent ++ gap)) (p :: o))
    ++ 10 :: indent ++ str "}".
Proof. cbn [JSON_stringify_gap map]. by destruct gap. Qed.

Lemma parse_elements_gap (l : list json) (indent trailing rest : jsstring) :
  l <> [] -> Forall (reads_back_gap gap) l ->
  forallb is_ws indent = true -> forallb is_ws trailing = true ->
  exists fuel,
    parse_elements fuel
      (join (","%cu :: 10 :: indent) (map (fun y => JSON_stringify_gap gap y indent) l)
       ++ trailing ++ "]"%cu :: rest) = Some (map serialized l, rest).
Proof.
  intros Hne Hall Hi Ht. induction l as [|x l IH]; [done|]. clear Hne.
  inversion Hall as [|? ? Hx Hl]; subst.
  destruct l as [|y l].
  - cbn [map join].
    destruct (Hx indent (trailing ++ "]"%cu :: rest) Hi) as [f Hf].
    { apply value_end_app; [done|]. cbn. auto. }
    eexists (S _). cbn [parse_elements].
    rewrite (parse_value_fuel _ _ _ _ Hf _ (Nat.le_refl _)).
    cbn [mbind option_bind]. rewrite skip_ws_app by done.
    cbn [skip_ws is_ws N.eqb Pos.eqb orb]. reflexivity.
  - cbn [map]. rewrite join_cons2. rewrite <- !app_assoc.
    set (J := join (","%cu :: 10 :: indent)
                (JSON_stringify_gap gap y indent
                 :: map (fun y0 => JSON_stringify_gap gap y0 indent) l)) in *.
    destruct (IH ltac:(done) Hl) as [f2 Hf2]. cbn [map] in Hf2. fold J in Hf2.
    destruct (Hx indent ((","%cu :: 10 :: indent) ++ J ++ trailing ++ "]"%cu :: rest) Hi)
      as [f1 Hf1].
    { cbn. auto. }
    set (s1 := JSON_stringify_gap gap x indent
               ++ (","%cu :: 10 :: indent) ++ J ++ trailing ++ "]"%cu :: rest) in *.
    set (s2 := J ++ trailing ++ "]"%cu :: rest) in *.
    exists (S (2 * length s1 + 2 * length s2 + 1)). cbn [parse_elements].
    rewrite (parse_value_fuel _ _ _ _ Hf1) by lia.
    cbn [mbind option_bind app skip_ws is_ws N.eqb Pos.eqb orb].
    rewrite skip_ws_app by done.
    assert (Hs : skip_ws s2 = s2).
    { subst s2 J. destruct (map _ l).
      - cbn [join]. apply skip_ws_value.
      - rewrite join_cons2, <- app_assoc. apply skip_ws_value. }
    fold s2. rewrite Hs.
    rewrite (parse_elements_fuel _ _ _ _ Hf2) by lia. reflexivity.
Qed.

Lemma parse_members_gap (o : list (jsstring * json)) (indent trailing rest : jsstring) :
  o <> [] -> Forall (fun p => reads_back_gap gap (snd p)) o ->
  forallb is_ws indent = true -> forallb is_ws trailing = true ->
  exists fuel,
    parse_members fuel
      (join (","%cu :: 10 :: indent)
         (map (fun q => QuoteJSONString (fst q) ++ ":"%cu :: str " "
                        ++ JSON_stringify_gap gap (snd q) indent) o)
       ++ trailing ++ "}"%cu :: rest) =
      Some (map (fun p => (fst p, serialized (snd p))) o, rest).
Proof.
  intros Hne Hall Hi Ht. induction o as [|[k v] o IH]; [done|]. clear Hne.
  inversion Hall as [|? ? Hv Ho]; subst. cbn [snd] in Hv.
  assert (Hread : forall (Y : jsstring) (f f' : nat),
    parse_value f (JSON_stringify_gap gap v indent ++ Y) = Some (serialized v, Y) ->
    (2 * length (JSON_stringify_gap gap v indent ++ Y) <= f')%nat ->
    parse_members (S f')
      ((QuoteJSONString k ++ ":"%cu :: str " " ++ JSON_stringify_gap gap v indent) ++ Y) =
      match skip_ws Y with
      | c3 :: r4 =>
          if c3 =? ","%cu then
            '(ms, rest) ← parse_members f' (skip_ws r4);
            Some ((k, serialized v) :: ms, rest)
          else if c3 =? "}"%cu then Some ([(k, serialized v)], r4)
          else None
      | [] => None
      end).
  { intros Y f f' Hf Hf'. unfold QuoteJSONString. change (str " ") with [32].
    rewrite <- !app_assoc. cbn [app parse_members N.eqb Pos.eqb].
    rewrite <- !app_assoc. cbn [app].
    rewrite parse_chars_quote_body.
    cbn [mbind option_bind skip_ws is_ws N.eqb Pos.eqb orb].
    rewrite skip_ws_value.
    rewrite (parse_value_fuel _ _ _ _ Hf) by lia. reflexivity. }
  destruct o as [|p o].
  - cbn [map join fst snd].
    destruct (Hv indent (trailing ++ "}"%cu :: rest) Hi) as [f Hf].
    { apply value_end_app; [done|]. cbn. auto. }
    eexists (S _). rewrite (Hread _ _ _ Hf (Nat.le_refl _)).
    rewrite skip_ws_app by done.
    cbn [skip_ws is_ws N.eqb Pos.eqb orb]. reflexivity.
  - set (mtext := fun q : jsstring * json =>
           QuoteJSONString (fst q) ++ ":"%cu :: str " "
           ++ JSON_stringify_gap gap (snd q) indent) in *.
    set (J := join (","%cu :: 10 :: indent) (map mtext (p :: o))) in *.
    destruct (IH ltac:(done) Ho) as [f2 Hf2].
    destruct (Hv indent ((","%cu :: 10 :: indent) ++ J ++ trailing ++ "}"%cu :: rest) Hi)
      as [f1 Hf1].
    { cbn. auto. }
    set (s2 := J ++ trailing ++ "}"%cu :: rest) in *.
    set (Y := (","%cu :: 10 :: indent) ++ s2) in *.
    assert (Heq :
      join (","%cu :: 10 :: indent) (map mtext ((k, v) :: p :: o))
      ++ trailing ++ "}"%cu :: rest =
      (QuoteJSONString k ++ ":"%cu :: str " " ++ JSON_stringify_gap gap v indent) ++ Y).
    { subst Y s2 J. cbn [map]. rewrite join_cons2.
      change (QuoteJSONString k ++ ":"%cu :: str " " ++ JSON_stringify_gap gap v indent)
        with (mtext (k, v)).
      by rewrite <- !app_assoc. }
    rewrite Heq.
    exists (S (2 * length (JSON_stringify_gap gap v indent ++ Y) + 2 * length s2 + 1)).
    rewrite (Hread Y f1) by (done || lia).
    subst Y. cbn [app skip_ws is_ws N.eqb Pos.eqb orb].
    rewrite skip_ws_app by done.
    assert (Hs : skip_ws s2 = s2).
    { subst s2 J. cbn [map]. destruct (map mtext o).
      - cbn [join]. subst mtext. cbn beta. unfold QuoteJSONString.
        rewrite <- !app_assoc. reflexivity.
      - rewrite join_cons2. subst mtext. cbn beta. unfold QuoteJSONString.
        rewrite <- !app_assoc. reflexivity. }
    rewrite Hs.
    rewrite (parse_members_fuel _ _ _ _ Hf2) by lia. reflexivity.
Qed.

(** A well-formed value is read back from its indented serialization. *)
Lemma parse_value_stringify_gap (v : json) : wf v -> reads_back_gap gap v.
Proof.
  induction v as [|b|x|s|l IH|o IH] using json_nested_ind; intros Hwf indent rest Hi Hr.
  - exists 1%nat. reflexivity.
  - exists 1%nat. by destruct b.
  - exists 1%nat. cbn [JSON_stringify_gap JSON_stringify].
    destruct x as [m e| |neg|]; [| |reflexivity..].
    + cbn [is_finite serialized]. apply parse_value_number.
      apply parse_number_toString_before; [by inversion Hwf | by apply value_end_number].
    + change (is_finite NegZero) with true. cbn iota.
      change (Number_toString NegZero) with (Number_toString (Finite 0 0)).
      cbn [serialized]. apply parse_value_number.
      apply parse_number_toString_before; [constructor | by apply value_end_number].
  - exists 1%nat. cbn [JSON_stringify_gap JSON_stringify serialized].
    unfold QuoteJSONString. cbn [app]. rewrite <- app_assoc.
    cbn [app parse_value N.eqb Pos.eqb]. rewrite parse_chars_quote_body. reflexivity.
  - destruct l as [|x l]; [exists 1%nat; reflexivity|].
    inversion Hwf as [| | | |? Hwfl|]; subst.
    assert (Hall : Forall (reads_back_gap gap) (x :: l)).
    { rewrite Forall_forall in IH, Hwfl |- *. auto. }
    rewrite JSON_stringify_gap_array.
    assert (Hig : forallb is_ws (indent ++ gap) = true).
    { by rewrite forallb_app, Hi, gap_ws. }
    destruct (parse_elements_gap (x :: l) (indent ++ gap) (10 :: indent) rest
                ltac:(done) Hall Hig) as [f Hf].
    { cbn [forallb]. by rewrite Hi. }
    set (J := join (","%cu :: 10 :: indent ++ gap)
                (map (fun y => JSON_stringify_gap gap y (indent ++ gap)) (x :: l))) in *.
    assert (E : ("["%cu :: 10 :: (indent ++ gap) ++ J ++ 10 :: indent ++ str "]") ++ rest =
                "["%cu :: (10 :: indent ++ gap) ++ J ++ (10 :: indent) ++ "]"%cu :: rest).
    { change (str "]") with [93]. cbn [app]. f_equal. f_equal.
      repeat (rewrite <- app_assoc; cbn [app]). reflexivity. }
    rewrite E. clear E.
    assert (HJ : exists c r, J = c :: r /\ value_head c).
    { subst J. cbn [map]. destruct (map _ l).
      - cbn [join]. apply JSON_stringify_gap_head.
      - rewrite join_cons2.
        destruct (JSON_stringify_gap_head gap x (indent ++ gap)) as (c & r & -> & Hc).
        by eexists _, _. }
    destruct HJ as (c & r & EJ & Hws & Hb & _).
    exists (S f). cbn [parse_value N.eqb Pos.eqb].
    rewrite (skip_ws_app (10 :: indent ++ gap)) by (cbn [forallb]; by rewrite Hig).
    assert (Hskip : skip_ws (J ++ (10 :: indent) ++ "]"%cu :: rest)
                    = J ++ (10 :: indent) ++ "]"%cu :: rest).
    { rewrite EJ. cbn [app]. by apply skip_ws_head. }
    rewrite Hskip. rewrite EJ at 1. cbn [app].
    apply N.eqb_neq in Hb. rewrite Hb.
    change (c :: r ++ 10 :: indent ++ "]"%cu :: rest)
      with ((c :: r) ++ (10 :: indent) ++ "]"%cu :: rest).
    rewrite <- EJ. rewrite Hf. reflexivity.
  - destruct o as [|p o]; [exists 1%nat; reflexivity|].
    inversion Hwf as [| | | | |? Hord Hwfo]; subst.
    assert (Hall : Forall (fun p => reads_back_gap gap (snd p)) (p :: o)).
    { rewrite Forall_forall in IH, Hwfo |- *. auto. }
    rewrite JSON_stringify_gap_object.
    assert (Hig : forallb is_ws (indent ++ gap) = true).
    { by rewrite forallb_app, Hi, gap_ws. }
    destruct (parse_members_gap (p :: o) (indent ++ gap) (10 :: indent) rest
                ltac:(done) Hall Hig) as [f Hf].
    { cbn [forallb]. by rewrite Hi. }
    set (J := join (","%cu :: 10 :: indent ++ gap)
                (map (fun q => QuoteJSONString (fst q) ++ ":"%cu :: str " "
                               ++ JSON_stringify_gap gap (snd q) (indent ++ gap))
                   (p :: o))) in *.
    assert (E : ("{"%cu :: 10 :: (indent ++ gap) ++ J ++ 10 :: indent ++ str "}") ++ rest =
                "{"%cu :: (10 :: indent ++ gap) ++ J ++ (10 :: indent) ++ "}"%cu :: rest).
    { change (str "}") with [125]. cbn [app]. f_equal. f_equal.
      repeat (rewrite <- app_assoc; cbn [app]). reflexivity. }
    rewrite E. clear E.
    assert (HJ : exists r, J = 34 :: r).
    { subst J. cbn [map]. destruct (map _ o).
      - cbn [join]. by eexists.
      - rewrite join_cons2. by eexists. }
    destruct HJ as (r & EJ).
    exists (S f). cbn [parse_value N.eqb Pos.eqb].
    rewrite (skip_ws_app (10 :: indent ++ gap)) by (cbn [forallb]; by rewrite Hig).
    assert (Hskip : skip_ws (J ++ (10 :: indent) ++ "}"%cu :: rest)
                    = J ++ (10 :: indent) ++ "}"%cu :: rest).
    { rewrite EJ. reflexivity. }
    rewrite Hskip. rewrite EJ at 1. cbn [app N.eqb Pos.eqb].
    change (34 :: r ++ 10 :: indent ++ "}"%cu :: rest)
      with ((34 :: r) ++ (10 :: indent) ++ "}"%cu :: rest).
    rewrite <- EJ. rewrite Hf. cbn [mbind option_bind serialized].
    rewrite object_of_members_ordered; [reflexivity|].
    rewrite map_map. cbn [fst]. exact Hord.
Qed.

End Indented.

Lemma JSON_parse_stringify_gap (gap : jsstring) (v : json) :
  forallb is_ws gap = true -> gap <> [] -> wf v ->
  JSON_parse (JSON_stringify_gap gap v []) = Some (serialized v).
Proof.
  intros Hg Hne Hwf.
  destruct (parse_value_stringify_gap gap Hg Hne v Hwf [] [] eq_refl I) as [f Hf].
  rewrite app_nil_r in Hf.
  apply (JSON_parse_complete _ [] _ f); [|reflexivity].
  rewrite <- (app_nil_r (JSON_stringify_gap gap v [])), skip_ws_value.
  by rewrite app_nil_r.
Qed.

(** *** Line breaks in a serialization *)

Lemma textarea_value_no_cr (s : jsstring) : no_cr s -> textarea_value s = s.
Proof.
  induction 1 as [|c r Hc Hr IH]; [done|]. cbn [textarea_value].
  destruct (c =? 13) eqn:E; [by apply N.eqb_eq in E|]. by rewrite IH.
Qed.

Lemma text_input_value_line (s : jsstring) :
  Forall (fun c => c <> 10 /\ c <> 13) s -> text_input_value s = s.
Proof.
  unfold text_input_value.
  induction 1 as [|c r [H1 H2] Hr IH]; [done|]. cbn [List.filter].
  apply N.eqb_neq in H1, H2. rewrite H1, H2. cbn [orb negb]. by rewrite IH.
Qed.

Lemma no_cr_app (a b : jsstring) : no_cr a -> no_cr b -> no_cr (a ++ b).
Proof. apply Forall_app_2. Qed.

Lemma no_cr_plain (s : jsstring) : forallb is_plain s = true -> no_cr s.
Proof.
  intros H. apply Forall_forall. intros c Hc ->.
  rewrite forallb_forall in H. by specialize (H 13 Hc).
Qed.

Lemma no_cr_hex_digit (a : N) : a < 16 -> hex_digit a <> 13.
Proof. unfold hex_digit. intros Ha. destruct (a <? 10); lia. Qed.

Lemma no_cr_quote_unit (c : N) : no_cr (quote_unit c).
Proof.
  unfold quote_unit.
  repeat (match goal with
          | |- context [if ?b then _ else _] => destruct b eqn:?
          end; [by repeat constructor|]).
  destruct (_ || _).
  - unfold hex4. repeat constructor; try done;
      apply no_cr_hex_digit, N.mod_lt; done.
  - repeat constructor. intros ->. done.
Qed.

Lemma no_cr_quote_body (s : jsstring) : no_cr (quote_body s).
Proof.
  remember (length s) as n eqn:Hn. revert s Hn.
  induction n as [n IH] using lt_wf_ind. intros s Hn.
  destruct s as [|c [|c' r']].
  - constructor.
  - apply no_cr_quote_unit.
  - rewrite quote_body_cons.
    destruct (is_high_surrogate c && is_low_surrogate c') eqn:Ep.
    + apply andb_true_iff in Ep as [Eh El].
      unfold is_high_surrogate, is_low_surrogate in Eh, El.
      apply andb_true_iff in Eh as [Eh1 _]. apply andb_true_iff in El as [El1 _].
      apply N.leb_le in Eh1, El1.
      constructor; [lia|]. constructor; [lia|].
      apply (IH (length r')); [simpl in Hn; lia | done].
    + apply no_cr_app; [apply no_cr_quote_unit|].
      apply (IH (length (c' :: r'))); [simpl in Hn |- *; lia | done].
Qed.

Lemma no_cr_quote (s : jsstring) : no_cr (QuoteJSONString s).
Proof.
  unfold QuoteJSONString. constructor; [done|].
  apply no_cr_app; [apply no_cr_quote_body | by repeat constructor].
Qed.

Lemma no_cr_join (sep : jsstring) (texts : list jsstring) :
  no_cr sep -> Forall no_cr texts -> no_cr (join sep texts).
Proof.
  intros Hs. induction 1 as [|t ts Ht Hts IH]; [constructor|].
  destruct ts as [|t' ts]; [done|].
  change (join sep (t :: t' :: ts)) with (t ++ sep ++ join sep (t' :: ts)).
  auto using no_cr_app.
Qed.

(** A serialization with an indentation has no carriage return. *)
Lemma no_cr_stringify_gap (gap : jsstring) (v : json) :
  no_cr gap -> forall indent, no_cr indent -> no_cr (JSON_stringify_gap gap v indent).
Proof.
  intros Hgap.
  induction v as [|[]|x|s|l IH|o IH] using json_nested_ind; intros indent Hi;
    try (by repeat constructor).
  - cbn [JSON_stringify_gap JSON_stringify].
    destruct (is_finite x); [|by repeat constructor].
    apply no_cr_plain, Number_toString_plain.
  - apply no_cr_quote.
  - cbn [JSON_stringify_gap].
    assert (Hp : Forall no_cr (map (fun x => JSON_stringify_gap gap x (indent ++ gap)) l)).
    { apply Forall_map. eapply List.Forall_impl; [|exact IH].
      intros x Hx. apply Hx. by apply no_cr_app. }
    destruct (map _ l) as [|t ts] eqn:E; [by repeat constructor|].
    destruct gap as [|g gap'].
    + constructor; [done|]. apply no_cr_app; [|by repeat constructor].
      apply no_cr_join; [by repeat constructor | done].
    + constructor; [done|]. constructor; [done|].
      apply no_cr_app; [by apply no_cr_app|]. apply no_cr_app.
      * apply no_cr_join; [|done]. constructor; [done|]. constructor; [done|].
        by apply no_cr_app.
      * constructor; [done|]. apply no_cr_app; [done | by repeat constructor].
  - cbn [JSON_stringify_gap].
    assert (Hp : Forall no_cr
      (map (fun p => QuoteJSONString (fst p) ++ ":"%cu ::
                     match gap with [] => [] | _ => str " " end ++
                     JSON_stringify_gap gap (snd p) (indent ++ gap)) o)).
    { apply Forall_map. eapply List.Forall_impl; [|exact IH].
      intros p Hx. cbv beta. apply no_cr_app; [apply no_cr_quote|].
      constructor; [done|]. apply no_cr_app; [by destruct gap; repeat constructor|].
      apply Hx. by apply no_cr_app. }
    destruct (map _ o) as [|t ts] eqn:E; [by repeat constructor|].
    destruct gap as [|g gap'].
    + constructor; [done|]. apply no_cr_app; [|by repeat constructor].
      apply no_cr_join; [by repeat constructor | done].
    + constructor; [done|]. constructor; [done|].
      apply no_cr_app; [by apply no_cr_app|]. apply no_cr_app.
      * apply no_cr_join; [|done]. constructor; [done|]. constructor; [done|].
        by apply no_cr_app.
      * constructor; [done|]. apply no_cr_app; [done | by repeat constructor].
Qed.

(** The text shown for a value without carriage return has none. *)
Lemma no_cr_editor_text (value : jsstring) : no_cr value -> no_cr (editor_text value).
Proof.
  intros Hv. unfold editor_text. destruct (isJson value); [|done].
  destruct (JSON_parse value) as [v|]; [|done].
  apply no_cr_stringify_gap; [by repeat constructor | constructor].
Qed.

(** ** The text of the editor *)

Lemma editor_text_structured (value : jsstring) (v : json) :
  JSON_parse value = Some v -> is_object v = true ->
  editor_text value = JSON_stringify_2 v
  /\ JSON_parse (JSON_stringify_2 v) = Some (serialized v).
Proof.
  intros Hp Ho. split.
  - unfold editor_text, isJson. by rewrite Hp, Ho.
  - apply JSON_parse_stringify_gap; [done | done |]. by eapply JSON_parse_wf.
Qed.

Lemma minify_editor_text (value : jsstring) : minify (editor_text value) = minify value.
Proof.
  destruct (isJson value) eqn:E.
  - apply isJson_true in E as (v & Hp & Ho).
    destruct (editor_text_structured value v Hp Ho) as [-> Hg].
    rewrite (minify_structured _ _ Hg) by (by rewrite is_object_serialized).
    rewrite (minify_structured _ _ Hp Ho). apply JSON_stringify_serialized.
  - unfold editor_text. by rewrite E.
Qed.

(** X7: the text that the editor and the list show for a stored value
    stands for the same value: it parses to what the minified value
    parses to, [isJson] says of it what it says of the value, and
    minifying it gives the minified value. *)
Theorem editor_text_same_value (value : jsstring) :
  JSON_parse (editor_text value) = JSON_parse (minify value)
  /\ isJson (editor_text value) = isJson value
  /\ minify (editor_text value) = minify value.
Proof.
  split; [|split; [|apply minify_editor_text]].
  - destruct (isJson value) eqn:E.
    + apply isJson_true in E as (v & Hp & Ho).
      destruct (editor_text_structured value v Hp Ho) as [-> ->].
      symmetry. apply (minify_parse value v Hp Ho).
    + rewrite (minify_plain value E). unfold editor_text. by rewrite E.
  - destruct (isJson value) eqn:E.
    + apply isJson_true in E as (v & Hp & Ho).
      destruct (editor_text_structured value v Hp Ho) as [-> Hg].
      apply isJson_true. exists (serialized v).
      split; [done | by rewrite is_object_serialized].
    + unfold editor_text. by rewrite E.
Qed.

Section Editing.
Context {J : Type} {CS : CookieStore J}.
Variable epoch_seconds : jsstring -> number.
Variable expires_text : number -> jsstring.
Variable inherited_text : jsstring -> jsstring.
Variable controls : Controls.

(** X8: an entry of a key-value tab opened in the editor and saved as it
    is shown is written under the trimmed key the key field has, with the
    minified text the value field has; where the two fields have the
    strings they were given, that is the trimmed key and the minified
    stored value, so that an entry whose key has no white space around it
    and whose value is minified is written again as it is.  A value field
    that is a [textarea] has the text it was given for every stored value
    without carriage return. *)
Theorem openEditModal_save (form0 : EditForm) (st : State J) (k : kind)
    (key value : jsstring) :
  kind_of (currentTab (this st)) = Some k ->
  obj_get key (mirror_of k (data (this st))) = Some value ->
  trim (key_control controls key) <> [] ->
  let opened := eval (openEditModal expires_text inherited_text controls form0 key) st in
  let st1 := exec (openEditModal expires_text inherited_text controls form0 key) st in
  let st' := exec (saveItem epoch_seconds (fst opened)) st1 in
  snd opened = true
  /\ itemKey (fst opened) = key_control controls key
  /\ itemValue (fst opened) = value_control controls (editor_text value)
  /\ editingItem (this st1) = Some key
  /\ calls (chrome st') =
       calls (chrome st) ++
       [ExecSetItem (currentTab (this st)) (trim (key_control controls key))
          (minify (value_control controls (editor_text value)))]
  /\ (key_control controls key = key ->
      value_control controls (editor_text value) = editor_text value ->
      calls (chrome st') =
        calls (chrome st) ++
        [ExecSetItem (currentTab (this st)) (trim key) (minify value)])
  /\ (value_control controls = textarea_value -> no_cr value ->
      value_control controls (editor_text value) = editor_text value).
Proof.
  intros Hk Hv Hkey opened st1 st'.
  assert (Hnc : currentTab (this st) <> str "cookies") by (by eapply kind_of_not_cookies).
  assert (Ho : opened =
    ({| itemKey := key_control controls key;
        itemValue := value_control controls (editor_text value);
        cookieDomain := cookieDomain form0; cookiePath := cookiePath form0;
        cookieExpires := cookieExpires form0; cookieSecure := cookieSecure form0;
        cookieHttpOnly := cookieHttpOnly form0;
        cookieSameSite := cookieSameSite form0 |}, true)).
  { subst opened. unfold eval, openEditModal, bind, get. cbv beta iota.
    rewrite bool_decide_eq_false_2 by done.
    rewrite (data_get_mirror _ k _ Hk). unfold obj_lookup. rewrite Hv. reflexivity. }
  assert (Hst1 : st1 = {| this := set_editingItem (Some key) (this st); chrome := chrome st |}).
  { subst st1. unfold exec, openEditModal, bind, get. cbv beta iota.
    rewrite bool_decide_eq_false_2 by done.
    rewrite (data_get_mirror _ k _ Hk). reflexivity. }
  assert (Hcalls : calls (chrome st') =
    calls (chrome st) ++
    [ExecSetItem (currentTab (this st)) (trim (key_control controls key))
       (minify (value_control controls (editor_text value)))]).
  { subst st'. clearbody opened st1. subst opened st1. cbn [fst snd].
    rewrite saveItem_webStorage_calls by done. reflexivity. }
  clearbody opened st1 st'. subst opened st1. cbn [fst snd].
  do 4 (split; [reflexivity|]). split; [exact Hcalls|]. split.
  - intros Ek Ev. rewrite Hcalls, Ek, Ev. by rewrite minify_editor_text.
  - intros -> Hcr. by apply textarea_value_no_cr, no_cr_editor_text.
Qed.

(** X15: a cookie opened in the editor, where every field has the string
    it was given, and saved as it is shown is written with the path, the
    flags, the [sameSite] and the domain that writing the mirrored cookie
    itself would give, when its domain has one leading dot at most and is
    not the dot alone; with the trimmed name and the minified value; and
    with no expiry if it had none, its expiry being otherwise what the
    text of the date field, which has the minutes and not the seconds,
    is read as. *)
Theorem openEditModal_cookie_save (form0 : EditForm) (st : State J)
    (key : jsstring) (cookie : Cookie.t) :
  currentTab (this st) = str "cookies" ->
  find (fun c => bool_decide (Cookie.name c = key)) (cookies (data (this st)))
    = Some cookie ->
  trim key <> [] ->
  (forall d, Cookie.domain cookie = Some d ->
             startsWith_dot (strip_dot d) = false /\ d <> str ".") ->
  held controls (cookie_fields expires_text key cookie)
    = cookie_fields expires_text key cookie ->
  let opened := eval (openEditModal expires_text inherited_text controls form0 key) st in
  let st1 := exec (openEditModal expires_text inherited_text controls form0 key) st in
  let st' := exec (saveItem epoch_seconds (fst opened)) st1 in
  let direct := setCookie_details (currentUrl (this st)) cookie in
  exists rest,
    calls (chrome st') =
      calls (chrome st) ++
      CookiesSet
        {| Details.url := Details.url direct;
           Details.name := trim key;
           Details.value := minify (Cookie.value cookie);
           Details.path := Details.path direct;
           Details.secure := Details.secure direct;
           Details.httpOnly := Details.httpOnly direct;
           Details.sameSite := Details.sameSite direct;
           Details.domain := Details.domain direct;
           Details.expirationDate :=
             match Details.expirationDate direct with
             | Some x =>
                 if truthy_string (Some (expires_text x)) then
                   if truthy_number (epoch_seconds (expires_text x))
                   then Some (epoch_seconds (expires_text x)) else None
                 else None
             | None => None
             end |} :: rest.
Proof.
  intros Htab Hfind Hkey Hdom Hheld opened st1 st' direct.
  assert (Ho : opened = (cookie_fields expires_text key cookie, true)).
  { subst opened. unfold eval, openEditModal, bind, get. cbv beta iota.
    rewrite bool_decide_eq_true_2 by done. rewrite Hfind.
    unfold cookie_form. by rewrite Hheld. }
  assert (Hst1 : st1 = {| this := set_editingItem (Some key) (this st); chrome := chrome st |}).
  { subst st1. unfold exec, openEditModal, bind, get. cbv beta iota.
    by rewrite bool_decide_eq_true_2. }
  subst st'. clearbody opened st1. subst opened st1. cbn [fst].
  eexists. rewrite saveItem_cookie_calls; [|done | done].
  cbn [this chrome set_editingItem currentUrl]. f_equal. f_equal. f_equal.
  subst direct.
  destruct cookie as [n v d p s h ss e].
  unfold setCookie_details, cookieData_of, cookie_fields.
  cbn [Cookie.domain Cookie.name Cookie.value Cookie.path Cookie.secure
       Cookie.httpOnly Cookie.sameSite Cookie.expirationDate
       itemKey itemValue cookieDomain cookiePath cookieExpires cookieSecure
       cookieHttpOnly cookieSameSite
       Details.url Details.path Details.secure Details.httpOnly Details.sameSite
       Details.domain Details.expirationDate or_false].
  f_equal.
  - by destruct p as [[|? ?]|].
  - by destruct ss as [[|? ?]|].
  - destruct d as [[|c0 d]|]; [done| |done].
    destruct (Hdom _ eq_refl) as [Hdot Hne]. cbn [or_string truthy_string].
    unfold cookie_domain.
    assert (Hs : strip_dot (strip_dot (c0 :: d)) = strip_dot (c0 :: d)).
    { unfold strip_dot at 1. by rewrite Hdot. }
    destruct (strip_dot (c0 :: d)) as [|c1 d1] eqn:Es.
    { exfalso. unfold strip_dot in Es. cbn [startsWith_dot] in Es.
      destruct (c0 =? "."%cu) eqn:E0; [|done].
      apply N.eqb_eq in E0 as ->. cbn [substring1 tl] in Es. by subst d. }
    cbn [truthy_string default from_option]. unfold id. rewrite Hs, Es. reflexivity.
  - destruct e as [x|]; [|done].
    destruct (truthy_number x); [|done].
    by destruct (expires_text x).
Qed.

(** X18: after [saveItem] on a key-value tab, copying the saved key copies
    the minified text that was written, when the key is not [__proto__];
    when the write was rejected it copies what it copied before; and for
    the key [__proto__], which the mirror does not take, it copies the
    string of what the mirror inherits under that name. *)
Theorem copyValue_after_save (form : EditForm) (st : State J) (k : kind) :
  kind_of (currentTab (this st)) = Some k ->
  trim (itemKey form) <> [] ->
  let key := trim (itemKey form) in
  let st' := exec (saveItem epoch_seconds form) st in
  (next_outcome (chrome st) = Rejected ->
   copyValue_text inherited_text (this st') key
     = copyValue_text inherited_text (this st) key)
  /\ (next_outcome (chrome st) <> Rejected -> key <> str "__proto__" ->
      copyValue_text inherited_text (this st') key = Some (minify (itemValue form)))
  /\ (next_outcome (chrome st) <> Rejected -> key = str "__proto__" ->
      obj_get key (mirror_of k (data (this st))) = None ->
      copyValue_text inherited_text (this st') key = Some (inherited_text key)).
Proof.
  intros Hk Hkey key st'.
  assert (Hnc : currentTab (this st) <> str "cookies") by (by eapply kind_of_not_cookies).
  assert (Hst' : this st' =
    match next_outcome (chrome st) with
    | Rejected => this st
    | _ =>
        set_editingItem None
          (set_data (data_set (currentTab (this st))
                       (obj_assign key (minify (itemValue form))
                          (mirror_of k (data (this st)))))
             (this st))
    end).
  { subst st' key. unfold exec, saveItem. rewrite bool_decide_eq_false_2 by done.
    unfold bind, get. cbv beta iota.
    rewrite bool_decide_eq_false_2 by done.
    rewrite setWebStorageItem_run. cbv zeta.
    rewrite (data_get_mirror _ k _ Hk).
    destruct (next_outcome (chrome st)); reflexivity. }
  assert (Hset : forall m,
            data_get (currentTab (this st)) (data_set (currentTab (this st)) m (data (this st)))
            = Some m).
  { intros m. rewrite data_get_set by (by rewrite (data_get_mirror _ k _ Hk)).
    by rewrite decide_True. }
  clearbody st'. split; [|split].
  - intros Ho. rewrite Ho in Hst'. unfold copyValue_text. by rewrite Hst'.
  - intros Ho Hp. unfold copyValue_text. rewrite Hst'.
    destruct (next_outcome (chrome st)); [| |done];
      cbn [currentTab set_editingItem set_data data];
      rewrite bool_decide_eq_false_2 by done; rewrite Hset;
      unfold obj_lookup; rewrite obj_get_assign, decide_True by done;
      destruct (obj_get key _); rewrite ?decide_False by done;
      by destruct (minify (itemValue form)).
  - intros Ho Hp Hown. unfold copyValue_text. rewrite Hst'.
    assert (Hin : key ∈ Object_prototype_names).
    { rewrite Hp. unfold Object_prototype_names. cbn [map]. repeat constructor. }
    destruct (next_outcome (chrome st)); [| |done];
      cbn [currentTab set_editingItem set_data data];
      rewrite bool_decide_eq_false_2 by done; rewrite Hset;
      unfold obj_lookup; rewrite obj_get_assign, decide_True by done;
      rewrite Hown, decide_True by done;
      by rewrite bool_decide_eq_true_2.
Qed.

End Editing.

(** ** Titles, tabs and escaping *)

(** X9: a truncated title has at most three code units more than the
    length asked for, and starts as the title does; truncating again
    changes nothing.  A title no longer than that is kept; a longer one,
    even by one code unit, is its first code units, as many as asked for,
    and then three dots, so that it can come out longer than it was. *)
Theorem truncate_bounds (s : option jsstring) (len : nat) :
  (length (truncate s len) <= len + 3)%nat
  /\ firstn len (truncate s len) = firstn len (default [] s)
  /\ truncate (Some (truncate s len)) len = truncate s len
  /\ ((length (default [] s) <= len)%nat -> truncate s len = default [] s)
  /\ ((len < length (default [] s))%nat ->
      truncate s len = firstn len (default [] s) ++ str "..."
      /\ length (truncate s len) = (len + 3)%nat).
Proof.
  assert (Hcut : forall (t : jsstring) (n : nat),
            (n < length t)%nat ->
            firstn n (firstn n t ++ str "...") = firstn n t
            /\ length (firstn n t ++ str "...") = (n + 3)%nat).
  { intros t n Hn. split.
    - rewrite firstn_app, length_firstn, firstn_firstn.
      replace (n - Init.Nat.min n (length t))%nat with 0%nat by lia.
      rewrite Nat.min_id. simpl. by rewrite app_nil_r.
    - rewrite length_app, length_firstn. simpl. lia. }
  destruct s as [[|c r]|]; cbn [truncate default].
  - split; [simpl; lia|]. split; [done|]. split; [done|]. split; [done|].
    simpl. lia.
  - destruct (len <? length (c :: r))%nat eqn:E.
    + apply Nat.ltb_lt in E. destruct (Hcut (c :: r) len E) as [Hf Hl].
      split; [lia|]. split; [exact Hf|].
      split; [|split; [intros; simpl in *; lia | done]].
      destruct (firstn len (c :: r) ++ str "...") as [|c' r'] eqn:El; [simpl in Hl; lia|].
      cbn [truncate]. rewrite (proj2 (Nat.ltb_lt _ _)) by lia.
      rewrite Hf. exact El.
    + apply Nat.ltb_ge in E.
      split; [simpl in *; lia|]. split; [done|].
      split; [|split; [done | intros; simpl in *; lia]].
      cbn [truncate]. by rewrite (proj2 (Nat.ltb_ge _ _) E).
  - split; [simpl; lia|]. split; [done|]. split; [done|]. split; [done|].
    simpl. lia.
Qed.

(** X10: the tab [getCurrentTab] takes has a URL, which starts with
    neither [chrome://] nor [chrome-extension://]; outside the fullscreen
    mode it is the active tab and no other.  Among the tabs of the
    browser it is one that [loadBrowserTabs] lists unless its URL starts
    with [edge://] or [about:], which the selector leaves out. *)
Theorem getCurrentTab_choice_listed (isFullscreen : bool) (active all : list Tab)
    (tab : Tab) :
  getCurrentTab_choice isFullscreen active all = inl tab ->
  inspectable tab = true
  /\ (isFullscreen = false -> exists rest, active = tab :: rest)
  /\ (In tab all ->
      (In tab (browserTabs_of all) <->
       startsWith (str "edge://") (default [] (tab_url tab)) = false
       /\ startsWith (str "about:") (default [] (tab_url tab)) = false)).
Proof.
  intros H.
  assert (Hi : inspectable tab = true
               /\ (isFullscreen = false -> exists rest, active = tab :: rest)).
  { unfold getCurrentTab_choice in H.
    assert (Hfb : (if isFullscreen then
                     match find inspectable all with
                     | Some validTab => inl validTab
                     | None => inr (str "No valid tabs")
                     end
                   else inr (str "No active tab")) = inl tab ->
                  inspectable tab = true /\ isFullscreen = true).
    { destruct isFullscreen; [|done].
      destruct (find inspectable all) as [t|] eqn:Ef; [|done].
      intros [= <-]. apply find_some in Ef. tauto. }
    destruct active as [|t rest].
    - apply Hfb in H as [? ->]. split; [done|]. done.
    - destruct (inspectable t) eqn:Et.
      + injection H as <-. split; [done|]. intros _. by exists rest.
      + apply Hfb in H as [? ->]. split; [done|]. done. }
  destruct Hi as [Hi Hpopup]. split; [done|]. split; [done|].
  intros Hin. unfold browserTabs_of. rewrite filter_In.
  unfold inspectable in Hi. unfold listed.
  rewrite !andb_true_iff in Hi. destruct Hi as [[-> ->] ->]. cbn [andb].
  rewrite andb_true_iff, !negb_true_iff. tauto.
Qed.

Lemma getCurrentTab_choice_listed_witness :
  getCurrentTab_choice true [] [about_blank] = inl about_blank
  /\ ~ In about_blank (browserTabs_of [about_blank]).
Proof.
  split; [reflexivity|]. intros Hin.
  apply (proj2 (proj2 (getCurrentTab_choice_listed true [] [about_blank] about_blank
                         eq_refl)) (or_introl eq_refl)) in Hin.
  destruct Hin as [_ Hin]. discriminate Hin.
Defined.

Lemma unesc_plain (c : N) (r : jsstring) :
  c <> "&"%cu -> unesc (c :: r) = c :: unesc r.
Proof.
  intros Hc. apply N.eqb_neq in Hc.
  destruct r as [|c1 [|c2 [|c3 [|c4 [|c5 r5]]]]]; cbn [unesc]; rewrite ?Hc; reflexivity.
Qed.

(** X11: [esc] writes no [<] and no [>], whatever the string, and the
    string can be read back from its escape; it leaves the quotes as they
    are, as many as there were. *)
Theorem esc_safe (s : jsstring) :
  Forall (fun c => c <> "<"%cu /\ c <> ">"%cu) (esc s)
  /\ unesc (esc s) = s
  /\ count_occ N.eq_dec (esc s) 34 = count_occ N.eq_dec s 34
  /\ count_occ N.eq_dec (esc s) "'"%cu = count_occ N.eq_dec s "'"%cu.
Proof.
  assert (Hu : forall c,
    (c = "&"%cu /\ esc_unit c = str "&amp;")
    \/ (c = 160 /\ esc_unit c = str "&nbsp;")
    \/ (c = "<"%cu /\ esc_unit c = str "&lt;")
    \/ (c = ">"%cu /\ esc_unit c = str "&gt;")
    \/ (c <> "&"%cu /\ c <> "<"%cu /\ c <> ">"%cu /\ esc_unit c = [c])).
  { intros c. unfold esc_unit.
    destruct (c =? "&"%cu) eqn:E1; [apply N.eqb_eq in E1; auto|].
    destruct (c =? 160) eqn:E2; [apply N.eqb_eq in E2; auto|].
    destruct (c =? "<"%cu) eqn:E3; [apply N.eqb_eq in E3; auto|].
    destruct (c =? ">"%cu) eqn:E4; [apply N.eqb_eq in E4; auto 6|].
    apply N.eqb_neq in E1, E3, E4. auto 10. }
  induction s as [|c s (IH1 & IH2 & IH3 & IH4)]; [by repeat split|].
  unfold esc in *. cbn [flat_map].
  destruct (Hu c) as [[-> ->]|[[-> ->]|[[-> ->]|[[-> ->]|(H1 & H2 & H3 & ->)]]]].
  - repeat split.
    + cbn [app str]. repeat (constructor; [done|]). exact IH1.
    + cbn. by rewrite IH2.
    + cbn -[flat_map]. exact IH3.
    + cbn -[flat_map]. exact IH4.
  - repeat split.
    + cbn [app str]. repeat (constructor; [done|]). exact IH1.
    + cbn. by rewrite IH2.
    + cbn -[flat_map]. exact IH3.
    + cbn -[flat_map]. exact IH4.
  - repeat split.
    + cbn [app str]. repeat (constructor; [done|]). exact IH1.
    + cbn. by rewrite IH2.
    + cbn -[flat_map]. exact IH3.
    + cbn -[flat_map]. exact IH4.
  - repeat split.
    + cbn [app str]. repeat (constructor; [done|]). exact IH1.
    + cbn. by rewrite IH2.
    + cbn -[flat_map]. exact IH3.
    + cbn -[flat_map]. exact IH4.
  - cbn [app]. repeat split.
    + constructor; [done | exact IH1].
    + rewrite unesc_plain by done. by rewrite IH2.
    + cbn [count_occ]. rewrite IH3. reflexivity.
    + cbn [count_occ]. rewrite IH4. reflexivity.
Qed.

(** ** Export *)

(** X12: importing an exported cookie asks for what writing the mirrored
    cookie itself asks for, when its domain has one leading dot at most
    and is not the dot alone; and exporting what was exported changes
    nothing more. *)
Theorem export_cookie_request (currentUrl : Url) (c : Cookie.t) :
  (forall d, Cookie.domain c = Some d ->
             startsWith_dot (strip_dot d) = false /\ d <> str ".") ->
  setCookie_details currentUrl (export_cookie c) = setCookie_details currentUrl c
  /\ export_cookie (export_cookie c) = export_cookie c.
Proof.
  intros H. destruct c as [n v [d|] p s h ss e]; [|done].
  destruct (H d eq_refl) as [Hdot Hne]. clear H.
  destruct d as [|c0 d]; [done|].
  unfold export_cookie, setCookie_details, cookie_domain.
  cbn [Cookie.domain Cookie.name Cookie.value Cookie.path Cookie.secure
       Cookie.httpOnly Cookie.sameSite Cookie.expirationDate truthy_string default].
  assert (Hs : strip_dot (strip_dot (c0 :: d)) = strip_dot (c0 :: d)).
  { unfold strip_dot at 1. by rewrite Hdot. }
  unfold id. rewrite Hs.
  destruct (strip_dot (c0 :: d)) as [|c1 d1] eqn:Es; [exfalso|done].
  unfold strip_dot in Es. cbn [startsWith_dot] in Es.
  destruct (c0 =? "."%cu) eqn:E0; [|done].
  apply N.eqb_eq in E0 as ->. cbn [substring1 tl] in Es. by subst d.
Qed.

Lemma export_cookie_request_witness :
  setCookie_details example_url
    (export_cookie (bare_cookie (str "sid") (str "1") (Some (str ".example.com")))) =
  setCookie_details example_url
    (bare_cookie (str "sid") (str "1") (Some (str ".example.com"))).
Proof.
  apply (export_cookie_request example_url
           (bare_cookie (str "sid") (str "1") (Some (str ".example.com")))).
  intros d [= <-]. split; [reflexivity | discriminate].
Defined.

(** ** Tabs, search and theme across popups *)

Section UIState2.
Context {J : Type} {CS : CookieStore J}.

Lemma saveState_exec (st : State J) :
  exec saveState st =
    let state :=
      {| SavedState.currentTab := Some (currentTab (this st));
         SavedState.searchQuery := Some (searchQuery (this st));
         SavedState.theme := theme (chrome st);
         SavedState.lastSaved := Some (now (chrome st)) |} in
    let b := made (StorageSet state) (chrome st) in
    {| this := this st;
       chrome :=
         match next_outcome (chrome st) with
         | Fulfilled =>
             {| page_local := page_local b; page_session := page_session b; jar := jar b;
                inspectorState := Some state; theme := theme b; now := now b;
                outcomes := outcomes b; calls := calls b; toasts := toasts b |}
         | _ => b
         end |}.
Proof.
  destruct st as [i [pl ps j ins th nw os cs ts]].
  unfold exec, saveState, chrome_storage_set, chrome_call, bind, get, ret, modify_chrome.
  destruct os as [|[] os]; reflexivity.
Qed.

Lemma renders_tab (i : Inspector) :
  renders i = true -> or_string (Some (currentTab i)) (str "localStorage") = currentTab i.
Proof.
  unfold renders. destruct (currentTab i) as [|c t]; [|done].
  intros H. by vm_compute in H.
Qed.



Lemma toggleTheme_run (st : State J) :
  toggleTheme st =
    let next :=
      if bool_decide (theme (chrome st) = Some (str "dark")) then str "light"
      else str "dark" in
    (next, exec saveState {| this := this st; chrome := set_theme next (chrome st) |}).
Proof.
  unfold toggleTheme, bind, get, modify_chrome, ret, exec. cbv beta iota zeta.
  by destruct (saveState _).
Qed.

Lemma saveState_theme (st : State J) :
  theme (chrome (exec saveState st)) = theme (chrome st).
Proof. rewrite saveState_exec. cbv zeta. by destruct (next_outcome (chrome st)). Qed.

Lemma toggleTheme_eval (st : State J) :
  eval toggleTheme st =
    if bool_decide (theme (chrome st) = Some (str "dark")) then str "light" else str "dark".
Proof. unfold eval. by rewrite toggleTheme_run. Qed.

Lemma toggleTheme_exec (st : State J) :
  exec toggleTheme st =
    exec saveState
      {| this := this st;
         chrome := set_theme (eval toggleTheme st) (chrome st) |}.
Proof. rewrite toggleTheme_eval. unfold exec at 1. by rewrite toggleTheme_run. Qed.

Lemma toggleTheme_theme (st : State J) :
  theme (chrome (exec toggleTheme st)) = Some (eval toggleTheme st).
Proof. by rewrite toggleTheme_exec, saveState_theme. Qed.

(** X14: [toggleTheme] leaves the document [light] if it was [dark] and
    [dark] in every other case, and stores that theme under [si-theme],
    from which [loadTheme] sets it again; the state it saves, when the
    call is fulfilled, has the same theme.  Toggling twice gives back a
    [dark] or [light] theme, and [light] for any other.  Without a stored
    theme, or with an empty one, [loadTheme] sets [dark]. *)
Theorem toggleTheme_persists (st st2 : State J) :
  let next := eval toggleTheme st in
  let st' := exec toggleTheme st in
  theme (chrome st') = Some next
  /\ next = (if bool_decide (theme (chrome st) = Some (str "dark")) then str "light"
             else str "dark")
  /\ theme (chrome (exec (loadTheme (Some next)) st2)) = Some next
  /\ theme (chrome (exec (loadTheme None) st2)) = Some (str "dark")
  /\ theme (chrome (exec (loadTheme (Some [])) st2)) = Some (str "dark")
  /\ (next_outcome (chrome st) = Fulfilled ->
      exists state, inspectorState (chrome st') = Some state
                    /\ SavedState.theme state = Some next)
  /\ theme (chrome (exec toggleTheme st')) =
       (if bool_decide (theme (chrome st) = Some (str "light")) then Some (str "light")
        else if bool_decide (theme (chrome st) = Some (str "dark")) then Some (str "dark")
        else Some (str "light")).
Proof.
  intros next st'. subst st'.
  assert (Hnext : next = str "light" \/ next = str "dark").
  { subst next. rewrite toggleTheme_eval. case_bool_decide; auto. }
  split; [apply toggleTheme_theme|]. split; [apply toggleTheme_eval|].
  split; [by destruct Hnext as [-> | ->]|]. split; [done|]. split; [done|]. split.
  - intros Hok. rewrite toggleTheme_exec, saveState_exec. cbv zeta.
    cbn [this chrome]. unfold next_outcome in Hok |- *. cbn [set_theme outcomes].
    rewrite Hok. eexists. split; reflexivity.
  - rewrite toggleTheme_theme, toggleTheme_eval, toggleTheme_theme, toggleTheme_eval.
    repeat case_bool_decide; try done; congruence.
Qed.

(** What a popup opened within the hour restores of a state that
    [saveState] stored. *)
Lemma saveState_restored (st : State J) (i0 : Inspector) (dt : Z) (os : list outcome)
    (th : option jsstring) :
  next_outcome (chrome st) = Fulfilled ->
  now (chrome st) <> 0%Z ->
  nth 0 os Fulfilled = Fulfilled ->
  (dt < 60 * 60 * 1000)%Z ->
  let st' :=
    exec restoreState
      {| this := i0; chrome := reopened dt os th (chrome (exec saveState st)) |} in
  currentTab (this st') = or_string (Some (currentTab (this st))) (str "localStorage")
  /\ searchQuery (this st') = searchQuery (this st).
Proof.
  intros Hok Hnow Hos Hdt st'. subst st'.
  rewrite restoreState_exec. cbv zeta. rewrite saveState_exec. cbv zeta.
  cbn [this chrome]. rewrite Hok. cbn [reopened inspectorState now made].
  assert (Hnext : forall b : Browser J, next_outcome (reopened dt os th b) = Fulfilled).
  { intros b. unfold next_outcome. cbn [reopened outcomes]. by destruct os. }
  rewrite Hnext. rewrite (proj2 (fresh_spec _ _)).
  - split; [reflexivity|]. cbn. by destruct (searchQuery (this st)).
  - exists (now (chrome st)). repeat split; [done|]. cbn. lia.
Qed.

(** X19: on a tab that is shown, the text typed in the search field is
    stored at each input, and a popup opened within the hour starts with
    it, on that tab; after the clear button the stored text is empty, and
    so is the search of that popup.  This holds when the call that stores
    the state and the call that reads it are fulfilled.  On a tab under
    which the mirror has nothing, [renderCurrentTab] throws and nothing is
    stored. *)
Theorem search_restored (st : State J) (q : jsstring) (i0 : Inspector)
    (dt : Z) (os : list outcome) (th : option jsstring) :
  next_outcome (chrome st) = Fulfilled ->
  now (chrome st) <> 0%Z ->
  nth 0 os Fulfilled = Fulfilled ->
  (dt < 60 * 60 * 1000)%Z ->
  let typed := exec (searchInput_input q) st in
  let cleared := exec clearSearch_click st in
  let again (saved : State J) :=
    exec restoreState {| this := i0; chrome := reopened dt os th (chrome saved) |} in
  searchQuery (this typed) = q
  /\ searchQuery (this cleared) = []
  /\ data (this typed) = data (this st)
  /\ (renders (this st) = false ->
      chrome typed = chrome st /\ chrome cleared = chrome st)
  /\ (renders (this st) = true ->
      searchQuery (this (again typed)) = q
      /\ currentTab (this (again typed)) = currentTab (this st)
      /\ searchQuery (this (again cleared)) = []
      /\ calls (chrome typed) = calls (chrome st) ++ [StorageSet
           {| SavedState.currentTab := Some (currentTab (this st));
              SavedState.searchQuery := Some q;
              SavedState.theme := theme (chrome st);
              SavedState.lastSaved := Some (now (chrome st)) |}]).
Proof.
  intros Hok Hnow Hos Hdt typed cleared again.
  assert (Hl : forall q',
    exec (modify_this (set_searchQuery q') ;;
          await st <- get;
          if renders (this st) then renderCurrentTab ;; saveState else ret tt) st =
    let st1 := {| this := set_searchQuery q' (this st); chrome := chrome st |} in
    if renders (this st) then exec saveState st1 else st1).
  { intros q'. unfold exec, bind, get, modify_this, renderCurrentTab, ret.
    cbv beta iota zeta. cbn [this chrome fst snd].
    change (renders (set_searchQuery q' (this st))) with (renders (this st)).
    by destruct (renders (this st)). }
  assert (Ht : typed =
    let st1 := {| this := set_searchQuery q (this st); chrome := chrome st |} in
    if renders (this st) then exec saveState st1 else st1) by apply Hl.
  assert (Hc : cleared =
    let st1 := {| this := set_searchQuery [] (this st); chrome := chrome st |} in
    if renders (this st) then exec saveState st1 else st1) by apply Hl.
  clearbody typed cleared. subst typed cleared again. cbv beta zeta.
  destruct (renders (this st)) eqn:Hr.
  - destruct (saveState_restored
                {| this := set_searchQuery q (this st); chrome := chrome st |}
                i0 dt os th Hok Hnow Hos Hdt) as [Ht1 Ht2].
    destruct (saveState_restored
                {| this := set_searchQuery [] (this st); chrome := chrome st |}
                i0 dt os th Hok Hnow Hos Hdt) as [_ Hc2].
    rewrite Ht1, Ht2, Hc2. rewrite !saveState_exec. cbv zeta. cbn [this chrome].
    rewrite Hok. cbn [set_searchQuery searchQuery data currentTab calls made].
    rewrite (renders_tab (this st) Hr).
    split; [done|]. split; [done|]. split; [done|]. split; [done|].
    intros _. repeat split.
  - cbn [this chrome set_searchQuery searchQuery data].
    split; [done|]. split; [done|]. split; [done|]. split; [by split|]. done.
Qed.

End UIState2.

(** ** Export and import *)

Lemma Forall_sublist {A} (P : A -> Prop) (l1 l2 : list A) :
  l1 `sublist_of` l2 -> Forall P l2 -> Forall P l1.
Proof.
  induction 1 as [|x l1 l2 _ IH|x l1 l2 _ IH]; intros H; [done| |].
  - inversion H; subst. constructor; auto.
  - inversion H; subst. auto.
Qed.

Lemma ordered_sublist (l1 l2 : list jsstring) :
  l1 `sublist_of` l2 -> ordered l2 -> ordered l1.
Proof.
  induction 1 as [|x l1 l2 Hs IH|x l1 l2 Hs IH]; cbn [ordered]; [done| |].
  - intros [HF Ho]. split; [by eapply Forall_sublist | auto].
  - intros [_ Ho]. auto.
Qed.

Lemma member_keys {A} (name : string) (f : A -> json) (x : option A) :
  map fst (member name f x) `sublist_of` [str name].
Proof. destruct x; cbn; [done | apply sublist_nil_l]. Qed.

Lemma member_wf {A} (name : string) (f : A -> json) (x : option A) :
  (forall a, x = Some a -> wf (f a)) ->
  Forall (fun p => wf (snd p)) (member name f x).
Proof. destruct x; cbn; intros H; repeat constructor. by apply H. Qed.

Ltac ordered_keys :=
  cbn [ordered app];
  repeat first [apply conj | apply Forall_cons | apply Forall_nil
               | discriminate | reflexivity | exact I].

Lemma json_of_cookie_wf (c : Cookie.t) :
  (forall x, Cookie.expirationDate c = Some x -> plain_number x) ->
  wf (json_of_cookie c).
Proof.
  intros Hx. unfold json_of_cookie. constructor.
  - rewrite !map_app.
    eapply (ordered_sublist _
      ([str "name"; str "value"] ++ [str "path"] ++ [str "secure"] ++ [str "httpOnly"]
       ++ [str "sameSite"] ++ [str "expirationDate"] ++ [str "domain"])).
    + repeat (apply sublist_app; [first [reflexivity | apply member_keys]|]).
      apply member_keys.
    + ordered_keys.
  - repeat (apply Forall_app; split); try (apply member_wf; intros; constructor).
    + repeat constructor.
    + by apply Hx.
Qed.

Lemma json_of_entries_wf (o : jsobject jsstring) :
  ordered (map fst o) -> wf (json_of_entries o).
Proof.
  intros Ho. unfold json_of_entries. constructor.
  - rewrite map_map. cbn [fst]. exact Ho.
  - rewrite Forall_map. apply Forall_true. intros p. constructor.
Qed.

Lemma json_of_export_wf (e : ExportData.t) :
  (forall o, ExportData.localStorage e = Some o -> ordered (map fst o)) ->
  (forall o, ExportData.sessionStorage e = Some o -> ordered (map fst o)) ->
  (forall cs, ExportData.cookies e = Some cs ->
     Forall (fun c => forall x, Cookie.expirationDate c = Some x -> plain_number x) cs) ->
  wf (json_of_export e).
Proof.
  intros Hl Hs Hc. unfold json_of_export. constructor.
  - rewrite !map_app.
    eapply (ordered_sublist _
      ([str "exportedAt"; str "domain"] ++ [str "localStorage"] ++ [str "sessionStorage"]
       ++ [str "cookies"])).
    + repeat (apply sublist_app; [first [reflexivity | apply member_keys]|]).
      apply member_keys.
    + ordered_keys.
  - repeat (apply Forall_app; split).
    + repeat constructor.
    + apply member_wf. intros o Ho. apply json_of_entries_wf. by apply Hl.
    + apply member_wf. intros o Ho. apply json_of_entries_wf. by apply Hs.
    + apply member_wf. intros cs Hcs. constructor. rewrite Forall_map.
      eapply List.Forall_impl; [|exact (Hc cs Hcs)].
      intros c. apply json_of_cookie_wf.
Qed.

Lemma member_lossless {A} (name : string) (f : A -> json) (x : option A) :
  (forall a, x = Some a -> lossless (f a) = true) ->
  forallb (fun p => lossless (snd p)) (member name f x) = true.
Proof. destruct x; cbn; intros H; [|done]. by rewrite H. Qed.

Lemma json_of_entries_lossless (o : jsobject jsstring) :
  lossless (json_of_entries o) = true.
Proof.
  unfold json_of_entries. cbn [lossless]. induction o as [|p o IH]; [done|]. exact IH.
Qed.

Lemma json_of_cookie_lossless (c : Cookie.t) :
  (forall x, Cookie.expirationDate c = Some x -> plain_number x) ->
  lossless (json_of_cookie c) = true.
Proof.
  intros Hx. unfold json_of_cookie. cbn [lossless].
  rewrite !forallb_app, !member_lossless; try done.
  intros x Hc. destruct (Hx x Hc) as (_ & m & e & ->). reflexivity.
Qed.

Lemma json_of_export_lossless (e : ExportData.t) :
  (forall cs, ExportData.cookies e = Some cs ->
     Forall (fun c => forall x, Cookie.expirationDate c = Some x -> plain_number x) cs) ->
  lossless (json_of_export e) = true.
Proof.
  intros Hc. unfold json_of_export. cbn [lossless].
  rewrite !forallb_app, !member_lossless; try done.
  - intros cs Hcs. cbn [lossless]. specialize (Hc cs Hcs). clear Hcs.
    induction Hc as [|c cs Hx _ IH]; [done|]. cbn [map forallb].
    rewrite json_of_cookie_lossless by done. exact IH.
  - intros o _. apply json_of_entries_lossless.
  - intros o _. apply json_of_entries_lossless.
Qed.

(** *** Reading the export back *)

Lemma read_entries_of (o : jsobject jsstring) :
  read_entries (map (fun p => (fst p, JString (snd p))) o) = Some o.
Proof.
  induction o as [|[k v] o IH]; [done|]. cbn [map read_entries fst snd].
  by rewrite IH.
Qed.

Lemma cookie_of_json_of (c : Cookie.t) : cookie_of_json (json_of_cookie c) = Some c.
Proof.
  destruct c as [n v [d|] [p|] [s|] [h|] [ss|] [e|]]; vm_compute; reflexivity.
Qed.

Lemma read_cookies_of (cs : list Cookie.t) :
  read_cookies (map json_of_cookie cs) = Some cs.
Proof.
  induction cs as [|c cs IH]; [done|]. cbn [map read_cookies].
  by rewrite cookie_of_json_of, IH.
Qed.

Lemma importData_of_export (e : ExportData.t) :
  importData_of (json_of_export e) = Some (import_of_export e).
Proof.
  destruct e as [at_ dom l s c]. unfold json_of_export, import_of_export, importData_of.
  cbn [ExportData.exportedAt ExportData.domain ExportData.localStorage
       ExportData.sessionStorage ExportData.cookies json_get].
  assert (Hl : read_storage_field
    (obj_get (str "localStorage")
       ([(str "exportedAt", JString at_); (str "domain", JString dom)]
        ++ member "localStorage" json_of_entries l
        ++ member "sessionStorage" json_of_entries s
        ++ member "cookies" (fun cs => JArray (map json_of_cookie cs)) c)) = Some l).
  { rewrite !obj_get_app.
    change (obj_get (str "localStorage")
              [(str "exportedAt", JString at_); (str "domain", JString dom)]) with (@None json).
    destruct l as [o|].
    - change (obj_get (str "localStorage") (member "localStorage" json_of_entries (Some o)))
        with (Some (json_of_entries o)).
      unfold json_of_entries. cbn [read_storage_field]. by rewrite read_entries_of.
    - change (obj_get (str "localStorage") (member "localStorage" json_of_entries None))
        with (@None json).
      destruct s, c; reflexivity. }
  assert (Hs : read_storage_field
    (obj_get (str "sessionStorage")
       ([(str "exportedAt", JString at_); (str "domain", JString dom)]
        ++ member "localStorage" json_of_entries l
        ++ member "sessionStorage" json_of_entries s
        ++ member "cookies" (fun cs => JArray (map json_of_cookie cs)) c)) = Some s).
  { rewrite !obj_get_app.
    change (obj_get (str "sessionStorage")
              [(str "exportedAt", JString at_); (str "domain", JString dom)]) with (@None json).
    assert (obj_get (str "sessionStorage") (member "localStorage" json_of_entries l) = None)
      as -> by (by destruct l).
    destruct s as [o|].
    - change (obj_get (str "sessionStorage") (member "sessionStorage" json_of_entries (Some o)))
        with (Some (json_of_entries o)).
      unfold json_of_entries. cbn [read_storage_field]. by rewrite read_entries_of.
    - change (obj_get (str "sessionStorage") (member "sessionStorage" json_of_entries None))
        with (@None json).
      destruct c; reflexivity. }
  assert (Hc : read_cookies_field
    (obj_get (str "cookies")
       ([(str "exportedAt", JString at_); (str "domain", JString dom)]
        ++ member "localStorage" json_of_entries l
        ++ member "sessionStorage" json_of_entries s
        ++ member "cookies" (fun cs => JArray (map json_of_cookie cs)) c)) = Some c).
  { rewrite !obj_get_app.
    change (obj_get (str "cookies")
              [(str "exportedAt", JString at_); (str "domain", JString dom)]) with (@None json).
    assert (obj_get (str "cookies") (member "localStorage" json_of_entries l) = None)
      as -> by (by destruct l).
    assert (obj_get (str "cookies") (member "sessionStorage" json_of_entries s) = None)
      as -> by (by destruct s).
    destruct c as [cs|]; [|reflexivity].
    change (obj_get (str "cookies")
              (member "cookies" (fun cs => JArray (map json_of_cookie cs)) (Some cs)))
      with (Some (JArray (map json_of_cookie cs))).
    cbn [read_cookies_field]. by rewrite read_cookies_of. }
  rewrite Hl, Hs, Hc. reflexivity.
Qed.

Lemma trim_start_head (c : N) (s : jsstring) :
  is_trim_space c = false -> trim_start (c :: s) = c :: s.
Proof. intros H. cbn [trim_start]. by rewrite H. Qed.

(** A text that starts and ends with something else than white space is
    its own trimming. *)
Lemma trim_ends (c d : N) (m : jsstring) :
  is_trim_space c = false -> is_trim_space d = false ->
  trim (c :: m ++ [d]) = c :: m ++ [d].
Proof.
  intros Hc Hd. unfold trim. rewrite trim_start_head by done.
  change (c :: m ++ [d]) with ((c :: m) ++ [d]) at 1.
  rewrite rev_app_distr. cbn [rev app]. rewrite trim_start_head by done.
  change (d :: rev m ++ [c]) with ([d] ++ rev (c :: m)).
  rewrite rev_app_distr, rev_involutive. reflexivity.
Qed.

Lemma export_text_trim (e : ExportData.t) :
  trim (export_text e) = export_text e /\ export_text e <> [].
Proof.
  unfold export_text, JSON_stringify_2, json_of_export. cbn [app].
  rewrite JSON_stringify_gap_object by done.
  set (body := join _ _). cbn [app].
  change (str "}") with ["}"%cu].
  replace (10 :: str "  " ++ body ++ [10; "}"%cu])
    with ((10 :: str "  " ++ body ++ [10]) ++ ["}"%cu]).
  - split; [by apply trim_ends | done].
  - cbn [app]. f_equal. rewrite <- !app_assoc. reflexivity.
Qed.

Section RoundTrip.
Context {J : Type} {CS : CookieStore J}.

(** The text of an export, imported, is read as what was exported. *)
Lemma confirmImport_export_text (e : ExportData.t) (merge : bool) :
  (forall o, ExportData.localStorage e = Some o -> ordered (map fst o)) ->
  (forall o, ExportData.sessionStorage e = Some o -> ordered (map fst o)) ->
  (forall cs, ExportData.cookies e = Some cs ->
     Forall (fun c => forall x, Cookie.expirationDate c = Some x -> plain_number x) cs) ->
  confirmImport_text (J := J) (export_text e) merge =
    Some (confirmImport (import_of_export e) merge).
Proof.
  intros Hl Hs Hc. unfold confirmImport_text.
  destruct (export_text_trim e) as [-> Hne].
  rewrite bool_decide_eq_false_2 by done.
  unfold export_text, JSON_stringify_2.
  rewrite JSON_parse_stringify_gap; [|done | done | by apply json_of_export_wf].
  rewrite serialized_lossless by (by apply json_of_export_lossless).
  by rewrite importData_of_export.
Qed.

Lemma confirmImport_toasts (importData : ImportData.t) (merge : bool) (st : State J) :
  toasts (chrome (exec (confirmImport importData merge) st)) =
    toasts (chrome st) ++ [imported_toast (attempted importData)].
Proof.
  destruct (confirmImport_run importData merge st) as [C _]. cbv zeta in C.
  rewrite C. cbn [toasts add_toast made]. f_equal. unfold after_import.
  destruct (after_cookies_frame (currentUrl (this st)) (ImportData.cookies importData)
    merge (cookies (data (this st)))
    (after_webStorage (str "sessionStorage")
       (ImportData.sessionStorage importData) merge (sessionStorage (data (this st)))
       (after_webStorage (str "localStorage")
          (ImportData.localStorage importData) merge (localStorage (data (this st)))
          (chrome st)))) as (_ & A & _).
  cbv zeta in A. rewrite A.
  destruct (after_webStorage_calls (str "sessionStorage")
    (ImportData.sessionStorage importData) merge (sessionStorage (data (this st)))
    (after_webStorage (str "localStorage")
       (ImportData.localStorage importData) merge (localStorage (data (this st)))
       (chrome st))) as [_ B].
  destruct (after_webStorage_calls (str "localStorage")
    (ImportData.localStorage importData) merge (localStorage (data (this st)))
    (chrome st)) as [_ B'].
  rewrite B, B'. reflexivity.
Qed.

Lemma ordered_head_fresh {V} (k : jsstring) (o : jsobject V) :
  Forall (fun k' => k <> k' /\ key_before k' k = false) (map fst o) ->
  obj_get k o = None.
Proof.
  intros H. apply obj_get_None_keys. unfold Object_keys. intros Hin.
  rewrite List.Forall_forall in H. apply list_elem_of_In in Hin.
  by destruct (H k Hin).
Qed.

(** With no key twice, the last value of a key is its value. *)
Lemma last_entry_ordered (k : jsstring) (o : jsobject jsstring) :
  ordered (map fst o) -> last_entry k o = obj_get k o.
Proof.
  unfold last_entry. induction o as [|[k0 v0] o IH]; [done|].
  cbn [map fst ordered]. intros [Hfresh Ho].
  cbn [rev]. rewrite obj_get_app, (IH Ho). cbn [obj_get].
  destruct (decide (k = k0)) as [->|Hne]; [|by destruct (obj_get k o)].
  by rewrite (ordered_head_fresh k0 o Hfresh).
Qed.

(** The import of the text of an export, as a run of [confirmImport]. *)
Lemma confirmImport_of_export (i : Inspector) (exportedAt : jsstring)
    (exportLocalStorage exportSessionStorage exportCookies merge : bool) :
  ordered (map fst (localStorage (data i))) ->
  ordered (map fst (sessionStorage (data i))) ->
  Forall (fun c => forall x, Cookie.expirationDate c = Some x -> plain_number x)
    (cookies (data i)) ->
  confirmImport_text (J := J)
    (export_text
       (getExportData exportedAt exportLocalStorage exportSessionStorage exportCookies i))
    merge =
  Some (confirmImport
          {| ImportData.localStorage :=
               if exportLocalStorage then Some (localStorage (data i)) else None;
             ImportData.sessionStorage :=
               if exportSessionStorage then Some (sessionStorage (data i)) else None;
             ImportData.cookies :=
               if exportCookies then Some (map export_cookie (cookies (data i)))
               else None |}
          merge).
Proof.
  intros Hl Hs Hc. apply confirmImport_export_text.
  - cbn. destruct exportLocalStorage; [|done]. by intros o [= <-].
  - cbn. destruct exportSessionStorage; [|done]. by intros o [= <-].
  - cbn. destruct exportCookies; [|done]. intros cs [= <-].
    rewrite Forall_map. eapply List.Forall_impl; [|exact Hc]. by intros [].
Qed.

(** X16: the text of an export, given to the import dialog, is taken for
    what the export held: the import sees the mirrored entries of the
    stores whose boxes were checked, with their values, and the mirrored
    cookies with their domain without its leading dot, and nothing else;
    the date and the domain of the export are not read. *)
Theorem export_then_import (i : Inspector) (exportedAt : jsstring)
    (exportLocalStorage exportSessionStorage exportCookies merge : bool) :
  ordered (map fst (localStorage (data i))) ->
  ordered (map fst (sessionStorage (data i))) ->
  Forall (fun c => forall x, Cookie.expirationDate c = Some x -> plain_number x)
    (cookies (data i)) ->
  confirmImport_text (J := J)
    (export_text
       (getExportData exportedAt exportLocalStorage exportSessionStorage exportCookies i))
    merge =
  Some (confirmImport
          {| ImportData.localStorage :=
               if exportLocalStorage then Some (localStorage (data i)) else None;
             ImportData.sessionStorage :=
               if exportSessionStorage then Some (sessionStorage (data i)) else None;
             ImportData.cookies :=
               if exportCookies then Some (map export_cookie (cookies (data i)))
               else None |}
          merge).
Proof.
  intros Hl Hs Hc. apply confirmImport_export_text.
  - cbn. destruct exportLocalStorage; [|done]. by intros o [= <-].
  - cbn. destruct exportSessionStorage; [|done]. by intros o [= <-].
  - cbn. destruct exportCookies; [|done]. intros cs [= <-].
    rewrite Forall_map. eapply List.Forall_impl; [|exact Hc]. by intros [].
Qed.

(** X17: an export of a page whose mirror is up to date, imported again
    into that page, merging or replacing, leaves every key of the two
    key-value stores with the value it had, when every call is fulfilled,
    the mirror that is loaded then having no [__proto__]; the closing
    toast counts the entries that were exported. *)
Theorem export_import_same_page (st : State J) (exportedAt : jsstring)
    (exportLocalStorage exportSessionStorage exportCookies merge : bool) :
  ordered (map fst (localStorage (data (this st)))) ->
  ordered (map fst (sessionStorage (data (this st)))) ->
  Forall (fun c => forall x, Cookie.expirationDate c = Some x -> plain_number x)
    (cookies (data (this st))) ->
  all_fulfilled (chrome st) ->
  (forall k, obj_get k (localStorage (data (this st)))
             = storage_getItem k (page_local (chrome st))) ->
  (forall k, obj_get k (sessionStorage (data (this st)))
             = storage_getItem k (page_session (chrome st))) ->
  exists run,
    confirmImport_text
      (export_text
         (getExportData exportedAt exportLocalStorage exportSessionStorage exportCookies
            (this st)))
      merge = Some run
    /\ (forall k,
          storage_getItem k (page_local (chrome (exec run st)))
            = storage_getItem k (page_local (chrome st))
          /\ obj_get k (localStorage (data (this (exec run st))))
              = if decide (k = str "__proto__") then None
                else storage_getItem k (page_local (chrome st)))
    /\ (forall k,
          storage_getItem k (page_session (chrome (exec run st)))
            = storage_getItem k (page_session (chrome st))
          /\ obj_get k (sessionStorage (data (this (exec run st))))
              = if decide (k = str "__proto__") then None
                else storage_getItem k (page_session (chrome st)))
    /\ toasts (chrome (exec run st)) =
         toasts (chrome st) ++
         [imported_toast
            ((if exportLocalStorage then length (localStorage (data (this st))) else 0)
             + (if exportSessionStorage then length (sessionStorage (data (this st)))
                else 0)
             + (if exportCookies then length (cookies (data (this st))) else 0))].
Proof.
  intros Hl Hs Hc Hb Hsl Hss. eexists. split; [by apply confirmImport_of_export|].
  set (d := {| ImportData.localStorage := _ |}).
  destruct (confirmImport_stores d merge st Hb) as [HL HS]. cbv zeta in HL, HS.
  assert (Hkeep : forall (mirror page : jsobject jsstring) (k : jsstring),
    ordered (map fst mirror) ->
    (forall k, obj_get k mirror = storage_getItem k page) ->
    match last_entry k mirror with
    | Some v => Some v
    | None =>
        if merge then storage_getItem k page
        else if bool_decide (k ∈ Object_keys mirror) then None
        else storage_getItem k page
    end = storage_getItem k page).
  { intros mirror page k Ho Hsync. rewrite (last_entry_ordered k mirror Ho), Hsync.
    destruct (storage_getItem k page) eqn:E; [done|].
    destruct merge; [done|]. by case_bool_decide. }
  repeat split.
  - rewrite (proj1 (HL k)). subst d. cbn [ImportData.localStorage].
    destruct exportLocalStorage; [by apply Hkeep | done].
  - rewrite (proj2 (HL k)), (proj1 (HL k)). subst d. cbn [ImportData.localStorage].
    case_decide; [done|].
    destruct exportLocalStorage; [by apply Hkeep | done].
  - rewrite (proj1 (HS k)). subst d. cbn [ImportData.sessionStorage].
    destruct exportSessionStorage; [by apply Hkeep | done].
  - rewrite (proj2 (HS k)), (proj1 (HS k)). subst d. cbn [ImportData.sessionStorage].
    case_decide; [done|].
    destruct exportSessionStorage; [by apply Hkeep | done].
  - rewrite confirmImport_toasts. unfold attempted. subst d.
    cbn [ImportData.localStorage ImportData.sessionStorage ImportData.cookies].
    destruct exportLocalStorage, exportSessionStorage, exportCookies;
      cbn [default from_option id]; rewrite ?length_map; reflexivity.
Qed.

End RoundTrip.

(** ** Instances *)

Lemma deleteItem_effect_witness :
  toasts (chrome (exec (deleteItem true (str "a")) (page_a1 []))) =
    [] ++ [(str "Deleted", str "success")]
  /\ forall key',
       obj_get key' (mirror_of KLocal (data (this (exec (deleteItem true (str "a"))
                                                     (page_a1 []))))) =
         if decide (key' = str "a") then None
         else obj_get key' [(str "a", str "1")].
Proof.
  pose proof (deleteItem_effect (page_a1 []) (str "a") KLocal eq_refl)
    as (_ & _ & H2 & H3 & _).
  split; [exact H2 | exact H3].
Defined.

Lemma openAddModal_cookie_witness :
  exists rest,
    calls (chrome (exec (saveItem (fun _ => NaN)
                           (typed (str " sid ") (js "[ 1 ]")
                              (eval (openAddModal blank_form)
                                 (sample_state (str "cookies") [] [] []))))
                        (exec (openAddModal blank_form)
                           (sample_state (str "cookies") [] [] [])))) =
      [] ++
      CookiesSet
        {| Details.url := str "https://example.com";
           Details.name := trim (str " sid ");
           Details.value := minify (js "[ 1 ]");
           Details.path := str "/";
           Details.secure := bool_decide (str "https:" = str "https:");
           Details.httpOnly := false;
           Details.sameSite := str "lax";
           Details.domain := None;
           Details.expirationDate := None |} :: rest.
Proof.
  apply (openAddModal_cookie (fun _ => NaN) blank_form
           (sample_state (str "cookies") [] [] []) (str " sid ") (js "[ 1 ]")).
  - reflexivity.
  - reflexivity.
  - discriminate.
Defined.

Lemma openEditModal_save_witness :
  let opened :=
    eval (openEditModal utc_expires_text chrome_inherited_text plain_controls
            blank_form (str "cfg")) page_cfg in
  let st1 :=
    exec (openEditModal utc_expires_text chrome_inherited_text plain_controls
            blank_form (str "cfg")) page_cfg in
  itemValue (fst opened) = textarea_value (editor_text (js "{'b':[1,2]}"))
  /\ calls (chrome (exec (saveItem utc_epoch_seconds (fst opened)) st1)) =
       [] ++ [ExecSetItem (str "localStorage") (trim (str "cfg")) (minify (js "{'b':[1,2]}"))].
Proof.
  destruct (openEditModal_save utc_epoch_seconds utc_expires_text chrome_inherited_text
              plain_controls blank_form page_cfg KLocal (str "cfg") (js "{'b':[1,2]}"))
    as (_ & _ & Hv & _ & _ & Hc & _).
  - reflexivity.
  - reflexivity.
  - discriminate.
  - split; [exact Hv|]. apply Hc; vm_compute; reflexivity.
Defined.


Lemma plain_number_17e8 : plain_number (Finite 17 8).
Proof.
  split; [|by eexists _, _]. constructor; [done | vm_compute; reflexivity ..].
Qed.

Lemma openEditModal_cookie_save_witness :
  let opened :=
    eval (openEditModal utc_expires_text chrome_inherited_text plain_controls
            blank_form (str "sid")) state_sid in
  let st1 :=
    exec (openEditModal utc_expires_text chrome_inherited_text plain_controls
            blank_form (str "sid")) state_sid in
  exists rest,
    calls (chrome (exec (saveItem utc_epoch_seconds (fst opened)) st1)) =
      [] ++
      CookiesSet
        {| Details.url := str "https://example.com";
           Details.name := str "sid";
           Details.value := str "x y";
           Details.path := str "/";
           Details.secure := true;
           Details.httpOnly := false;
           Details.sameSite := str "lax";
           Details.domain := None;
           Details.expirationDate := Some (Finite 169999998 1) |} :: rest.
Proof.
  destruct (openEditModal_cookie_save utc_epoch_seconds utc_expires_text
              chrome_inherited_text plain_controls blank_form state_sid (str "sid")
              {| Cookie.name := str "sid"; Cookie.value := str "x y";
                 Cookie.domain := Some (str ".example.com");
                 Cookie.path := Some (str "/"); Cookie.secure := Some true;
                 Cookie.httpOnly := Some false; Cookie.sameSite := Some (str "lax");
                 Cookie.expirationDate := Some (Finite 17 8) |})
    as [rest H].
  - reflexivity.
  - reflexivity.
  - discriminate.
  - intros d [= <-]. split; [reflexivity | discriminate].
  - vm_compute. reflexivity.
  - exists rest. rewrite H. vm_compute. reflexivity.
Defined.

Lemma export_then_import_witness :
  confirmImport_text (J := list Details.t)
    (export_text (getExportData (str "2026-01-01T00:00:00.000Z") true false true
                    inspector_sid))
    true =
  Some (confirmImport
          {| ImportData.localStorage := Some [(str "a", str "1")];
             ImportData.sessionStorage := None;
             ImportData.cookies := Some (map export_cookie (cookies (data inspector_sid))) |}
          true).
Proof.
  apply (export_then_import inspector_sid (str "2026-01-01T00:00:00.000Z")
           true false true true).
  - cbn. split; [constructor | exact I].
  - exact I.
  - constructor; [|constructor]. intros y [= <-]. exact plain_number_17e8.
Defined.

Lemma export_import_same_page_witness :
  exists run,
    confirmImport_text
      (export_text (getExportData (str "2026-01-01T00:00:00.000Z") true true true
                      (this (page_a1 []))))
      false = Some run
    /\ (forall k,
          storage_getItem k (page_local (chrome (exec run (page_a1 []))))
            = storage_getItem k [(str "a", str "1")]
          /\ obj_get k (localStorage (data (this (exec run (page_a1 [])))))
             = if decide (k = str "__proto__") then None
               else storage_getItem k [(str "a", str "1")]).
Proof.
  destruct (export_import_same_page (page_a1 []) (str "2026-01-01T00:00:00.000Z")
              true true true false) as (run & Hrun & Hl & _).
  - cbn. split; [constructor | exact I].
  - exact I.
  - constructor.
  - constructor.
  - reflexivity.
  - reflexivity.
  - exists run. split; [exact Hrun | exact Hl].
Defined.

Lemma copyValue_after_save_witness :
  copyValue_text chrome_inherited_text
    (this (exec (saveItem utc_epoch_seconds (typed (str " k ") (js "[ 1, 2 ]") blank_form))
             page_cfg))
    (trim (str " k "))
  = Some (minify (js "[ 1, 2 ]"))
  /\ copyValue_text chrome_inherited_text
       (this (exec (saveItem utc_epoch_seconds (typed (str "__proto__") (str "x") blank_form))
                page_cfg))
       (trim (str "__proto__"))
     = Some (chrome_inherited_text (trim (str "__proto__"))).
Proof.
  destruct (copyValue_after_save utc_epoch_seconds chrome_inherited_text
              (typed (str " k ") (js "[ 1, 2 ]") blank_form) page_cfg KLocal)
    as (_ & H & _); [reflexivity | discriminate |].
  destruct (copyValue_after_save utc_epoch_seconds chrome_inherited_text
              (typed (str "__proto__") (str "x") blank_form) page_cfg KLocal)
    as (_ & _ & H'); [reflexivity | discriminate |].
  split.
  - apply H; discriminate.
  - apply H'; [discriminate | reflexivity | reflexivity].
Defined.

Lemma search_restored_witness :
  searchQuery
    (this (exec restoreState
             {| this := this (page_a1 []);
                chrome := reopened (10 * 60 * 1000) [] None
                            (chrome (exec (searchInput_input (str "sid")) (page_a1 []))) |}))
  = str "sid".
Proof.
  destruct (search_restored (page_a1 []) (str "sid") (this (page_a1 []))
              (10 * 60 * 1000) [] None) as (_ & _ & _ & _ & H);
    [reflexivity | discriminate | reflexivity | reflexivity |].
  apply H. reflexivity.
Defined.
